(** * midi_foundation: a MIDI pass-through utility

    Shallow embedding of the Python package [midi_engine]
    ([config.py], [midi_io.py], [engine.py], [main.py], and the handler
    of a port selection in [tui.py]) and the properties its
    specification states about it.

    The program is almost entirely effectful: it talks to the file
    system through [pathlib], to the MIDI subsystem through [mido] and to
    the YAML library.  The embedding is therefore a state-and-exception
    monad [M] over one record [Sys] that holds the Python objects of the
    program together with a model of the host: a file tree, a table of
    MIDI port handles, the messages that will arrive in the future, and a
    log of the library calls made so far. *)

From Stdlib Require Import String Ascii List ZArith Lia Permutation.
From stdpp Require Import base option list strings gmap.

Local Open Scope string_scope.
Local Open Scope list_scope.
Local Set Warnings "-register-all".

(** ** Python values and exceptions *)

(** The subclasses of [Exception] the program can meet. *)
Inductive exn : Type :=
| FileExistsError
| FileNotFoundError
| NotADirectoryError
| IsADirectoryError
| OSError (what : string)
| ValueError (what : string)
| TypeError
| AttributeError
| YAMLError.

(** Ways a computation stops that no [except Exception] clause catches:
    the thread waits for ever, the machine loses power, or [sys.exit]
    raised [SystemExit]. *)
Inductive halt : Type :=
| Blocked
| Crashed
| SystemExit (code : Z).

Inductive outcome (A : Type) : Type :=
| Ok (a : A)
| Raise (e : exn)
| Halt (h : halt).
Arguments Ok {A} a.
Arguments Raise {A} e.
Arguments Halt {A} h.

(** What [yaml.safe_load] can produce.  [PObj] stands for the remaining
    types (float, bytes, date, set): an object without a [get] method,
    of the given truth value. *)
Inductive pyval : Type :=
| PNone
| PBool (b : bool)
| PInt (z : Z)
| PStr (s : string)
| PList (l : list pyval)
| PDict (d : list (pyval * pyval))
| PObj (tag : string) (truthy : bool).

(** [bool(v)] *)
Definition py_truthy (v : pyval) : bool :=
  match v with
  | PNone => false
  | PBool b => b
  | PInt z => negb (Z.eqb z 0)
  | PStr s => negb (String.eqb s "")
  | PList l => match l with [] => false | _ => true end
  | PDict d => match d with [] => false | _ => true end
  | PObj _ t => t
  end.

(** [a or b] *)
Definition py_or (a b : pyval) : pyval := if py_truthy a then a else b.

Definition is_key (k : string) (v : pyval) : bool :=
  match v with PStr s => String.eqb s k | _ => false end.

Fixpoint dict_lookup (k : string) (d : list (pyval * pyval)) : option pyval :=
  match d with
  | [] => None
  | (k', v) :: d' => if is_key k k' then Some v else dict_lookup k d'
  end.

(** A list of port names as a Python list of [str]. *)
Definition py_names (l : list string) : pyval := PList (map PStr l).

(** ** MIDI data *)

(** [mido.Message]: opaque to the program, here its raw bytes. *)
Definition Message : Type := list Byte.byte.

Record MidiEvent : Type := mkMidiEvent {
  timestamp : nat;
  message : Message;
  port_name : option string
}.

(** ** config.py: the data classes *)

Record MidiConfig : Type := mkMidiConfig {
  inputs : pyval;
  outputs : pyval
}.

Record Config : Type := mkConfig { midi : MidiConfig }.

(** [Config()]: both lists empty. *)
Definition Config_default : Config := mkConfig (mkMidiConfig (PList []) (PList [])).

(** ** The host *)

(** A parsed [pathlib.Path]: its components below the root. *)
Abbreviation Path := (list string) (only parsing).

Inductive node : Type :=
| Dir
| File (content : string).

Abbreviation handle := nat (only parsing).

Inductive direction : Type := Input | Output.

(** An open [mido] port.  [queue] holds the messages pending on an input
    port, and the messages delivered so far to an output port. *)
Record Port : Type := mkPort {
  name : string;
  dir : direction;
  closed : bool;
  queue : list Message
}.

(** Library calls, in the order they are made. *)
Inductive Call : Type :=
| CMkdir (d : Path)
| CWriteText (f : Path) (data : string)
| CReplace (src dst : Path)
| CReadText (f : Path)
| COpenInput (n : string)
| COpenOutput (n : string)
| CClose (h : handle)
| CSend (h : handle) (m : Message)
| CReceive
| CThreadStart
| CJoin
| CExit (code : Z).

(** ** midi_io.py, engine.py: the objects *)

Record MidiIO : Type := mkMidiIO {
  input_ports : list handle;
  output_ports : list handle;
  multi_in : option (list handle)
}.

(** [MidiIO.__init__] *)
Definition MidiIO_init : MidiIO := mkMidiIO [] [] None.

Record Engine : Type := mkEngine {
  _running : bool;
  _thread : bool
}.

(** [Engine.__init__] *)
Definition Engine_init : Engine := mkEngine false false.

(** ** The state *)

Record Sys : Type := mkSys {
  (* the Python objects *)
  io : MidiIO;
  eng : Engine;
  conf : Config;
  (* the file tree, and the number of file-system steps left before the
     power is cut ([None]: it is not cut) *)
  fs : gmap Path node;
  crash_in : option nat;
  (* the MIDI subsystem: the names that can be opened, the devices whose
     driver fails on close and send, the handle table, the bursts of
     messages still to arrive, and the random numbers of the host (the
     order in which [mido] polls the ports, which no result depends
     on) *)
  host_inputs : list string;
  host_outputs : list string;
  broken : list string;
  ports : list Port;
  incoming : list (list (handle * Message));
  rands : list nat;
  (* the clock and the call log *)
  clock : nat;
  calls : list Call
}.

Definition set_io (f : MidiIO → MidiIO) (s : Sys) : Sys :=
  mkSys (f (io s)) (eng s) (conf s) (fs s) (crash_in s) (host_inputs s)
        (host_outputs s) (broken s) (ports s) (incoming s) (rands s) (clock s)
        (calls s).
Definition set_eng (f : Engine → Engine) (s : Sys) : Sys :=
  mkSys (io s) (f (eng s)) (conf s) (fs s) (crash_in s) (host_inputs s)
        (host_outputs s) (broken s) (ports s) (incoming s) (rands s) (clock s)
        (calls s).
Definition set_conf (f : Config → Config) (s : Sys) : Sys :=
  mkSys (io s) (eng s) (f (conf s)) (fs s) (crash_in s) (host_inputs s)
        (host_outputs s) (broken s) (ports s) (incoming s) (rands s) (clock s)
        (calls s).
Definition set_fs (f : gmap Path node → gmap Path node) (s : Sys) : Sys :=
  mkSys (io s) (eng s) (conf s) (f (fs s)) (crash_in s) (host_inputs s)
        (host_outputs s) (broken s) (ports s) (incoming s) (rands s) (clock s)
        (calls s).
Definition set_crash_in (f : option nat → option nat) (s : Sys) : Sys :=
  mkSys (io s) (eng s) (conf s) (fs s) (f (crash_in s)) (host_inputs s)
        (host_outputs s) (broken s) (ports s) (incoming s) (rands s) (clock s)
        (calls s).
Definition set_ports (f : list Port → list Port) (s : Sys) : Sys :=
  mkSys (io s) (eng s) (conf s) (fs s) (crash_in s) (host_inputs s)
        (host_outputs s) (broken s) (f (ports s)) (incoming s) (rands s)
        (clock s) (calls s).
Definition set_incoming
    (f : list (list (handle * Message)) → list (list (handle * Message)))
    (s : Sys) : Sys :=
  mkSys (io s) (eng s) (conf s) (fs s) (crash_in s) (host_inputs s)
        (host_outputs s) (broken s) (ports s) (f (incoming s)) (rands s)
        (clock s) (calls s).
Definition set_rands (f : list nat → list nat) (s : Sys) : Sys :=
  mkSys (io s) (eng s) (conf s) (fs s) (crash_in s) (host_inputs s)
        (host_outputs s) (broken s) (ports s) (incoming s) (f (rands s))
        (clock s) (calls s).
Definition set_clock (f : nat → nat) (s : Sys) : Sys :=
  mkSys (io s) (eng s) (conf s) (fs s) (crash_in s) (host_inputs s)
        (host_outputs s) (broken s) (ports s) (incoming s) (rands s)
        (f (clock s)) (calls s).
Definition set_calls (f : list Call → list Call) (s : Sys) : Sys :=
  mkSys (io s) (eng s) (conf s) (fs s) (crash_in s) (host_inputs s)
        (host_outputs s) (broken s) (ports s) (incoming s) (rands s) (clock s)
        (f (calls s)).

(** ** The monad *)

Definition M (A : Type) : Type := Sys → outcome A * Sys.

Global Instance M_ret : MRet M := λ A a s, (Ok a, s).

Global Instance M_bind : MBind M := λ A B f m s,
  match m s with
  | (Ok a, s') => f a s'
  | (Raise e, s') => (Raise e, s')
  | (Halt h, s') => (Halt h, s')
  end.

Definition raise {A} (e : exn) : M A := λ s, (Raise e, s).
Definition stop_with {A} (h : halt) : M A := λ s, (Halt h, s).
Definition gets {A} (f : Sys → A) : M A := λ s, (Ok (f s), s).
Definition modify (f : Sys → Sys) : M unit := λ s, (Ok tt, f s).
Definition log (c : Call) : M unit := modify (set_calls (λ l, l ++ [c])).

(** [try: m  except Exception as e: h e] *)
Definition try_except {A} (m : M A) (h : exn → M A) : M A := λ s,
  match m s with
  | (Raise e, s') => h e s'
  | r => r
  end.

(** [try: m  except Exception: pass] *)
Definition try_pass (m : M unit) : M unit := try_except m (λ _, mret tt).

(** [try: m  finally: f] *)
Definition try_finally {A} (m : M A) (f : M unit) : M A := λ s,
  match m s with
  | (Halt Blocked, s') => (Halt Blocked, s')
  | (Halt Crashed, s') => (Halt Crashed, s')
  | (r, s') =>
      match f s' with
      | (Ok _, s'') => (r, s'')
      | (Raise e, s'') => (Raise e, s'')
      | (Halt h, s'') => (Halt h, s'')
      end
  end.

(** [for x in l: body x] *)
Fixpoint for_each {A} (l : list A) (body : A → M unit) : M unit :=
  match l with
  | [] => mret tt
  | x :: l' => body x ;; for_each l' body
  end.

(** ** pathlib *)

Definition parent (p : Path) : Path := removelast p.

(** [p.name]: the last component, empty for the root. *)
Definition path_name (p : Path) : string := List.last p "".

(** [s.rfind(c)] *)
Fixpoint rfind (c : ascii) (s : string) : option nat :=
  match s with
  | EmptyString => None
  | String a s' =>
      match rfind c s' with
      | Some i => Some (S i)
      | None => if Ascii.eqb a c then Some 0 else None
      end
  end.

(** [PurePath.suffix], on the name *)
Definition suffix (nm : string) : string :=
  match rfind "." nm with
  | Some i =>
      if ((0 <? i) && (i <? String.length nm - 1))%nat
      then substring i (String.length nm - i)%nat nm
      else ""
  | None => ""
  end.

Fixpoint contains_char (c : ascii) (s : string) : bool :=
  match s with
  | EmptyString => false
  | String a s' => Ascii.eqb a c || contains_char c s'
  end.

Definition starts_with_dot (s : string) : bool :=
  match s with
  | String a _ => Ascii.eqb a "."
  | EmptyString => false
  end.

(** The root (or the working directory, for a relative path) is a
    directory that always exists. *)
Definition fs_exists (t : gmap Path node) (p : Path) : bool :=
  match p, t !! p with
  | [], _ => true
  | _, Some _ => true
  | _, None => false
  end.

Definition fs_is_dir (t : gmap Path node) (p : Path) : bool :=
  match p, t !! p with
  | [], _ => true
  | _, Some Dir => true
  | _, _ => false
  end.

(** A point at which the power can be cut: every step that changes the
    file tree passes one. *)
Definition tick : M unit := λ s,
  match crash_in s with
  | Some 0 => (Halt Crashed, s)
  | Some (S n) => (Ok tt, set_crash_in (λ _, Some n) s)
  | None => (Ok tt, s)
  end.

(** [PurePath.with_suffix] *)
Definition with_suffix (p : Path) (sfx : string) : M Path :=
  if contains_char "/" sfx then raise (ValueError "Invalid suffix")
  else if (negb (String.eqb sfx "") && negb (starts_with_dot sfx))
          || String.eqb sfx "."
  then raise (ValueError "Invalid suffix")
  else
    let nm := path_name p in
    if String.eqb nm "" then raise (ValueError "empty name")
    else
      let old_suffix := suffix nm in
      let nm' :=
        if String.eqb old_suffix "" then String.append nm sfx
        else String.append
               (substring 0 (String.length nm - String.length old_suffix) nm)
               sfx in
      mret (removelast p ++ [nm']).

(** [os.mkdir] *)
Definition os_mkdir (d : Path) : M unit :=
  tick ;;
  t ← gets fs;
  if fs_exists t d then raise FileExistsError
  else if fs_is_dir t (parent d) then modify (set_fs (<[d := Dir]>))
  else if fs_exists t (parent d) then raise NotADirectoryError
  else raise FileNotFoundError.

(** [Path.mkdir(parents=False, exist_ok=...)] *)
Definition mkdir_leaf (exist_ok : bool) (d : Path) : M unit :=
  try_except (os_mkdir d) (λ e,
    match e with
    | FileNotFoundError => raise e
    | _ => t ← gets fs;
           if exist_ok && fs_is_dir t d then mret tt else raise e
    end).

(** [Path.mkdir(parents=True, exist_ok=...)] of the path [rev r]: the
    recursion of [pathlib] is on the parent, which is the tail of the
    reversed path; the root is its own parent. *)
Fixpoint mkdir_rev (exist_ok : bool) (r : list string) : M unit :=
  try_except (os_mkdir (rev r)) (λ e,
    match e with
    | FileNotFoundError =>
        match r with
        | [] => raise e
        | _ :: r' => mkdir_rev true r' ;; mkdir_leaf exist_ok (rev r)
        end
    | _ => t ← gets fs;
           if exist_ok && fs_is_dir t (rev r) then mret tt else raise e
    end).

Definition Path_mkdir (d : Path) (parents exist_ok : bool) : M unit :=
  log (CMkdir d) ;;
  if parents then mkdir_rev exist_ok (rev d) else mkdir_leaf exist_ok d.

(** [open(f, "w")]: creates the file or truncates it. *)
Definition open_w (f : Path) : M unit :=
  tick ;;
  t ← gets fs;
  if fs_is_dir t f then raise IsADirectoryError
  else if fs_is_dir t (parent f) then modify (set_fs (<[f := File ""]>))
  else if fs_exists t (parent f) then raise NotADirectoryError
  else raise FileNotFoundError.

(** The data reaches the file piece by piece; [written] is what is in
    the file already. *)
Fixpoint write_from (f : Path) (written rest : string) : M unit :=
  match rest with
  | EmptyString => mret tt
  | String c rest' =>
      let written' := String.append written (String c EmptyString) in
      tick ;;
      modify (set_fs (<[f := File written']>)) ;;
      write_from f written' rest'
  end.

(** [Path.write_text] *)
Definition Path_write_text (f : Path) (data : string) : M unit :=
  log (CWriteText f data) ;;
  open_w f ;;
  write_from f "" data.

(** [Path.replace], that is [os.replace]: an atomic rename.  Only the
    rename of a regular file is modelled; the program renames nothing
    else. *)
Definition Path_replace (src dst : Path) : M unit :=
  tick ;;
  log (CReplace src dst) ;;
  t ← gets fs;
  match t !! src with
  | None => raise FileNotFoundError
  | Some Dir => raise (OSError "rename of a directory")
  | Some (File c) =>
      if decide (src = dst) then mret tt
      else if fs_is_dir t dst then raise IsADirectoryError
      else if fs_is_dir t (parent dst)
      then modify (set_fs (λ t, <[dst := File c]> (delete src t)))
      else if fs_exists t (parent dst) then raise NotADirectoryError
      else raise FileNotFoundError
  end.

(** [Path.exists] *)
Definition Path_exists (p : Path) : M bool :=
  t ← gets fs; mret (fs_exists t p).

(** [Path.read_text] *)
Definition Path_read_text (f : Path) : M string :=
  log (CReadText f) ;;
  t ← gets fs;
  match f, t !! f with
  | [], _ => raise IsADirectoryError
  | _, Some (File c) => mret c
  | _, Some Dir => raise IsADirectoryError
  | _, None => raise FileNotFoundError
  end.

(** ** The YAML library and the place of the package *)

(** [yaml.safe_dump] and [yaml.safe_load] belong to PyYAML; the program
    is modelled over any implementation of them. *)
Class YAML : Type := {
  safe_dump : pyval → string;
  safe_load : string → exn + pyval
}.

(** [Path(__file__).resolve().parent] *)
Class Install : Type := { module_dir : Path }.

Definition yaml_safe_load `{YAML} (text : string) : M pyval :=
  match safe_load text with
  | inl e => raise e
  | inr v => mret v
  end.

(** [v.get(k, dflt)]: only a [dict] has the method. *)
Definition py_get (v : pyval) (k : string) (dflt : pyval) : M pyval :=
  match v with
  | PDict d => mret (default dflt (dict_lookup k d))
  | _ => raise AttributeError
  end.

(** ** config.py *)

Definition DEFAULT_PATH `{Install} : Path := module_dir ++ ["config.yaml"].

Definition load_config `{YAML} (path : Path) : M Config :=
  let p := path in
  e ← Path_exists p;
  if negb e then mret Config_default
  else
    text ← Path_read_text p;
    v ← yaml_safe_load text;
    let data := py_or v (PDict []) in
    m ← py_get data "midi" (PDict []);
    i ← py_get m "inputs" (PList []);
    o ← py_get m "outputs" (PList []);
    mret (mkConfig (mkMidiConfig i o)).

(** The document [save_config] serialises. *)
Definition config_data (cfg : Config) : pyval :=
  PDict [(PStr "midi",
          PDict [(PStr "inputs", inputs (midi cfg));
                 (PStr "outputs", outputs (midi cfg))])].

Definition save_config `{YAML} (cfg : Config) (path : Path) : M unit :=
  let p := path in
  Path_mkdir (parent p) true true ;;
  let data := config_data cfg in
  (* atomic write *)
  tmp ← with_suffix p ".tmp";
  Path_write_text tmp (safe_dump data) ;;
  Path_replace tmp p.

(** ** mido *)

(** The library is used through five calls: [open_input] and
    [open_output] raise for a name the host does not offer, [close] and
    [send] raise when the driver of the device fails, [iter_pending]
    hands over what is pending without waiting, and
    [MultiPort.receive], as [mido.ports] writes it, takes the messages
    off its ports without ever returning one (see [multi_receive]
    below). *)

Definition mido_open (d : direction) (n : string) : M handle :=
  log (match d with Input => COpenInput n | Output => COpenOutput n end) ;;
  avail ← gets (match d with Input => host_inputs | Output => host_outputs end);
  if bool_decide (n ∈ avail) then
    h ← gets (λ s, length (ports s));
    modify (set_ports (λ l, l ++ [mkPort n d false []])) ;;
    mret h
  else raise (OSError "unknown port").

Definition mido_open_input : string → M handle := mido_open Input.
Definition mido_open_output : string → M handle := mido_open Output.

(** [port.close()] *)
Definition port_close (h : handle) : M unit :=
  log (CClose h) ;;
  ps ← gets ports;
  bad ← gets broken;
  match ps !! h with
  | None => raise (ValueError "no such port")
  | Some p =>
      if bool_decide (name p ∈ bad) then raise (OSError "driver failure")
      else modify (set_ports (<[h := mkPort (name p) (dir p) true (queue p)]>))
  end.

(** [port.send(msg)] *)
Definition port_send (h : handle) (m : Message) : M unit :=
  log (CSend h m) ;;
  ps ← gets ports;
  bad ← gets broken;
  match ps !! h with
  | None => raise (ValueError "no such port")
  | Some p =>
      if closed p then raise (ValueError "send() called on closed port")
      else if bool_decide (name p ∈ bad) then raise (OSError "driver failure")
      else modify (set_ports
                     (<[h := mkPort (name p) (dir p) false (queue p ++ [m])]>))
  end.

(** [list(port.iter_pending())] *)
Definition iter_pending (h : handle) : M (list Message) :=
  ps ← gets ports;
  match ps !! h with
  | None => raise (ValueError "no such port")
  | Some p =>
      modify (set_ports (<[h := mkPort (name p) (dir p) (closed p) []]>)) ;;
      mret (queue p)
  end.

(** [getattr(port, "name", None)] *)
Definition port_getattr_name (h : handle) : M (option string) :=
  ps ← gets ports; mret (name <$> ps !! h).

(** [time.time()]: the wall clock is outside the model; a counter
    stands for it, and no property depends on its values. *)
Definition time_time : M nat :=
  t ← gets clock; modify (set_clock S) ;; mret t.

(** One message reaches the open input port it is addressed to. *)
Definition deliver_one (ps : list Port) (hm : handle * Message) : list Port :=
  match ps !! hm.1 with
  | Some p =>
      match dir p, closed p with
      | Input, false =>
          <[hm.1 := mkPort (name p) Input false (queue p ++ [hm.2])]> ps
      | _, _ => ps
      end
  | None => ps
  end.

Definition deliver (burst : list (handle * Message)) (ps : list Port)
  : list Port := fold_left deliver_one burst ps.

(** Every burst still to come reaches its ports. *)
Definition deliver_all (bursts : list (list (handle * Message)))
    (ps : list Port) : list Port :=
  fold_left (λ ps b, deliver b ps) bursts ps.

(** One pass of the generator [mido.ports.multi_receive] over a port:
    [if not port.closed: for message in port.iter_pending(): yield
    message] takes everything pending off a port that is not closed. *)
Definition sweep_at (ps : list Port) (h : handle) : list Port :=
  match ps !! h with
  | Some p =>
      if closed p then ps else <[h := mkPort (name p) (dir p) false []]> ps
  | None => ps
  end.

Definition sweep (hs : list handle) (ps : list Port) : list Port :=
  fold_left sweep_at hs ps.

(** [MultiPort(hs).receive()], that is [receive(block=True)].
    [BaseInput.receive] returns the first message of the deque of the
    port when there is one; the deque of a [MultiPort] is filled only by
    its own [_receive], so it is empty, and [receive] goes on to call
    [MultiPort._receive(block=True)], which is
    [self._messages.extend(multi_receive(self.ports, block=True))].
    With [block=True] the generator [multi_receive] is a [while True]
    without exit: it yields what is pending on each port that is not
    closed, sleeps and starts again.  So [extend] never ends and
    [receive] never returns: every message pending on the ports, and
    every message that arrives later, is moved to the deque of the
    [MultiPort], which nothing reads (the call holds the lock of the
    port for ever).  The state given with [Blocked] is the one the host
    tends to: every burst has arrived, and the ports of the [MultiPort]
    that are not closed have been emptied. *)
Definition multi_receive (hs : list handle) : M (option Message) :=
  log CReceive ;;
  bs ← gets incoming;
  modify (set_incoming (λ _, [])) ;;
  modify (set_ports (λ ps, sweep hs (deliver_all bs ps))) ;;
  stop_with Blocked.

(** [threading.Thread(...).start()] and [thread.join(timeout=2.0)]: the
    loop of the engine runs in its own thread; here the calls are only
    recorded, and the loop is the function [_run] below. *)
Definition thread_start : M unit := log CThreadStart.
Definition thread_join : M unit := log CJoin.

(** [sys.exit(code)] *)
Definition sys_exit {A} (code : Z) : M A :=
  log (CExit code) ;; stop_with (SystemExit code).

(** ** midi_io.py *)

Definition set_input_ports (l : list handle) (o : MidiIO) : MidiIO :=
  mkMidiIO l (output_ports o) (multi_in o).
Definition set_output_ports (l : list handle) (o : MidiIO) : MidiIO :=
  mkMidiIO (input_ports o) l (multi_in o).
Definition set_multi_in (m : option (list handle)) (o : MidiIO) : MidiIO :=
  mkMidiIO (input_ports o) (output_ports o) m.

Definition list_inputs : M (list string) := gets host_inputs.
Definition list_outputs : M (list string) := gets host_outputs.

Definition close_inputs : M unit :=
  ps ← gets (λ s, input_ports (io s));
  for_each ps (λ p, try_pass (port_close p)) ;;
  modify (set_io (set_input_ports [])) ;;
  modify (set_io (set_multi_in None)).

Definition close_outputs : M unit :=
  os ← gets (λ s, output_ports (io s));
  for_each os (λ o, try_pass (port_close o)) ;;
  modify (set_io (set_output_ports [])).

(** [for n in names: acc.append(open(n))] *)
Fixpoint open_all (open : string → M handle) (names : list string)
    (acc : list handle) : M (list handle) :=
  match names with
  | [] => mret acc
  | n :: names' => h ← open n; open_all open names' (acc ++ [h])
  end.

Definition open_inputs (names : list string) : M unit :=
  close_inputs ;;
  ports_list ← open_all mido_open_input names [];
  modify (set_io (set_input_ports ports_list)) ;;
  match ports_list with
  | _ :: _ => modify (set_io (set_multi_in (Some ports_list)))
  | [] => modify (set_io (set_multi_in None))
  end.

Definition open_outputs (names : list string) : M unit :=
  close_outputs ;;
  outs ← open_all mido_open_output names [];
  modify (set_io (set_output_ports outs)).

(** [for msg in ...: events.append(MidiEvent(time.time(), msg, pn))] *)
Fixpoint stamp (pn : option string) (msgs : list Message)
    (events : list MidiEvent) : M (list MidiEvent) :=
  match msgs with
  | [] => mret events
  | m :: msgs' =>
      t ← time_time; stamp pn msgs' (events ++ [mkMidiEvent t m pn])
  end.

(** [for p in self.input_ports: for msg in p.iter_pending(): ...] *)
Fixpoint collect_pending (ins : list handle) (events : list MidiEvent)
  : M (list MidiEvent) :=
  match ins with
  | [] => mret events
  | p :: ins' =>
      msgs ← iter_pending p;
      pn ← port_getattr_name p;
      events' ← stamp pn msgs events;
      collect_pending ins' events'
  end.

Definition read_events (non_blocking : bool) : M (list MidiEvent) :=
  let events := [] in
  ins ← gets (λ s, input_ports (io s));
  match ins with
  | [] => mret events
  | _ :: _ =>
      if non_blocking then collect_pending ins events
      else
        mi ← gets (λ s, multi_in (io s));
        match mi with
        | None => mret events
        | Some hs =>
            msg ← multi_receive hs;
            events' ← match msg with
                      | Some m => t ← time_time;
                                  mret (events ++ [mkMidiEvent t m None])
                      | None => mret events
                      end;
            collect_pending ins events'
        end
  end.

Definition send_event (event : MidiEvent) : M unit :=
  os ← gets (λ s, output_ports (io s));
  for_each os (λ o, try_pass (port_send o (message event))).

Definition MidiIO_close : M unit := close_inputs ;; close_outputs.

(** ** engine.py *)

(** The observer: it returns or raises an [Exception], and has a state
    of its own. *)
Definition Callback (Obs : Type) : Type := MidiEvent → Obs → option exn * Obs.

Definition set_running (b : bool) (e : Engine) : Engine := mkEngine b (_thread e).
Definition set_thread (b : bool) (e : Engine) : Engine := mkEngine (_running e) b.

Definition Engine_start : M unit :=
  r ← gets (λ s, _running (eng s));
  if (r : bool) then mret tt
  else
    modify (set_eng (set_running true)) ;;
    modify (set_eng (set_thread true)) ;;
    thread_start.

Definition Engine_stop : M unit :=
  modify (set_eng (set_running false)) ;;
  t ← gets (λ s, _thread (eng s));
  if (t : bool) then thread_join else mret tt.

(** [try: self.event_callback(e)  except Exception: pass] *)
Definition guarded_callback {Obs} (f : Callback Obs) (e : MidiEvent) (q : Obs)
  : M Obs :=
  match f e q with
  | (None, q') => mret q'
  | (Some _, q') => mret q'
  end.

(** The body of [for e in events] *)
Definition forward {Obs} (event_callback : option (Callback Obs))
    (e : MidiEvent) (q : Obs) : M Obs :=
  q' ← match event_callback with
       | Some f => guarded_callback f e q
       | None => mret q
       end;
  try_pass (send_event e) ;;
  mret q'.

Fixpoint forward_all {Obs} (event_callback : option (Callback Obs))
    (events : list MidiEvent) (q : Obs) : M Obs :=
  match events with
  | [] => mret q
  | e :: events' =>
      q' ← forward event_callback e q; forward_all event_callback events' q'
  end.

(** The first [n] rounds of [while self._running]. *)
Fixpoint _run {Obs} (n : nat) (event_callback : option (Callback Obs))
    (q : Obs) : M Obs :=
  match n with
  | 0 => mret q
  | S n' =>
      r ← gets (λ s, _running (eng s));
      if (r : bool) then
        events ← read_events false;
        q' ← forward_all event_callback events q;
        _run n' event_callback q'
      else mret q
  end.

(** ** main.py *)

(** [event_q.put_nowait(e)] on an unbounded queue *)
Definition on_event : Callback (list MidiEvent) := λ e q, (None, q ++ [e]).

(** The names of a configuration, which [Config] announces as a list of
    [str]. *)
Fixpoint as_strs (l : list pyval) : option (list string) :=
  match l with
  | [] => Some []
  | PStr s :: l' => cons s <$> as_strs l'
  | _ :: _ => None
  end.

(** The characters of a [str], as iterating it gives them. *)
Fixpoint chars (s : string) : list string :=
  match s with
  | EmptyString => []
  | String c s' => String c EmptyString :: chars s'
  end.

(** The value [main] hands to [open_inputs] and [open_outputs], as the
    [for n in names] of those methods goes through it: a list by
    element, a [str] by character, a [dict] by key; a number, a
    boolean or another object cannot be iterated, and the loop raises
    [TypeError].  An element that is not a [str] would reach [mido] as a
    port name; what [mido] does with it is outside the model, and
    [TypeError] stands for that as well. *)
Definition as_names (v : pyval) : M (list string) :=
  match v with
  | PList l => match as_strs l with Some ns => mret ns | None => raise TypeError end
  | PStr s => mret (chars s)
  | PDict d =>
      match as_strs (map fst d) with Some ns => mret ns | None => raise TypeError end
  | _ => raise TypeError
  end.

Section main.
Context `{YAML} `{Install}.

(** The signal handler *)
Definition _shutdown : M unit :=
  Engine_stop ;;
  MidiIO_close ;;
  cfg ← gets conf;
  save_config cfg DEFAULT_PATH ;;
  sys_exit 0.

(** The [finally] block of [main] *)
Definition main_finally : M unit :=
  Engine_stop ;;
  MidiIO_close ;;
  cfg ← gets conf;
  save_config cfg DEFAULT_PATH.

(** [main], with the terminal interface as a parameter: it may change
    the ports and the configuration, and a signal makes it run
    [_shutdown]. *)
Definition main (tui : M unit) : M unit :=
  cfg ← load_config DEFAULT_PATH;
  modify (set_conf (λ _, cfg)) ;;
  modify (set_io (λ _, MidiIO_init)) ;;
  (if py_truthy (inputs (midi cfg))
   then names ← as_names (inputs (midi cfg)); open_inputs names
   else mret tt) ;;
  (if py_truthy (outputs (midi cfg))
   then names ← as_names (outputs (midi cfg)); open_outputs names
   else mret tt) ;;
  modify (set_eng (λ _, Engine_init)) ;;
  Engine_start ;;
  try_finally tui main_finally.
End main.

(** ** tui.py: the handler of a port selection *)

(** What reaches [MidiApp.on_message]: the [PortSelected] message the
    selector posts, or any other message. *)
Inductive ui_message : Type :=
| PortSelected (kind : string) (selected : list string) (save : bool)
| OtherMessage.

(** [config.midi.inputs = v] and [config.midi.outputs = v] *)
Definition assign_inputs (v : pyval) (c : Config) : Config :=
  mkConfig (mkMidiConfig v (outputs (midi c))).
Definition assign_outputs (v : pyval) (c : Config) : Config :=
  mkConfig (mkMidiConfig (inputs (midi c)) v).

(** [MidiApp.on_message]; [main] passes [save_config] as the callback. *)
Definition on_message (save_callback : option (Config → M unit))
    (message : ui_message) : M unit :=
  match message with
  | PortSelected kind selected save =>
      try_pass
        ((if String.eqb kind "inputs"
          then modify (set_conf (assign_inputs (py_names selected))) ;;
               open_inputs selected
          else modify (set_conf (assign_outputs (py_names selected))) ;;
               open_outputs selected) ;;
         match save, save_callback with
         | true, Some callback => cfg ← gets conf; try_pass (callback cfg)
         | _, _ => mret tt
         end)
  | OtherMessage => mret tt
  end.

(** ** Sample host and documents *)

(** A host that offers the inputs "A" and "B" and the output "O", with
    an empty file tree and nothing open. *)
Definition boot : Sys :=
  mkSys MidiIO_init Engine_init Config_default ∅ None
        ["A"; "B"] ["O"] [] [] [] [] 0 [].

Definition sample_cfg : Config :=
  mkConfig (mkMidiConfig (py_names ["A"; "B"]) (py_names ["O"])).

Definition nl : string := String "010"%char EmptyString.

(** What PyYAML prints for [config_data sample_cfg]. *)
Definition sample_text : string :=
  String.concat nl
    ["midi:"; "  inputs:"; "  - A"; "  - B"; "  outputs:"; "  - O"; ""].

Definition names_in (v : pyval) : option (list string) :=
  match v with PList l => as_strs l | _ => None end.

(** The two lists of a document of the shape [config_data] builds. *)
Definition config_names (v : pyval) : option (list string * list string) :=
  match v with
  | PDict [(PStr m, PDict [(PStr i, vi); (PStr o, vo)])] =>
      if String.eqb m "midi" && String.eqb i "inputs" && String.eqb o "outputs"
      then i' ← names_in vi; o' ← names_in vo; Some (i', o')
      else None
  | _ => None
  end.

(** PyYAML on the documents used below: it prints and reads back the
    sample configuration, reads the sequence [[1]], and rejects the text
    "{"; no other document or text is used. *)
Definition pyyaml_sample : YAML := {|
  safe_dump := λ v,
    if decide (config_names v = Some (["A"; "B"], ["O"])) then sample_text
    else "";
  safe_load := λ s,
    if String.eqb s sample_text then inr (config_data sample_cfg)
    else if String.eqb s (String.append "- 1" nl) then inr (PList [PInt 1])
    else inl YAMLError
|}.

Definition sample_install : Install := {| module_dir := ["opt"; "midi_engine"] |}.

(** The host with a configuration file whose name ends in [.tmp]. *)
Definition boot_with_old : Sys :=
  set_fs (<[["config.tmp"] := File "old"]>) boot.

(** [note_on C4] and [note_off C4] *)
Definition note_on : Message := [Byte.x90; Byte.x3c; Byte.x40].
Definition note_off : Message := [Byte.x80; Byte.x3c; Byte.x00].

(** Both inputs and the output opened. *)
Definition patched : Sys :=
  ((open_inputs ["A"; "B"] ;; open_outputs ["O"]) boot).2.

(** A burst that reaches both inputs while the engine waits. *)
Definition with_burst : Sys :=
  set_incoming (λ _, [[(0, note_on); (1, note_off)]]) patched.

Definition burst_table : list Port :=
  deliver [(0, note_on); (1, note_off)] (ports with_burst).

(** The same burst pending on the inputs already. *)
Definition with_pending : Sys := set_ports (λ _, burst_table) patched.

(** The end-to-end scenario: [note_on] arrives on "A", then [note_off]
    on "B", while the engine runs. *)
Definition end_to_end : Sys :=
  set_eng (set_running true)
    (set_incoming (λ _, [[(0, note_on)]; [(1, note_off)]]) patched).

(** The engine started, and the drivers of "A" and "O" failing. *)
Definition failing_drivers : Sys :=
  mkSys (io patched) (mkEngine true true) sample_cfg ∅ None
        ["A"; "B"] ["O"] ["A"; "O"] (ports patched) [] [] 0 [].

(** The package installed in a directory that exists, no configuration
    file yet. *)
Definition installed : Sys :=
  set_fs (λ t, <[["opt"; "midi_engine"] := Dir]> (<[["opt"] := Dir]> t)) boot.

(** The same with the sample configuration already chosen. *)
Definition installed_chosen : Sys := set_conf (λ _, sample_cfg) installed.

(** A configuration file that names the input "X", which the host does
    not offer. *)
Definition stale_cfg : Config :=
  mkConfig (mkMidiConfig (py_names ["A"; "X"]) (py_names ["O"])).

Definition stale_text : string :=
  String.concat nl
    ["midi:"; "  inputs:"; "  - A"; "  - X"; "  outputs:"; "  - O"; ""].

Definition pyyaml_stale : YAML := {|
  safe_dump := λ v,
    if decide (config_names v = Some (["A"; "X"], ["O"])) then stale_text
    else @safe_dump pyyaml_sample v;
  safe_load := λ s,
    if String.eqb s stale_text then inr (config_data stale_cfg)
    else inl YAMLError
|}.

Definition installed_stale : Sys :=
  set_fs (<[["opt"; "midi_engine"; "config.yaml"] := File stale_text]>)
    installed.

(** The power cut at the third step of a call that changes the tree. *)
Definition power_cut : Sys := set_crash_in (λ _, Some 2) installed_chosen.

(** A directory where the configuration file should be. *)
Definition installed_blocked : Sys :=
  set_fs (<[["opt"; "midi_engine"; "config.yaml"] := Dir]>) installed_chosen.

(** PyYAML on four more texts: the empty text is [None], [midi:] with
    nothing after it is a mapping to [None], a [midi] section may list
    the outputs only, and two empty lists are printed in flow style. *)
Definition midi_null_text : string := String.append "midi:" nl.

Definition outputs_only_text : string :=
  String.concat nl ["midi:"; "  outputs:"; "  - O"; ""].

Definition default_text : string :=
  String.concat nl ["midi:"; "  inputs: []"; "  outputs: []"; ""].

Definition pyyaml_edge : YAML := {|
  safe_dump := λ v,
    if decide (config_names v = Some ([], [])) then default_text
    else @safe_dump pyyaml_sample v;
  safe_load := λ s,
    if String.eqb s "" then inr PNone
    else if String.eqb s default_text then inr (config_data Config_default)
    else if String.eqb s midi_null_text
    then inr (PDict [(PStr "midi", PNone)])
    else if String.eqb s outputs_only_text
    then inr (PDict [(PStr "midi", PDict [(PStr "outputs", py_names ["O"])])])
    else @safe_load pyyaml_sample s
|}.

(** The installation with the sample configuration saved. *)
Definition installed_saved : Sys :=
  set_fs (<[["opt"; "midi_engine"; "config.yaml"] := File sample_text]>)
    installed.

(** An observer that raises on every call. *)
Definition failing_observer : Callback unit :=
  λ _ q, (Some (ValueError "observer"), q).

(** ** Vocabulary of the properties *)

(** A configuration that holds two lists of port names. *)
Definition names_config (ins outs : list string) : Config :=
  mkConfig (mkMidiConfig (py_names ins) (py_names outs)).

(** What is in the queue of a port. *)
Definition queue_at (ps : list Port) (h : handle) : list Message :=
  match ps !! h with
  | Some p => queue p
  | None => []
  end.

(** Everything pending on the ports [hs], port by port. *)
Definition pending_on (ps : list Port) (hs : list handle) : list Message :=
  concat (map (queue_at ps) hs).

(** The computation never changes what is at [p] in the file tree,
    however it ends. *)
Definition keeps {A} (p : Path) (m : M A) : Prop :=
  ∀ s r s', m s = (r, s') → fs s' !! p = fs s !! p.

(** The port table after [close()] on the port [h]: a device in [bad]
    fails and stays as it is. *)
Definition close_at (bad : list string) (ps : list Port) (h : handle)
  : list Port :=
  match ps !! h with
  | Some p =>
      if bool_decide (name p ∈ bad) then ps
      else <[h := mkPort (name p) (dir p) true (queue p)]> ps
  | None => ps
  end.

Definition close_ports (bad : list string) (hs : list handle) (ps : list Port)
  : list Port := fold_left (close_at bad) hs ps.

(** The port table after [send(m)] on the port [o]. *)
Definition send_at (bad : list string) (m : Message) (ps : list Port)
    (o : handle) : list Port :=
  match ps !! o with
  | Some p =>
      if closed p then ps
      else if bool_decide (name p ∈ bad) then ps
      else <[o := mkPort (name p) (dir p) false (queue p ++ [m])]> ps
  | None => ps
  end.

Definition send_ports (bad : list string) (m : Message) (os : list handle)
    (ps : list Port) : list Port := fold_left (send_at bad m) os ps.

Definition is_open (ps : list Port) (h : handle) : bool :=
  match ps !! h with
  | Some p => negb (closed p)
  | None => false
  end.

Definition name_at (ps : list Port) (h : handle) : option string :=
  name <$> ps !! h.

Definition open_call (d : direction) (n : string) : Call :=
  match d with Input => COpenInput n | Output => COpenOutput n end.

Definition host_names (d : direction) (s : Sys) : list string :=
  match d with Input => host_inputs s | Output => host_outputs s end.

(** The handles the [MidiIO] object holds for a direction. *)
Definition recorded (s : Sys) (d : direction) : list handle :=
  match d with
  | Input => input_ports (io s)
  | Output => output_ports (io s)
  end.

(** A call of [open_inputs] or [open_outputs]. *)
Inductive request : Type :=
| OpenInputs (names : list string)
| OpenOutputs (names : list string).

Definition serve (r : request) : M unit :=
  match r with
  | OpenInputs names => open_inputs names
  | OpenOutputs names => open_outputs names
  end.

Definition req_dir (r : request) : direction :=
  match r with OpenInputs _ => Input | OpenOutputs _ => Output end.

Definition req_names (r : request) : list string :=
  match r with OpenInputs names => names | OpenOutputs names => names end.

Global Instance direction_eq_dec : EqDecision direction.
Proof. solve_decision. Defined.

(** Every name of the request can be opened. *)
Definition servable (s : Sys) (r : request) : Prop :=
  Forall (λ n, n ∈ host_names (req_dir r) s) (req_names r).

(** The names of the last request for the direction [d], if there is
    one. *)
Fixpoint last_names (d : direction) (rs : list request) : option (list string) :=
  match rs with
  | [] => None
  | r :: rs' =>
      match last_names d rs' with
      | Some names => Some names
      | None => if decide (req_dir r = d) then Some (req_names r) else None
      end
  end.

(** No handle has leaked: a port that is open in the host is held by the
    [MidiIO] object in the list of its direction, and a handle the
    object holds is an open port of that direction. *)
Definition tidy (s : Sys) : Prop :=
  (∀ h p, ports s !! h = Some p → closed p = false → h ∈ recorded s (dir p)) ∧
  (∀ d h, h ∈ recorded s d →
          ∃ p, ports s !! h = Some p ∧ dir p = d ∧ closed p = false).

(** The port table after [iter_pending] emptied the queue of [h]. *)
Definition drain_at (ps : list Port) (h : handle) : list Port :=
  match ps !! h with
  | Some p => <[h := mkPort (name p) (dir p) (closed p) []]> ps
  | None => ps
  end.

Definition drain_ports (hs : list handle) (ps : list Port) : list Port :=
  fold_left drain_at hs ps.

(** The events made of the messages [msgs], read from the clock value
    [t] on. *)
Fixpoint stamped (t : nat) (pn : option string) (msgs : list Message)
  : list MidiEvent :=
  match msgs with
  | [] => []
  | m :: msgs' => mkMidiEvent t m pn :: stamped (S t) pn msgs'
  end.

(** The [send] calls [send_event] makes for an event. *)
Definition sends_of (os : list handle) (e : MidiEvent) : list Call :=
  map (λ o, CSend o (message e)) os.

(** The state after [send_event]. *)
Definition send_state (e : MidiEvent) (s : Sys) : Sys :=
  set_ports (send_ports (broken s) (message e) (output_ports (io s)))
    (set_calls (λ l, l ++ sends_of (output_ports (io s)) e) s).

Definition send_all (evs : list MidiEvent) (s : Sys) : Sys :=
  fold_left (λ s e, send_state e s) evs s.

(** The state of the observer after it was shown the events. *)
Definition observe {Obs} (cb : option (Callback Obs)) (q : Obs) (e : MidiEvent)
  : Obs :=
  match cb with
  | Some f => (f e q).2
  | None => q
  end.

(** The [join] that [Engine.stop] makes when a thread was started. *)
Definition join_calls (s : Sys) : list Call :=
  if _thread (eng s) then [CJoin] else [].

(** The computation only adds calls to the log, however it ends. *)
Definition extends {A} (m : M A) : Prop :=
  ∀ s r s', m s = (r, s') → ∃ more, calls s' = calls s ++ more.

(** The state after [Engine.stop] and [MidiIO.close]. *)
Definition closed_down (s : Sys) : Sys :=
  set_io (λ _, MidiIO_init)
    (set_ports (λ ps, close_ports (broken s) (output_ports (io s))
                        (close_ports (broken s) (input_ports (io s)) ps))
       (set_calls (λ l, l ++ join_calls s
                          ++ map CClose (input_ports (io s))
                          ++ map CClose (output_ports (io s)))
          (set_eng (set_running false) s))).

(** The state in which [main] hands over to the terminal interface when
    it found no configuration file: nothing open, the engine started. *)
Definition started (s : Sys) : Sys :=
  set_calls (λ l, l ++ [CThreadStart])
    (set_eng (λ _, mkEngine true true)
       (set_io (λ _, MidiIO_init) (set_conf (λ _, Config_default) s))).

(** The save callback [main] passes to the terminal interface. *)
Definition save_default `{YAML} `{Install} : option (Config → M unit) :=
  Some (λ cfg, save_config cfg DEFAULT_PATH).

(** A port after [close()]: a device in [bad] fails and stays as it
    is. *)
Definition shut (bad : list string) (p : Port) : Port :=
  if bool_decide (name p ∈ bad) then p
  else mkPort (name p) (dir p) true (queue p).

(** Everything pending on the ports [hs], port by port, each message
    with the name of the port it is pending on. *)
Definition tagged_on (ps : list Port) (hs : list handle)
  : list (Message * option string) :=
  flat_map (λ h, map (λ m, (m, name_at ps h)) (queue_at ps h)) hs.

(** What an event says of itself. *)
Definition tag_of (e : MidiEvent) : Message * option string :=
  (message e, port_name e).

(** The port is open and has a message pending. *)
Definition ready (ps : list Port) (h : handle) : bool :=
  match ps !! h with
  | Some p => negb (closed p) && match queue p with [] => false | _ => true end
  | None => false
  end.

(** Whether a message is pending on one of the ports [hs], now or after
    some of the bursts to come: the bursts left and the port table at
    the moment one of the ports is ready, [None] when none ever is. *)
Fixpoint wait_any (hs : list handle) (bursts : list (list (handle * Message)))
    (ps : list Port) : option (list (list (handle * Message)) * list Port) :=
  if existsb (ready ps) hs then Some (bursts, ps)
  else match bursts with
       | [] => None
       | b :: bursts' => wait_any hs bursts' (deliver b ps)
       end.

(** The state in which a call of [receive] on the [MultiPort] over the
    ports [hs] stays for ever. *)
Definition blocked_in (hs : list handle) (s : Sys) : Sys :=
  set_ports (λ ps, sweep hs (deliver_all (incoming s) ps))
    (set_incoming (λ _, [])
       (set_calls (λ l, l ++ [CReceive]) s)).

(** * Properties *)

(** ** The monad *)

Lemma bind_ok {A B} (m : M A) (f : A → M B) s a s1 :
  m s = (Ok a, s1) → (m ≫= f) s = f a s1.
Proof. intros E. unfold mbind, M_bind. by rewrite E. Qed.

Lemma bind_raise {A B} (m : M A) (f : A → M B) s e s1 :
  m s = (Raise e, s1) → (m ≫= f) s = (Raise e, s1).
Proof. intros E. unfold mbind, M_bind. by rewrite E. Qed.

Lemma bind_halt {A B} (m : M A) (f : A → M B) s h s1 :
  m s = (Halt h, s1) → (m ≫= f) s = (Halt h, s1).
Proof. intros E. unfold mbind, M_bind. by rewrite E. Qed.

(** How a sequence can end: the first part ended well and the rest gave
    the result, or the first part did not end well. *)
Lemma bind_inv {A B} (m : M A) (f : A → M B) s r s' :
  (m ≫= f) s = (r, s') →
  (∃ a s1, m s = (Ok a, s1) ∧ f a s1 = (r, s')) ∨
  (∃ e, m s = (Raise e, s') ∧ r = Raise e) ∨
  (∃ h, m s = (Halt h, s') ∧ r = Halt h).
Proof.
  unfold mbind, M_bind. destruct (m s) as [[a|e|h] s1]; intros E.
  - left. eauto.
  - right. left. inversion E. eauto.
  - right. right. inversion E. eauto.
Qed.

Lemma bind_inv_ok {A B} (m : M A) (f : A → M B) s b s' :
  (m ≫= f) s = (Ok b, s') →
  ∃ a s1, m s = (Ok a, s1) ∧ f a s1 = (Ok b, s').
Proof.
  intros E. destruct (bind_inv _ _ _ _ _ E) as [?|[[e [_ ?]]|[h [_ ?]]]];
    [done|done|done].
Qed.

(** A decidable fact about concrete data, by running its decision. *)
Ltac run_decide := apply (bool_decide_unpack _); vm_compute; exact I.

Ltac mrun :=
  unfold mbind, M_bind, mret, M_ret, gets, modify, log, raise, stop_with,
    try_pass, try_except; simpl.

(** Runs the monad and the record updates, and nothing else; for states
    that are given by their fields. *)
Ltac sys_simpl :=
  lazy beta iota delta
    [set_io set_eng set_conf set_fs set_crash_in set_ports set_incoming
     set_rands set_clock set_calls
     io eng conf fs crash_in host_inputs host_outputs broken ports incoming
     rands clock calls
     set_input_ports set_output_ports set_multi_in set_running set_thread];
  cbn [input_ports output_ports multi_in _running _thread fst snd].

Ltac msimpl :=
  unfold mbind, M_bind, mret, M_ret, gets, modify, log, raise, stop_with,
    try_pass, try_except;
  cbv beta iota; sys_simpl; cbv beta iota.

(** ** pathlib: what each call leaves alone *)

Section keeps.
Variable p : Path.

Lemma keeps_ret {A} (a : A) : keeps p (mret a).
Proof. intros s r s' E. inversion E. done. Qed.

Lemma keeps_raise {A} e : keeps p (@raise A e).
Proof. intros s r s' E. inversion E. done. Qed.

Lemma keeps_gets {A} (f : Sys → A) : keeps p (gets f).
Proof. intros s r s' E. inversion E. done. Qed.

Lemma keeps_log c : keeps p (log c).
Proof. intros s r s' E. inversion E. done. Qed.

Lemma keeps_tick : keeps p tick.
Proof.
  intros s r s' E. unfold tick in E.
  destruct (crash_in s) as [[|n]|]; inversion E; done.
Qed.

Lemma keeps_insert k v : k ≠ p → keeps p (modify (set_fs (<[k := v]>))).
Proof.
  intros Hk s r s' E. inversion E. simpl. by rewrite lookup_insert_ne.
Qed.

Lemma keeps_bind {A B} (m : M A) (f : A → M B) :
  keeps p m → (∀ a, keeps p (f a)) → keeps p (m ≫= f).
Proof.
  intros Hm Hf s r s' E.
  destruct (bind_inv _ _ _ _ _ E) as [(a & s1 & E1 & E2)|[(e & E1 & _)|(h & E1 & _)]].
  - rewrite (Hf _ _ _ _ E2). eauto.
  - eauto.
  - eauto.
Qed.

Lemma keeps_try_except {A} (m : M A) (h : exn → M A) :
  keeps p m → (∀ e, keeps p (h e)) → keeps p (try_except m h).
Proof.
  intros Hm Hh s r s' E. unfold try_except in E.
  destruct (m s) as [[a|e|x] s1] eqn:E1.
  - inversion E; subst. eauto.
  - rewrite (Hh _ _ _ _ E). eauto.
  - inversion E; subst. eauto.
Qed.

Lemma keeps_if {A} (b : bool) (m1 m2 : M A) :
  keeps p m1 → keeps p m2 → keeps p (if b then m1 else m2).
Proof. by destruct b. Qed.
End keeps.

Create HintDb keeps discriminated.
#[local] Hint Resolve keeps_ret keeps_raise keeps_gets keeps_log keeps_tick
  keeps_insert keeps_bind keeps_try_except keeps_if : keeps.

Lemma keeps_os_mkdir p d : d ≠ p → keeps p (os_mkdir d).
Proof.
  intros Hd. unfold os_mkdir.
  apply keeps_bind; [apply keeps_tick|intros _].
  apply keeps_bind; [apply keeps_gets|intros t].
  repeat apply keeps_if; auto with keeps.
Qed.

Lemma keeps_mkdir_leaf p b d : d ≠ p → keeps p (mkdir_leaf b d).
Proof.
  intros Hd. unfold mkdir_leaf.
  apply keeps_try_except; [by apply keeps_os_mkdir|].
  intros []; auto 6 with keeps.
Qed.

Lemma keeps_mkdir_rev p b r : length r < length p → keeps p (mkdir_rev b r).
Proof.
  revert b. induction r as [|x r IH]; intros b Hlen.
  - simpl. apply keeps_try_except.
    + apply keeps_os_mkdir. intros <-. simpl in Hlen. lia.
    + intros []; auto 6 with keeps.
  - assert (rev (x :: r) ≠ p) as Hne.
    { intros <-. rewrite length_rev in Hlen. lia. }
    cbn [mkdir_rev]. apply keeps_try_except; [by apply keeps_os_mkdir|].
    intros []; auto 6 with keeps.
    apply keeps_bind.
    + apply IH. simpl in Hlen. lia.
    + intros _. by apply keeps_mkdir_leaf.
Qed.

Lemma keeps_Path_mkdir p d : length d < length p → keeps p (Path_mkdir d true true).
Proof.
  intros Hlen. unfold Path_mkdir.
  apply keeps_bind; [apply keeps_log|intros _].
  apply keeps_mkdir_rev. by rewrite length_rev.
Qed.

Lemma keeps_open_w p f : f ≠ p → keeps p (open_w f).
Proof.
  intros Hf. unfold open_w.
  apply keeps_bind; [apply keeps_tick|intros _].
  apply keeps_bind; [apply keeps_gets|intros t].
  repeat apply keeps_if; auto with keeps.
Qed.

Lemma keeps_write_from p f w rest : f ≠ p → keeps p (write_from f w rest).
Proof.
  intros Hf. revert w. induction rest as [|c rest IH]; intros w; simpl.
  - apply keeps_ret.
  - auto 8 with keeps.
Qed.

Lemma keeps_write_text p f data : f ≠ p → keeps p (Path_write_text f data).
Proof.
  intros Hf. unfold Path_write_text.
  apply keeps_bind; [apply keeps_log|intros _].
  apply keeps_bind; [by apply keeps_open_w|intros _].
  by apply keeps_write_from.
Qed.

(** ** pathlib: what each call does *)

Lemma with_suffix_pure p sfx s r s' :
  with_suffix p sfx s = (r, s') → s' = s ∧ ∀ t, with_suffix p sfx t = (r, t).
Proof.
  unfold with_suffix. intros E.
  repeat case_match; inversion E; subst; done.
Qed.

Lemma with_suffix_ok p sfx s tmp s' :
  with_suffix p sfx s = (Ok tmp, s') → p ≠ [] ∧ tmp ≠ [].
Proof.
  unfold with_suffix. intros E.
  repeat case_match; inversion E; subst; try done.
  all: split; [intros ->; simpl in *; done|].
  all: intros E'; by apply app_eq_nil in E' as [_ ?].
Qed.

Lemma parent_shorter (p : Path) : p ≠ [] → length (parent p) < length p.
Proof.
  intros Hp. destruct (exists_last Hp) as (l & x & ->).
  unfold parent. rewrite removelast_last, length_app. simpl. lia.
Qed.

Lemma append_snoc w c rest :
  String.append (String.append w (String c EmptyString)) rest
  = String.append w (String c rest).
Proof.
  induction w as [|a w IH]; [done|].
  change (String a (String.append (String.append w (String c EmptyString)) rest)
          = String a (String.append w (String c rest))).
  by f_equal.
Qed.

Lemma append_empty w : String.append w "" = w.
Proof.
  induction w as [|a w IH]; [done|].
  change (String a (String.append w "") = String a w). by f_equal.
Qed.

Lemma tick_ok s s' : tick s = (Ok tt, s') → fs s' = fs s.
Proof.
  unfold tick. destruct (crash_in s) as [[|n]|]; intros E; inversion E; done.
Qed.

Lemma open_w_ok f s s' :
  open_w f s = (Ok tt, s') → fs s' !! f = Some (File "").
Proof.
  unfold open_w. intros E.
  apply bind_inv_ok in E as (_ & s1 & _ & E). revert E. mrun.
  repeat case_match; intros E; inversion E; subst; simpl.
  by rewrite lookup_insert_eq.
Qed.

Lemma write_from_ok f rest : ∀ w s s',
  write_from f w rest s = (Ok tt, s') →
  fs s !! f = Some (File w) →
  fs s' !! f = Some (File (String.append w rest)).
Proof.
  induction rest as [|c rest IH]; intros w s s' E Hf; simpl in E.
  - inversion E; subst. by rewrite append_empty.
  - apply bind_inv_ok in E as (_ & s1 & _ & E).
    apply bind_inv_ok in E as ([] & s2 & E2 & E).
    apply IH in E.
    + by rewrite append_snoc in E.
    + unfold modify in E2. injection E2 as <-. simpl.
      by rewrite lookup_insert_eq.
Qed.

Lemma write_text_ok f data s s' :
  Path_write_text f data s = (Ok tt, s') → fs s' !! f = Some (File data).
Proof.
  unfold Path_write_text. intros E.
  apply bind_inv_ok in E as (_ & s1 & _ & E).
  apply bind_inv_ok in E as ([] & s2 & E2 & E).
  apply open_w_ok in E2. by apply (write_from_ok _ _ _ _ _ E) in E2.
Qed.

(** A rename that succeeds puts the source file at the destination; one
    that does not leaves the destination alone. *)
Lemma replace_spec src dst c s r s' :
  fs s !! src = Some (File c) →
  Path_replace src dst s = (r, s') →
  (r = Ok tt ∧ fs s' !! dst = Some (File c)) ∨
  (r ≠ Ok tt ∧ fs s' !! dst = fs s !! dst).
Proof.
  intros Hsrc. unfold Path_replace. intros E.
  apply bind_inv in E as [([] & s1 & E1 & E)|[(e & E1 & ->)|(h & E1 & ->)]];
    [|right; split; [done|by eapply keeps_tick]..].
  apply tick_ok in E1.
  revert E. mrun. rewrite E1, Hsrc.
  repeat case_match; intros E; inversion E; subst; simpl;
    rewrite ?E1; try (right; done); left.
  - done.
  - by rewrite lookup_insert_eq.
Qed.

Section config_facts.
Context `{YAML}.

(** A call to [save_config] that returns has put the whole document
    at the destination. *)
Lemma save_config_ok cfg p s s' :
  save_config cfg p s = (Ok tt, s') →
  p ≠ [] ∧ fs s' !! p = Some (File (safe_dump (config_data cfg))).
Proof.
  unfold save_config. intros E.
  apply bind_inv_ok in E as (_ & s1 & _ & E).
  apply bind_inv_ok in E as (tmp & s2 & E2 & E).
  apply bind_inv_ok in E as ([] & s3 & E3 & E).
  apply with_suffix_ok in E2 as [Hp _]. split; [done|].
  apply write_text_ok in E3.
  destruct (replace_spec _ _ _ _ _ _ E3 E) as [[_ ?]|[? _]]; done.
Qed.

(** With the temporary file beside the destination, the destination
    holds the old content until the rename, and the new one after it,
    wherever the call stops. *)
Lemma save_config_atomic cfg p tmp s r s' :
  with_suffix p ".tmp" s = (Ok tmp, s) →
  tmp ≠ p →
  save_config cfg p s = (r, s') →
  (r = Ok tt ∧ fs s' !! p = Some (File (safe_dump (config_data cfg)))) ∨
  (r ≠ Ok tt ∧ fs s' !! p = fs s !! p).
Proof.
  intros Htmp Hne E. unfold save_config in E.
  destruct (with_suffix_ok _ _ _ _ _ Htmp) as [Hp _].
  pose proof (keeps_Path_mkdir p _ (parent_shorter p Hp)) as Kmk.
  apply with_suffix_pure in Htmp as [_ Htmp].
  apply bind_inv in E as [([] & s1 & E1 & E)|[(e & E1 & ->)|(h & E1 & ->)]];
    [|right; split; [done|by eapply Kmk]..].
  apply Kmk in E1. rewrite <- E1. clear E1 Kmk.
  rewrite (bind_ok _ _ _ _ _ (Htmp s1)) in E.
  pose proof (keeps_write_text p tmp (safe_dump (config_data cfg)) Hne) as Kw.
  apply bind_inv in E as [([] & s2 & E2 & E)|[(e & E2 & ->)|(h & E2 & ->)]];
    [|right; split; [done|by eapply Kw]..].
  rewrite <- (Kw _ _ _ E2). apply write_text_ok in E2.
  by eapply replace_spec.
Qed.
End config_facts.

(** ** save_config returns *)

Lemma tick_run s : crash_in s = None → tick s = (Ok tt, s).
Proof. intros Hc. unfold tick. by rewrite Hc. Qed.

(** Making a directory that is there changes nothing. *)
Lemma mkdir_existing d s :
  crash_in s = None →
  fs_is_dir (fs s) d = true →
  Path_mkdir d true true s = (Ok tt, set_calls (λ l, l ++ [CMkdir d]) s).
Proof.
  intros Hc Hd.
  assert (fs_exists (fs s) d = true) as He.
  { unfold fs_exists, fs_is_dir in *. destruct d; [done|].
    by destruct (fs s !! _) as [[]|]. }
  set (s1 := set_calls (λ l, l ++ [CMkdir d]) s).
  assert (crash_in s1 = None ∧ fs s1 = fs s) as [Hc1 Hfs1] by (by destruct s).
  assert (os_mkdir d s1 = (Raise FileExistsError, s1)) as Hos.
  { unfold os_mkdir. rewrite (bind_ok _ _ _ _ _ (tick_run s1 Hc1)).
    rewrite (bind_ok _ _ _ (fs s1) s1) by done. by rewrite Hfs1, He. }
  unfold Path_mkdir. rewrite (bind_ok _ _ _ tt s1) by done.
  destruct (rev d) as [|x r] eqn:Hr; cbn [mkdir_rev]; rewrite <- Hr;
    rewrite rev_involutive; unfold try_except; rewrite Hos;
    rewrite (bind_ok _ _ _ (fs s1) s1) by done; by rewrite Hfs1, Hd.
Qed.

Lemma write_from_run f rest : ∀ w s,
  crash_in s = None →
  ∃ s', write_from f w rest s = (Ok tt, s') ∧
        crash_in s' = None ∧
        (rest ≠ "" → fs s' !! f = Some (File (String.append w rest))) ∧
        (rest = "" → fs s' = fs s) ∧
        ∀ k, k ≠ f → fs s' !! k = fs s !! k.
Proof.
  induction rest as [|c rest IH]; intros w s Hc.
  - exists s. by repeat split.
  - set (w' := String.append w (String c EmptyString)).
    set (s1 := set_fs (<[f := File w']>) s).
    assert (crash_in s1 = None) as Hc1 by (by destruct s).
    destruct (IH w' s1 Hc1) as (s' & E & Hc' & Hnew & Hsame & Hother).
    exists s'. split; [|split; [done|split; [|split; [done|]]]].
    + cbn [write_from]. rewrite (bind_ok _ _ _ _ _ (tick_run s Hc)).
      by rewrite (bind_ok _ _ _ tt s1).
    + intros _. unfold w' in *. rewrite <- append_snoc.
      destruct rest as [|c2 rest]; [|by apply Hnew].
      rewrite Hsame by done. rewrite append_empty.
      replace (fs s1) with (<[f := File w']> (fs s)) by (by destruct s).
      by rewrite lookup_insert_eq.
    + intros k Hk. rewrite Hother by done.
      replace (fs s1) with (<[f := File w']> (fs s)) by (by destruct s).
      by rewrite lookup_insert_ne.
Qed.

Lemma write_text_run f data s :
  crash_in s = None →
  fs_is_dir (fs s) f = false →
  fs_is_dir (fs s) (parent f) = true →
  ∃ s', Path_write_text f data s = (Ok tt, s') ∧
        crash_in s' = None ∧
        fs s' !! f = Some (File data) ∧
        ∀ k, k ≠ f → fs s' !! k = fs s !! k.
Proof.
  intros Hc Hf Hpar.
  set (s1 := set_calls (λ l, l ++ [CWriteText f data]) s).
  set (s2 := set_fs (<[f := File ""]>) s1).
  assert (crash_in s1 = None ∧ fs s1 = fs s) as [Hc1 Hfs1] by (by destruct s).
  assert (crash_in s2 = None ∧ fs s2 = <[f := File ""]> (fs s)) as [Hc2 Hfs2]
    by (by destruct s).
  assert (open_w f s1 = (Ok tt, s2)) as Hopen.
  { unfold open_w. rewrite (bind_ok _ _ _ _ _ (tick_run s1 Hc1)).
    rewrite (bind_ok _ _ _ (fs s1) s1) by done. by rewrite Hfs1, Hf, Hpar. }
  destruct (write_from_run f data "" s2 Hc2) as (s' & E & Hc' & Hnew & Hsame & Hother).
  exists s'. split; [|split; [done|split]].
  - unfold Path_write_text. rewrite (bind_ok _ _ _ tt s1) by done.
    by rewrite (bind_ok _ _ _ _ _ Hopen).
  - destruct data as [|c data].
    + rewrite Hsame, Hfs2 by done. by rewrite lookup_insert_eq.
    + by apply Hnew.
  - intros k Hk. rewrite Hother, Hfs2 by done. by rewrite lookup_insert_ne.
Qed.

Lemma with_suffix_parent p sfx s tmp s' :
  with_suffix p sfx s = (Ok tmp, s') → parent tmp = parent p.
Proof.
  unfold with_suffix. intros E.
  repeat case_match; inversion E; subst; unfold parent; by rewrite removelast_last.
Qed.

Lemma fs_is_dir_same (t t' : gmap (list string) node) p :
  t' !! p = t !! p → fs_is_dir t' p = fs_is_dir t p.
Proof. intros E. unfold fs_is_dir. destruct p; [done|]. by rewrite E. Qed.

Section config_returns.
Context `{YAML}.

(** With the directory of the destination in place, and no directory in
    the way of the two files, [save_config] returns. *)
Lemma save_config_returns cfg p tmp s :
  crash_in s = None →
  with_suffix p ".tmp" s = (Ok tmp, s) →
  fs_is_dir (fs s) (parent p) = true →
  fs_is_dir (fs s) tmp = false →
  fs_is_dir (fs s) p = false →
  ∃ s', save_config cfg p s = (Ok tt, s').
Proof.
  intros Hc Htmp Hpar Htmpdir Hpdir.
  pose proof (with_suffix_parent _ _ _ _ _ Htmp) as Hparent.
  destruct (with_suffix_ok _ _ _ _ _ Htmp) as [Hne Htne].
  apply with_suffix_pure in Htmp as [_ Htmp].
  set (s1 := set_calls (λ l, l ++ [CMkdir (parent p)]) s).
  assert (crash_in s1 = None ∧ fs s1 = fs s) as [Hc1 Hfs1] by (by destruct s).
  destruct (write_text_run tmp (safe_dump (config_data cfg)) s1)
    as (s2 & E2 & Hc2 & Hnew & Hother); rewrite ?Hfs1, ?Hparent; try done.
  assert (parent p ≠ tmp) as Hpt.
  { intros E. pose proof (parent_shorter p Hne) as Hlt.
    pose proof (parent_shorter tmp Htne) as Hlt'.
    rewrite Hparent, E in Hlt'. lia. }
  assert (∃ s', Path_replace tmp p s2 = (Ok tt, s')) as [s' E3].
  { unfold Path_replace. rewrite (bind_ok _ _ _ _ _ (tick_run s2 Hc2)).
    set (s3 := set_calls (λ l, l ++ [CReplace tmp p]) s2).
    assert (fs s3 = fs s2) as Hfs3 by (by destruct s2).
    rewrite (bind_ok _ _ _ tt s3) by done.
    rewrite (bind_ok _ _ _ (fs s3) s3) by done.
    rewrite Hfs3, Hnew.
    destruct (decide (tmp = p)) as [->|Htp]; [by eexists|].
    rewrite (fs_is_dir_same (fs s) (fs s2) p), Hpdir
      by (rewrite Hother, Hfs1; done).
    rewrite (fs_is_dir_same (fs s) (fs s2) (parent p)), Hpar
      by (rewrite Hother, Hfs1; done).
    by eexists. }
  exists s'. unfold save_config.
  rewrite (bind_ok _ _ _ _ _ (mkdir_existing (parent p) s Hc Hpar)).
  fold s1. rewrite (bind_ok _ _ _ _ _ (Htmp s1)).
  by rewrite (bind_ok _ _ _ _ _ E2).
Qed.
End config_returns.

(** ** config.py *)

Section config_claims.
Context `{YAML}.

(** A path that exists but is a directory makes [load_config] raise:
    nothing in it catches the error of [read_text]. *)
Lemma load_config_directory p s :
  fs s !! p = Some Dir → (load_config p s).1 = Raise IsADirectoryError.
Proof.
  intros Hp.
  assert (fs_exists (fs s) p = true) as He.
  { unfold fs_exists. destruct p; [done|]. by rewrite Hp. }
  unfold load_config, Path_exists, Path_read_text. mrun. rewrite He. simpl.
  destruct p; [done|]. by rewrite Hp.
Qed.

(** Text that the YAML parser rejects makes [load_config] raise the
    error of the parser. *)
Lemma load_config_parse_error p text e s :
  p ≠ [] → fs s !! p = Some (File text) → safe_load text = inl e →
  (load_config p s).1 = Raise e.
Proof.
  intros Hne Hp He.
  assert (fs_exists (fs s) p = true) as Hex.
  { unfold fs_exists. destruct p; [done|]. by rewrite Hp. }
  unfold load_config, Path_exists, Path_read_text, yaml_safe_load. mrun.
  rewrite Hex. simpl. destruct p; [done|]. rewrite Hp. simpl.
  by rewrite He.
Qed.

(** A document that is truthy and is not a mapping makes [load_config]
    raise [AttributeError]: it has no [get]. *)
Lemma load_config_not_mapping p text v s :
  p ≠ [] → fs s !! p = Some (File text) → safe_load text = inr v →
  py_truthy v = true → (∀ d, v ≠ PDict d) →
  (load_config p s).1 = Raise AttributeError.
Proof.
  intros Hne Hp Hv Ht Hnd.
  assert (fs_exists (fs s) p = true) as Hex.
  { unfold fs_exists. destruct p; [done|]. by rewrite Hp. }
  unfold load_config, Path_exists, Path_read_text, yaml_safe_load. mrun.
  rewrite Hex. simpl. destruct p; [done|]. rewrite Hp. simpl.
  rewrite Hv. unfold py_or. rewrite Ht.
  destruct v as [| | | | |d|]; try reflexivity. by destruct (Hnd d).
Qed.

(** C6 (amended): for every path, [load_config] returns the zero-value
    [Config] (both lists empty), without raising and without changing
    anything, when nothing exists at that path; and it catches no
    exception: a directory at the path, text that the YAML parser
    rejects, and a document that is neither falsy nor a mapping each
    make it raise. *)
Theorem load_config_guards_only_the_missing_file p s :
  (fs_exists (fs s) p = false → load_config p s = (Ok Config_default, s)) ∧
  (fs s !! p = Some Dir → (load_config p s).1 = Raise IsADirectoryError) ∧
  (∀ text e, p ≠ [] → fs s !! p = Some (File text) →
     safe_load text = inl e → (load_config p s).1 = Raise e) ∧
  (∀ text v, p ≠ [] → fs s !! p = Some (File text) →
     safe_load text = inr v → py_truthy v = true → (∀ d, v ≠ PDict d) →
     (load_config p s).1 = Raise AttributeError).
Proof.
  split; [|split; [|split]].
  - intros Hp. unfold load_config, Path_exists. mrun. by rewrite Hp.
  - apply load_config_directory.
  - intros text e. apply load_config_parse_error.
  - intros text v. apply load_config_not_mapping.
Qed.

(** C2: for every pair of lists of port names, once [save_config] has
    returned for a [Config] that holds them, [load_config] on the same
    path returns a [Config] with the same two lists.  The YAML library
    is assumed to read back the document it printed. *)
Theorem save_then_load (ins outs : list string) p s s' :
  safe_load (safe_dump (config_data (names_config ins outs)))
    = inr (config_data (names_config ins outs)) →
  save_config (names_config ins outs) p s = (Ok tt, s') →
  (load_config p s').1 = Ok (names_config ins outs).
Proof.
  intros Hyaml Hsave.
  apply save_config_ok in Hsave as [Hne Hp].
  assert (fs_exists (fs s') p = true) as Hex.
  { unfold fs_exists. destruct p; [done|]. by rewrite Hp. }
  unfold load_config, Path_exists, Path_read_text, yaml_safe_load. mrun.
  rewrite Hex. simpl. destruct p; [done|]. rewrite Hp. simpl.
  by rewrite Hyaml.
Qed.
End config_claims.

Section default_path.
Context `{YAML} `{Install}.

Lemma with_suffix_default s :
  with_suffix DEFAULT_PATH ".tmp" s = (Ok (module_dir ++ ["config.tmp"]), s).
Proof.
  unfold with_suffix, DEFAULT_PATH, path_name.
  rewrite last_last, removelast_last. reflexivity.
Qed.

(** At the default path the temporary file is another file, and the
    write is atomic. *)
Lemma save_config_default_atomic cfg s r s' :
  save_config cfg DEFAULT_PATH s = (r, s') →
  (r = Ok tt ∧
   fs s' !! DEFAULT_PATH = Some (File (safe_dump (config_data cfg)))) ∨
  (r ≠ Ok tt ∧ fs s' !! DEFAULT_PATH = fs s !! DEFAULT_PATH).
Proof.
  apply save_config_atomic with (tmp := module_dir ++ ["config.tmp"]).
  - apply with_suffix_default.
  - unfold DEFAULT_PATH. intros E. by apply app_inv_head in E.
Qed.
End default_path.

(** The witnesses and the concrete runs *)

Lemma load_config_guards_only_the_missing_file_witness :
  @load_config pyyaml_sample ["config.yaml"] boot = (Ok Config_default, boot) ∧
  (@load_config pyyaml_sample ["config.yaml"]
     (set_fs (<[["config.yaml"] := Dir]>) boot)).1
    = Raise IsADirectoryError ∧
  (@load_config pyyaml_sample ["config.yaml"]
     (set_fs (<[["config.yaml"] := File "{"]>) boot)).1
    = Raise YAMLError ∧
  (@load_config pyyaml_sample ["config.yaml"]
     (set_fs (<[["config.yaml"] := File (String.append "- 1" nl)]>) boot)).1
    = Raise AttributeError.
Proof.
  split; [|split; [|split]].
  - apply (@load_config_guards_only_the_missing_file pyyaml_sample
             ["config.yaml"] boot).
    reflexivity.
  - apply (@load_config_guards_only_the_missing_file pyyaml_sample
             ["config.yaml"] (set_fs (<[["config.yaml"] := Dir]>) boot)).
    vm_compute. reflexivity.
  - apply (proj1 (proj2 (proj2
             (@load_config_guards_only_the_missing_file pyyaml_sample
                ["config.yaml"]
                (set_fs (<[["config.yaml"] := File "{"]>) boot))))
             "{" YAMLError).
    + discriminate.
    + vm_compute. reflexivity.
    + vm_compute. reflexivity.
  - apply (proj2 (proj2 (proj2
             (@load_config_guards_only_the_missing_file pyyaml_sample
                ["config.yaml"]
                (set_fs (<[["config.yaml"] := File (String.append "- 1" nl)]>)
                   boot))))
             (String.append "- 1" nl) (PList [PInt 1])).
    + discriminate.
    + vm_compute. reflexivity.
    + vm_compute. reflexivity.
    + reflexivity.
    + discriminate.
Defined.

(** C6, as stated, fails: a path that is a directory, a document that is
    a sequence, and text that is not YAML each make [load_config]
    raise. *)
Lemma load_config_raises :
  (@load_config pyyaml_sample ["config.yaml"]
     (set_fs (<[["config.yaml"] := Dir]>) boot)).1
    = Raise IsADirectoryError ∧
  (@load_config pyyaml_sample ["config.yaml"]
     (set_fs (<[["config.yaml"] := File (String.append "- 1" nl)]>) boot)).1
    = Raise AttributeError ∧
  (@load_config pyyaml_sample ["config.yaml"]
     (set_fs (<[["config.yaml"] := File "{"]>) boot)).1
    = Raise YAMLError.
Proof. repeat split; vm_compute; reflexivity. Qed.

Lemma save_then_load_witness :
  (@load_config pyyaml_sample ["etc"; "config.yaml"]
     (@save_config pyyaml_sample sample_cfg ["etc"; "config.yaml"] boot).2).1
    = Ok sample_cfg.
Proof.
  apply (@save_then_load pyyaml_sample ["A"; "B"] ["O"] ["etc"; "config.yaml"]
           boot).
  - reflexivity.
  - vm_compute. reflexivity.
Defined.

(** C1, at a path whose suffix is [.tmp] already: the temporary file is
    the destination itself.  With the power cut right after the file was
    opened, the destination is empty, neither the old content nor the
    new; with the power cut after the write and before the rename, the
    destination holds the new content although no rename was made. *)
Theorem save_config_writes_in_place :
  with_suffix ["config.tmp"] ".tmp" boot_with_old = (Ok ["config.tmp"], boot_with_old) ∧
  fs boot_with_old !! ["config.tmp"] = Some (File "old") ∧
  (let r := @save_config pyyaml_sample sample_cfg ["config.tmp"]
              (set_crash_in (λ _, Some 2) boot_with_old) in
   r.1 = Halt Crashed ∧ fs r.2 !! ["config.tmp"] = Some (File "")) ∧
  (let r := @save_config pyyaml_sample sample_cfg ["config.tmp"]
              (set_crash_in (λ _, Some (2 + String.length sample_text))
                 boot_with_old) in
   r.1 = Halt Crashed ∧
   fs r.2 !! ["config.tmp"] = Some (File sample_text) ∧
   calls r.2 = [CMkdir []; CWriteText ["config.tmp"] sample_text]).
Proof. repeat split; vm_compute; reflexivity. Qed.

(** ** mido: closing and opening ports *)

Lemma close_at_length bad ps h : length (close_at bad ps h) = length ps.
Proof.
  unfold close_at. repeat case_match; by rewrite ?length_insert.
Qed.

Lemma close_ports_length bad hs : ∀ ps, length (close_ports bad hs ps) = length ps.
Proof.
  unfold close_ports.
  induction hs as [|h hs IH]; intros ps; simpl; [done|].
  by rewrite IH, close_at_length.
Qed.

(** With no failing driver, closing the ports [hs] marks exactly them
    closed and touches nothing else. *)
Lemma close_ports_lookup hs : ∀ ps h,
  close_ports [] hs ps !! h =
    if bool_decide (h ∈ hs)
    then (λ p, mkPort (name p) (dir p) true (queue p)) <$> ps !! h
    else ps !! h.
Proof.
  induction hs as [|x hs IH]; intros ps h; [done|].
  unfold close_ports in *. cbn [fold_left]. rewrite IH.
  assert (∀ k, close_at [] ps x !! k =
               if decide (x = k)
               then (λ p, mkPort (name p) (dir p) true (queue p)) <$> ps !! k
               else ps !! k) as Hat.
  { intros k. unfold close_at. destruct (ps !! x) as [p|] eqn:Hx; simpl.
    - destruct (decide (x = k)) as [<-|Hne].
      + rewrite list_lookup_insert_eq; [by rewrite Hx|by eapply lookup_lt_Some].
      + by rewrite list_lookup_insert_ne.
    - destruct (decide (x = k)) as [<-|Hne]; [by rewrite Hx|done]. }
  rewrite Hat.
  destruct (decide (x = h)) as [<-|Hne].
  - rewrite (bool_decide_eq_true_2 (x ∈ x :: hs)) by left.
    case_bool_decide; [|done]. destruct (ps !! x); reflexivity.
  - assert (bool_decide (h ∈ x :: hs) = bool_decide (h ∈ hs)) as ->; [|done].
    apply bool_decide_ext. rewrite elem_of_cons.
    split; [intros [->|?]; [by destruct Hne|done]|by right].
Qed.

Lemma try_close h s :
  try_pass (port_close h) s
  = (Ok tt, set_ports (λ ps, close_at (broken s) ps h)
              (set_calls (λ l, l ++ [CClose h]) s)).
Proof.
  destruct s. unfold port_close, close_at, set_ports, set_calls. mrun.
  destruct (_ !! h) as [p|]; simpl; [|done].
  by destruct (bool_decide _).
Qed.

Lemma close_each hs : ∀ s,
  for_each hs (λ h, try_pass (port_close h)) s
  = (Ok tt, set_ports (close_ports (broken s) hs)
              (set_calls (λ l, l ++ map CClose hs) s)).
Proof.
  induction hs as [|h hs IH]; intros s.
  - destruct s. simpl. unfold mret, M_ret, set_ports, set_calls. simpl.
    by rewrite app_nil_r.
  - cbn [for_each]. rewrite (bind_ok _ _ _ _ _ (try_close h s)), IH.
    destruct s. unfold set_ports, set_calls. simpl.
    by rewrite <- app_assoc.
Qed.

Lemma close_inputs_run s :
  close_inputs s
  = (Ok tt, set_io (λ o, mkMidiIO [] (output_ports o) None)
              (set_ports (close_ports (broken s) (input_ports (io s)))
                 (set_calls (λ l, l ++ map CClose (input_ports (io s))) s))).
Proof.
  unfold close_inputs.
  rewrite (bind_ok _ _ _ (input_ports (io s)) s) by done.
  rewrite (bind_ok _ _ _ _ _ (close_each _ _)).
  by destruct s.
Qed.

Lemma close_outputs_run s :
  close_outputs s
  = (Ok tt, set_io (λ o, mkMidiIO (input_ports o) [] (multi_in o))
              (set_ports (close_ports (broken s) (output_ports (io s)))
                 (set_calls (λ l, l ++ map CClose (output_ports (io s))) s))).
Proof.
  unfold close_outputs.
  rewrite (bind_ok _ _ _ (output_ports (io s)) s) by done.
  rewrite (bind_ok _ _ _ _ _ (close_each _ _)).
  by destruct s.
Qed.

(** Opening names the host offers: one fresh handle for each, in order. *)
Lemma open_all_ok d names : ∀ acc s,
  Forall (λ n, n ∈ host_names d s) names →
  open_all (mido_open d) names acc s
  = (Ok (acc ++ seq (length (ports s)) (length names)),
     set_ports (λ ps, ps ++ map (λ n, mkPort n d false []) names)
       (set_calls (λ l, l ++ map (open_call d) names) s)).
Proof.
  induction names as [|n names IH]; intros acc s Hall.
  - destruct s. simpl. unfold mret, M_ret, set_ports, set_calls. simpl.
    by rewrite !app_nil_r.
  - apply Forall_cons in Hall as [Hn Hall].
    assert (mido_open d n s
            = (Ok (length (ports s)),
               set_ports (λ ps, ps ++ [mkPort n d false []])
                 (set_calls (λ l, l ++ [open_call d n]) s))) as Hopen.
    { destruct s, d; unfold mido_open; mrun; simpl in Hn;
        by rewrite bool_decide_eq_true_2. }
    cbn [open_all]. rewrite (bind_ok _ _ _ _ _ Hopen), IH.
    + destruct s. unfold set_ports, set_calls. simpl.
      rewrite length_app, <- !app_assoc. simpl.
      by rewrite Nat.add_1_r.
    + by destruct s, d.
Qed.

(** A name the host does not offer stops the loop: the names before it
    were opened, the names after it are not tried. *)
Lemma open_all_fails d pre n post acc s :
  Forall (λ x, x ∈ host_names d s) pre →
  n ∉ host_names d s →
  open_all (mido_open d) (pre ++ n :: post) acc s
  = (Raise (OSError "unknown port"),
     set_ports (λ ps, ps ++ map (λ x, mkPort x d false []) pre)
       (set_calls (λ l, l ++ map (open_call d) (pre ++ [n])) s)).
Proof.
  revert acc s. induction pre as [|x pre IH]; intros acc s Hall Hn.
  - destruct s, d; unfold mido_open; simpl; mrun; simpl in Hn;
      rewrite bool_decide_eq_false_2 by done;
      unfold set_ports, set_calls; simpl; by rewrite app_nil_r.
  - apply Forall_cons in Hall as [Hx Hall].
    assert (mido_open d x s
            = (Ok (length (ports s)),
               set_ports (λ ps, ps ++ [mkPort x d false []])
                 (set_calls (λ l, l ++ [open_call d x]) s))) as Hopen.
    { destruct s, d; unfold mido_open; mrun; simpl in Hx;
        by rewrite bool_decide_eq_true_2. }
    cbn [open_all app]. rewrite (bind_ok _ _ _ _ _ Hopen), IH.
    + destruct s. unfold set_ports, set_calls. simpl.
      by rewrite <- !app_assoc.
    + by destruct s, d.
    + by destruct s, d.
Qed.

(** ** midi_io.py: open_inputs and open_outputs *)

Lemma open_inputs_ok names s :
  Forall (λ n, n ∈ host_inputs s) names →
  open_inputs names s
  = (Ok tt,
     set_io (λ o, mkMidiIO (seq (length (ports s)) (length names))
                    (output_ports o)
                    (match names with
                     | [] => None
                     | _ :: _ => Some (seq (length (ports s)) (length names))
                     end))
       (set_ports (λ ps, close_ports (broken s) (input_ports (io s)) ps
                         ++ map (λ n, mkPort n Input false []) names)
          (set_calls (λ l, l ++ map CClose (input_ports (io s))
                             ++ map COpenInput names) s))).
Proof.
  intros Hall. unfold open_inputs.
  rewrite (bind_ok _ _ _ _ _ (close_inputs_run s)).
  unfold mido_open_input. erewrite bind_ok; cycle 1.
  { apply open_all_ok. by destruct s. }
  destruct s, names; msimpl; cbn [app length seq]; msimpl;
    rewrite ?close_ports_length, <- ?app_assoc; reflexivity.
Qed.

Lemma open_outputs_ok names s :
  Forall (λ n, n ∈ host_outputs s) names →
  open_outputs names s
  = (Ok tt,
     set_io (λ o, mkMidiIO (input_ports o)
                    (seq (length (ports s)) (length names)) (multi_in o))
       (set_ports (λ ps, close_ports (broken s) (output_ports (io s)) ps
                         ++ map (λ n, mkPort n Output false []) names)
          (set_calls (λ l, l ++ map CClose (output_ports (io s))
                             ++ map COpenOutput names) s))).
Proof.
  intros Hall. unfold open_outputs.
  rewrite (bind_ok _ _ _ _ _ (close_outputs_run s)).
  unfold mido_open_output. erewrite bind_ok; cycle 1.
  { apply open_all_ok. by destruct s. }
  destruct s; msimpl; cbn [app]; msimpl;
    rewrite ?close_ports_length, <- ?app_assoc; reflexivity.
Qed.

(** What [read_events] relies on holds after [open_inputs]: the
    multiplexed handle is built from the inputs held, which are distinct
    handles of the port table. *)
Lemma open_inputs_establishes names s :
  names ≠ [] →
  Forall (λ n, n ∈ host_inputs s) names →
  ∃ s', open_inputs names s = (Ok tt, s') ∧
        input_ports (io s') ≠ [] ∧
        multi_in (io s') = Some (input_ports (io s')) ∧
        NoDup (input_ports (io s')) ∧
        ∀ h, h ∈ input_ports (io s') → h < length (ports s').
Proof.
  intros Hne Hall. eexists. split; [by apply open_inputs_ok|].
  destruct s, names as [|n names]; [done|]. sys_simpl.
  split; [done|]. split; [done|]. split; [apply NoDup_seq|].
  intros h Hh%elem_of_seq.
  rewrite length_app, close_ports_length, length_map. lia.
Qed.

(** C5 (amended): for every list of names passed to [open_inputs], the
    first name that fails to open ends the call: the exception reaches
    the caller, the names after it are not tried, and the object records
    no open input. *)
Theorem open_inputs_stops_at_failure pre n post s :
  Forall (λ x, x ∈ host_inputs s) pre →
  n ∉ host_inputs s →
  ∃ s', open_inputs (pre ++ n :: post) s = (Raise (OSError "unknown port"), s') ∧
        calls s' = calls s ++ map CClose (input_ports (io s))
                     ++ map COpenInput (pre ++ [n]) ∧
        input_ports (io s') = [] ∧
        multi_in (io s') = None.
Proof.
  intros Hall Hn. unfold open_inputs.
  rewrite (bind_ok _ _ _ _ _ (close_inputs_run s)).
  unfold mido_open_input. erewrite bind_raise; cycle 1.
  { apply open_all_fails; by destruct s. }
  eexists. split; [reflexivity|].
  destruct s. simpl. by rewrite <- app_assoc.
Qed.

(** Replacing the ports of one direction keeps the handles in order. *)
Lemma tidy_replace d names s s' :
  tidy s →
  ports s' = close_ports [] (recorded s d) (ports s)
             ++ map (λ n, mkPort n d false []) names →
  recorded s' d = seq (length (ports s)) (length names) →
  (∀ d', d' ≠ d → recorded s' d' = recorded s d') →
  tidy s'.
Proof.
  intros [T1 T2] Hports Hrec Hother.
  assert (∀ h, h < length (ports s) →
               ports s' !! h = close_ports [] (recorded s d) (ports s) !! h)
    as Hlow.
  { intros h Hh. rewrite Hports, lookup_app_l; [done|].
    by rewrite close_ports_length. }
  assert (∀ h p, (length (ports s) ≤ h)%nat → ports s' !! h = Some p →
                 dir p = d ∧ closed p = false ∧
                 h < length (ports s) + length names) as Hhigh.
  { intros h p Hh. rewrite Hports, lookup_app_r;
      rewrite close_ports_length; [|done].
    rewrite list_lookup_fmap. intros Hp.
    destruct (names !! _) as [n|] eqn:Hn; [|done].
    apply lookup_lt_Some in Hn. inversion Hp; subst. simpl.
    repeat split; [done..|lia]. }
  split.
  - intros h p Hp Hopen.
    destruct (decide (h < length (ports s))) as [Hh|Hh].
    + rewrite Hlow, close_ports_lookup in Hp by done.
      case_bool_decide as Hin.
      { destruct (ports s !! h); inversion Hp; subst; done. }
      pose proof (T1 _ _ Hp Hopen) as Hr.
      destruct (decide (dir p = d)) as [<-|Hd]; [done|].
      by rewrite Hother.
    + destruct (Hhigh h p) as (<- & _ & Hlt); [lia|done|].
      rewrite Hrec. apply elem_of_seq. lia.
  - intros d' h Hh.
    destruct (decide (d' = d)) as [->|Hd].
    + rewrite Hrec in Hh. apply elem_of_seq in Hh as [Hge Hlt].
      rewrite Hports, lookup_app_r; rewrite close_ports_length; [|done].
      rewrite list_lookup_fmap.
      destruct (names !! (h - length (ports s))) as [n|] eqn:Hn.
      * eexists. split; [reflexivity|done].
      * apply lookup_ge_None in Hn. lia.
    + rewrite Hother in Hh by done.
      destruct (T2 _ _ Hh) as (p & Hp & Hdir & Hopen).
      exists p. split; [|done].
      rewrite Hlow, close_ports_lookup by (by eapply lookup_lt_Some).
      rewrite bool_decide_eq_false_2; [done|].
      intros Hin. destruct (T2 _ _ Hin) as (p' & Hp' & Hdir' & _).
      congruence.
Qed.

Lemma name_at_close_ports bad hs : ∀ ps h,
  name_at (close_ports bad hs ps) h = name_at ps h.
Proof.
  unfold close_ports, name_at.
  induction hs as [|x hs IH]; intros ps h; simpl; [done|].
  rewrite IH. unfold close_at.
  destruct (ps !! x) as [p|] eqn:Hx; [|done].
  case_bool_decide; [done|].
  destruct (decide (x = h)) as [<-|Hne].
  - rewrite list_lookup_insert_eq by (by eapply lookup_lt_Some).
    by rewrite Hx.
  - by rewrite list_lookup_insert_ne.
Qed.

(** The names of the fresh ports are the names asked for. *)
Lemma names_of_fresh d (names : list string) (ps : list Port) :
  map (name_at (ps ++ map (λ n, mkPort n d false []) names))
      (seq (length ps) (length names))
  = map Some names.
Proof.
  revert ps. induction names as [|n names IH]; intros ps; [done|].
  simpl. f_equal.
  - unfold name_at. rewrite lookup_app_r, Nat.sub_diag by done. done.
  - specialize (IH (ps ++ [mkPort n d false []])).
    rewrite length_app, Nat.add_1_r, <- app_assoc in IH. done.
Qed.

(** One call from a state without leaked handles. *)
Lemma serve_step r s :
  tidy s → broken s = [] → servable s r →
  ∃ s', serve r s = (Ok tt, s') ∧ tidy s' ∧ broken s' = [] ∧
        host_inputs s' = host_inputs s ∧ host_outputs s' = host_outputs s ∧
        (length (ports s) ≤ length (ports s'))%nat ∧
        (∀ h, name_at (ports s) h ≠ None →
              name_at (ports s') h = name_at (ports s) h) ∧
        map (name_at (ports s')) (recorded s' (req_dir r))
          = map Some (req_names r) ∧
        (∀ d, d ≠ req_dir r → recorded s' d = recorded s d).
Proof.
  intros Ht Hb Hs.
  assert (∀ names d s',
    ports s' = close_ports [] (recorded s d) (ports s)
               ++ map (λ n, mkPort n d false []) names →
    (length (ports s) ≤ length (ports s'))%nat ∧
    (∀ h, name_at (ports s) h ≠ None →
          name_at (ports s') h = name_at (ports s) h) ∧
    map (name_at (ports s')) (seq (length (ports s)) (length names))
      = map Some names) as Hports.
  { intros names d s' ->. split; [|split].
    - rewrite length_app, close_ports_length. lia.
    - intros h Hh. unfold name_at at 1.
      rewrite lookup_app_l.
      + apply name_at_close_ports.
      + rewrite close_ports_length. unfold name_at in Hh.
        destruct (ports s !! h) eqn:E; [|done]. by eapply lookup_lt_Some.
    - rewrite <- (close_ports_length [] (recorded s d) (ports s)).
      apply names_of_fresh. }
  destruct r as [names|names]; unfold servable in Hs; simpl in Hs.
  - eexists. split; [by apply open_inputs_ok|].
    destruct (Hports names Input
      (set_io (λ o, mkMidiIO (seq (length (ports s)) (length names))
                      (output_ports o)
                      (match names with
                       | [] => None
                       | _ :: _ => Some (seq (length (ports s)) (length names))
                       end))
         (set_ports (λ ps, close_ports (broken s) (input_ports (io s)) ps
                           ++ map (λ n, mkPort n Input false []) names)
            (set_calls (λ l, l ++ map CClose (input_ports (io s))
                               ++ map COpenInput names) s))))
      as (H1 & H2 & H3); [by rewrite Hb|].
    split; [|repeat split; try done].
    + eapply (tidy_replace Input names); [done|by rewrite Hb|done|].
      by intros [].
    + by intros [].
  - eexists. split; [by apply open_outputs_ok|].
    destruct (Hports names Output
      (set_io (λ o, mkMidiIO (input_ports o)
                      (seq (length (ports s)) (length names)) (multi_in o))
         (set_ports (λ ps, close_ports (broken s) (output_ports (io s)) ps
                           ++ map (λ n, mkPort n Output false []) names)
            (set_calls (λ l, l ++ map CClose (output_ports (io s))
                               ++ map COpenOutput names) s))))
      as (H1 & H2 & H3); [by rewrite Hb|].
    split; [|repeat split; try done].
    + eapply (tidy_replace Output names); [done|by rewrite Hb|done|].
      by intros [].
    + by intros [].
Qed.

Lemma serve_all_spec rs : ∀ s,
  tidy s → broken s = [] → Forall (servable s) rs →
  ∃ s', for_each rs serve s = (Ok tt, s') ∧ tidy s' ∧
        (∀ h, name_at (ports s) h ≠ None →
              name_at (ports s') h = name_at (ports s) h) ∧
        ∀ d, match last_names d rs with
             | Some names =>
                 map (name_at (ports s')) (recorded s' d) = map Some names
             | None => recorded s' d = recorded s d
             end.
Proof.
  induction rs as [|r rs IH]; intros s Ht Hb Hall.
  - exists s. split; [done|]. split; [done|]. split; done.
  - apply Forall_cons in Hall as [Hr Hall].
    destruct (serve_step r s Ht Hb Hr)
      as (s1 & E1 & Ht1 & Hb1 & Hi & Ho & Hlen & Hname & Hrec & Hoth).
    destruct (IH s1 Ht1 Hb1) as (s' & E & Ht' & Hname' & Hlast).
    { eapply Forall_impl; [exact Hall|]. intros x Hx. unfold servable in *.
      eapply Forall_impl; [exact Hx|]. intros n.
      by destruct (req_dir x); simpl; rewrite ?Hi, ?Ho. }
    exists s'. split; [|split; [done|split]].
    + cbn [for_each]. by rewrite (bind_ok _ _ _ _ _ E1).
    + intros h Hh. rewrite <- (Hname h Hh). apply Hname'.
      by rewrite (Hname h Hh).
    + intros d. specialize (Hlast d). cbn [last_names].
      destruct (last_names d rs) as [names|]; [done|].
      rewrite Hlast. case_decide as Hd.
      * subst d. rewrite <- Hrec. apply map_ext_in. intros h Hin.
        apply Hname'. apply list_elem_of_In in Hin.
        destruct Ht1 as [_ T2].
        destruct (T2 _ _ Hin) as (p & Hp & _). unfold name_at. by rewrite Hp.
      * by apply Hoth.
Qed.

(** C7 (amended): for every sequence of calls to [open_inputs] and
    [open_outputs] in which every requested port opens, started without
    leaked handles and with no failing driver, no handle leaks:
    afterwards a port is open exactly when the object holds it in the
    list of its direction, and the ports held for a direction are those
    of the most recent list requested for it. *)
Theorem open_calls_replace rs s :
  tidy s → broken s = [] → Forall (servable s) rs →
  ∃ s', for_each rs serve s = (Ok tt, s') ∧ tidy s' ∧
        ∀ d, match last_names d rs with
             | Some names =>
                 map (name_at (ports s')) (recorded s' d) = map Some names
             | None => recorded s' d = recorded s d
             end.
Proof.
  intros Ht Hb Hall.
  destruct (serve_all_spec rs s Ht Hb Hall) as (s' & E & Ht' & _ & Hlast).
  eauto.
Qed.

Lemma tidy_boot : tidy boot.
Proof.
  split.
  - intros h p Hp. simpl in Hp. by rewrite lookup_nil in Hp.
  - intros [] h Hh; by apply elem_of_nil in Hh.
Qed.

Lemma open_inputs_stops_at_failure_witness :
  ∃ s', open_inputs (["A"] ++ "X" :: ["B"]) boot
          = (Raise (OSError "unknown port"), s') ∧
        calls s' = calls boot ++ map CClose (input_ports (io boot))
                     ++ map COpenInput (["A"] ++ ["X"]) ∧
        input_ports (io s') = [] ∧
        multi_in (io s') = None.
Proof.
  apply (open_inputs_stops_at_failure ["A"] "X" ["B"] boot).
  - run_decide.
  - run_decide.
Defined.

(** C5, as stated, fails: "X" cannot be opened, "B" could be but is
    never tried, and "A", which did open, is not recorded. *)
Lemma open_inputs_gives_up :
  (open_inputs ["A"; "X"; "B"] boot).1 = Raise (OSError "unknown port") ∧
  calls (open_inputs ["A"; "X"; "B"] boot).2 = [COpenInput "A"; COpenInput "X"] ∧
  input_ports (io (open_inputs ["A"; "X"; "B"] boot).2) = [] ∧
  name_at (ports (open_inputs ["A"; "X"; "B"] boot).2) 0 = Some "A" ∧
  is_open (ports (open_inputs ["A"; "X"; "B"] boot).2) 0 = true.
Proof. repeat split; vm_compute; reflexivity. Qed.

Lemma open_calls_replace_witness :
  ∃ s', for_each [OpenInputs ["A"; "B"]; OpenOutputs ["O"]; OpenInputs ["B"]]
          serve boot = (Ok tt, s') ∧ tidy s' ∧
        ∀ d, match last_names d
                     [OpenInputs ["A"; "B"]; OpenOutputs ["O"]; OpenInputs ["B"]]
             with
             | Some names =>
                 map (name_at (ports s')) (recorded s' d) = map Some names
             | None => recorded s' d = recorded boot d
             end.
Proof.
  apply (open_calls_replace
           [OpenInputs ["A"; "B"]; OpenOutputs ["O"]; OpenInputs ["B"]] boot).
  - exact tidy_boot.
  - reflexivity.
  - repeat (apply Forall_cons; split); try apply Forall_nil; run_decide.
Defined.

(** C7, as stated, fails: after a call that raised, the port it had
    opened stays open in the host and is not recorded, and the next call
    does not close it. *)
Lemma open_inputs_leaks_after_failure :
  (open_inputs ["A"; "X"] boot).1 = Raise (OSError "unknown port") ∧
  (open_inputs ["B"] (open_inputs ["A"; "X"] boot).2).1 = Ok tt ∧
  input_ports (io (open_inputs ["B"] (open_inputs ["A"; "X"] boot).2).2) = [1] ∧
  name_at (ports (open_inputs ["B"] (open_inputs ["A"; "X"] boot).2).2) 0
    = Some "A" ∧
  is_open (ports (open_inputs ["B"] (open_inputs ["A"; "X"] boot).2).2) 0 = true.
Proof. repeat split; vm_compute; reflexivity. Qed.

(** ** midi_io.py: read_events *)

Lemma drain_at_length ps h : length (drain_at ps h) = length ps.
Proof. unfold drain_at. case_match; by rewrite ?length_insert. Qed.

Lemma queue_at_drain_eq ps h : queue_at (drain_at ps h) h = [].
Proof.
  unfold queue_at, drain_at. destruct (ps !! h) as [p|] eqn:Hh.
  - rewrite list_lookup_insert_eq; [done|by eapply lookup_lt_Some].
  - by rewrite Hh.
Qed.

Lemma queue_at_drain_ne ps h k : h ≠ k → queue_at (drain_at ps h) k = queue_at ps k.
Proof.
  intros Hne. unfold queue_at, drain_at. destruct (ps !! h) as [p|]; [|done].
  by rewrite list_lookup_insert_ne.
Qed.

Lemma pending_on_drain_notin ps h hs :
  h ∉ hs → pending_on (drain_at ps h) hs = pending_on ps hs.
Proof.
  intros Hh. unfold pending_on. f_equal. apply map_ext_in.
  intros k Hk%list_elem_of_In. apply queue_at_drain_ne. by intros <-.
Qed.

Lemma iter_pending_run h p s :
  ports s !! h = Some p →
  iter_pending h s = (Ok (queue p), set_ports (λ ps, drain_at ps h) s).
Proof.
  intros Hp. destruct s. unfold iter_pending, drain_at, set_ports. mrun.
  simpl in Hp. by rewrite Hp.
Qed.

Lemma time_time_run s : time_time s = (Ok (clock s), set_clock S s).
Proof. by destruct s. Qed.

Lemma stamp_run pn msgs : ∀ events s,
  stamp pn msgs events s
  = (Ok (events ++ stamped (clock s) pn msgs),
     set_clock (λ c, length msgs + c) s).
Proof.
  induction msgs as [|m msgs IH]; intros events s.
  - destruct s. simpl. unfold mret, M_ret. by rewrite app_nil_r.
  - cbn [stamp stamped]. unfold time_time.
    rewrite (bind_ok _ _ _ (clock s) (set_clock S s)) by (by destruct s).
    rewrite IH. destruct s. unfold set_clock. simpl.
    by rewrite <- app_assoc, Nat.add_succ_r.
Qed.

Lemma stamped_message t pn msgs : map message (stamped t pn msgs) = msgs.
Proof. revert t. induction msgs; intros t; simpl; [done|by f_equal]. Qed.

Lemma stamped_port_name t pn msgs :
  Forall (λ e, port_name e = pn) (stamped t pn msgs).
Proof. revert t. induction msgs; intros t; simpl; constructor; auto. Qed.

(** Draining the ports [ins]: every message pending on them is
    returned, port by port, each with the name of its port, and their
    queues are left empty. *)
Lemma collect_pending_run ins : ∀ events s,
  NoDup ins →
  (∀ h, h ∈ ins → h < length (ports s)) →
  ∃ evs,
    collect_pending ins events s
    = (Ok (events ++ evs),
       set_clock (λ c, length evs + c) (set_ports (drain_ports ins) s)) ∧
    map message evs = pending_on (ports s) ins ∧
    Forall (λ e, ∃ h, h ∈ ins ∧ port_name e = name_at (ports s) h) evs.
Proof.
  induction ins as [|h ins IH]; intros events s Hnd Hval.
  - exists []. destruct s. simpl. unfold mret, M_ret. by rewrite app_nil_r.
  - apply NoDup_cons in Hnd as [Hh Hnd].
    destruct (lookup_lt_is_Some_2 (ports s) h) as [p Hp].
    { apply Hval. by left. }
    destruct (IH (events ++ stamped (clock s) (Some (name p)) (queue p))
                 (set_clock (λ c, length (queue p) + c)
                    (set_ports (λ ps, drain_at ps h) s)) Hnd)
      as (evs & E & Hmsg & Hnames).
    { intros k Hk. destruct s. simpl. rewrite drain_at_length.
      apply Hval. by right. }
    exists (stamped (clock s) (Some (name p)) (queue p) ++ evs).
    split; [|split].
    + assert (port_getattr_name h (set_ports (λ ps, drain_at ps h) s)
              = (Ok (Some (name p)), set_ports (λ ps, drain_at ps h) s))
        as Hname.
      { unfold port_getattr_name. destruct s. msimpl. simpl in Hp.
        unfold drain_at. rewrite Hp.
        rewrite list_lookup_insert_eq; [done|by eapply lookup_lt_Some]. }
      cbn [collect_pending].
      rewrite (bind_ok _ _ _ _ _ (iter_pending_run h p s Hp)).
      rewrite (bind_ok _ _ _ _ _ Hname).
      rewrite (bind_ok _ _ _ _ _ (stamp_run _ _ _ _)).
      replace (clock (set_ports (λ ps, drain_at ps h) s)) with (clock s)
        by (by destruct s).
      rewrite E.
      assert (length (stamped (clock s) (Some (name p)) (queue p))
              = length (queue p)) as Hlen.
      { by rewrite <- (length_map message), stamped_message. }
      destruct s. sys_simpl. rewrite <- app_assoc, length_app.
      cbn [clock] in Hlen. rewrite Hlen.
      f_equal; f_equal; first [reflexivity|lia].
    + rewrite map_app, stamped_message, Hmsg.
      replace (ports (set_clock _ (set_ports _ s))) with (drain_at (ports s) h)
        by (by destruct s).
      rewrite pending_on_drain_notin by done.
      unfold pending_on. simpl. unfold queue_at at 2. by rewrite Hp.
    + apply Forall_app. split.
      * eapply Forall_impl; [apply stamped_port_name|].
        intros e ->. exists h. split; [by left|].
        unfold name_at. by rewrite Hp.
      * eapply Forall_impl; [exact Hnames|].
        intros e (k & Hk & ->). exists k. split; [by right|].
        replace (ports (set_clock _ (set_ports _ s))) with (drain_at (ports s) h)
          by (by destruct s).
        unfold name_at, drain_at. rewrite Hp.
        destruct (decide (h = k)) as [<-|Hne].
        -- rewrite list_lookup_insert_eq; [by rewrite Hp|by eapply lookup_lt_Some].
        -- by rewrite list_lookup_insert_ne.
Qed.

Lemma drain_keeps_empty ins : ∀ ps h,
  queue_at ps h = [] → queue_at (fold_left drain_at ins ps) h = [].
Proof.
  induction ins as [|x ins IH]; intros ps h Hq; [done|].
  simpl. apply IH. destruct (decide (x = h)) as [->|Hne].
  - apply queue_at_drain_eq.
  - by rewrite queue_at_drain_ne.
Qed.

Lemma drain_ports_empty ins : ∀ ps h,
  h ∈ ins → queue_at (drain_ports ins ps) h = [].
Proof.
  unfold drain_ports.
  induction ins as [|x ins IH]; intros ps h Hh; [by apply elem_of_nil in Hh|].
  simpl. apply elem_of_cons in Hh as [->|Hh]; [|by apply IH].
  apply drain_keeps_empty, queue_at_drain_eq.
Qed.

Lemma deliver_one_length ps hm : length (deliver_one ps hm) = length ps.
Proof. unfold deliver_one. repeat case_match; by rewrite ?length_insert. Qed.

Lemma deliver_length b : ∀ ps, length (deliver b ps) = length ps.
Proof.
  unfold deliver. induction b as [|hm b IH]; intros ps; simpl; [done|].
  by rewrite IH, deliver_one_length.
Qed.

(** The blocking [receive] never returns. *)
Lemma multi_receive_run hs s :
  multi_receive hs s = (Halt Blocked, blocked_in hs s).
Proof. by destruct s. Qed.

(** With an input held and the multiplexed handle in place, the blocking
    read is the call of [receive], and stays in it. *)
Lemma read_events_blocking_halts s hs :
  input_ports (io s) ≠ [] →
  multi_in (io s) = Some hs →
  read_events false s = (Halt Blocked, blocked_in hs s).
Proof.
  intros Hne Hm. unfold read_events.
  rewrite (bind_ok _ _ _ (input_ports (io s)) s) by done.
  destruct (input_ports (io s)) as [|i0 ins]; [done|].
  rewrite (bind_ok _ _ _ (multi_in (io s)) s) by done. rewrite Hm.
  by rewrite (bind_halt _ _ _ _ _ (multi_receive_run hs s)).
Qed.

(** C4, with the inputs "A" and "B" open: whether the burst arrives
    during the wait or is pending already when [read_events] is called
    in blocking mode, the call never returns, and the messages of the
    burst are taken off the inputs all the same, so that nothing is left
    for a later read. *)
Theorem read_events_blocking_never_returns :
  (read_events false with_burst).1 = Halt Blocked ∧
  incoming (read_events false with_burst).2 = [] ∧
  pending_on (ports (read_events false with_burst).2)
    (input_ports (io with_burst)) = [] ∧
  pending_on (ports with_pending) (input_ports (io with_pending))
    = [note_on; note_off] ∧
  (read_events false with_pending).1 = Halt Blocked ∧
  pending_on (ports (read_events false with_pending).2)
    (input_ports (io with_pending)) = [].
Proof. repeat split; vm_compute; reflexivity. Qed.

(** C10: [read_events] in blocking mode, with no input open or without
    the multiplexed handle, returns the empty list at once and changes
    nothing. *)
Theorem read_events_blocking_nothing_open s :
  input_ports (io s) = [] ∨ multi_in (io s) = None →
  read_events false s = (Ok [], s).
Proof.
  intros Hnone. unfold read_events. mrun.
  destruct (input_ports (io s)) as [|i0 ins]; [done|].
  destruct Hnone as [?| ->]; done.
Qed.

Lemma read_events_blocking_nothing_open_witness :
  (input_ports (io boot) = [] ∨ multi_in (io boot) = None) ∧
  read_events false boot = (Ok [], boot).
Proof.
  split; [left; reflexivity|].
  apply (read_events_blocking_nothing_open boot). left. reflexivity.
Defined.

(** C8, in the end-to-end scenario: the first read of the loop never
    returns.  Both messages arrive and are taken off "A" and "B", but no
    event reaches the observer and the output "O" receives nothing: the
    only call the loop makes is the [receive] it stays in. *)
Theorem end_to_end_nothing_forwarded :
  (_run 2 (Some on_event) [] end_to_end).1 = Halt Blocked ∧
  calls (_run 2 (Some on_event) [] end_to_end).2
    = calls end_to_end ++ [CReceive] ∧
  incoming (_run 2 (Some on_event) [] end_to_end).2 = [] ∧
  queue_at (ports (_run 2 (Some on_event) [] end_to_end).2) 0 = [] ∧
  queue_at (ports (_run 2 (Some on_event) [] end_to_end).2) 1 = [] ∧
  queue_at (ports (_run 2 (Some on_event) [] end_to_end).2) 2 = [] ∧
  name_at (ports end_to_end) 0 = Some "A" ∧
  name_at (ports end_to_end) 1 = Some "B" ∧
  name_at (ports end_to_end) 2 = Some "O".
Proof. repeat split; vm_compute; reflexivity. Qed.

(** ** engine.py: the loop *)

Lemma try_send o m s :
  try_pass (port_send o m) s
  = (Ok tt, set_ports (λ ps, send_at (broken s) m ps o)
              (set_calls (λ l, l ++ [CSend o m]) s)).
Proof.
  destruct s. unfold port_send, send_at, set_ports, set_calls. mrun.
  destruct (_ !! o) as [p|]; simpl; [|done].
  destruct (closed p); simpl; [done|].
  by destruct (bool_decide _).
Qed.

Lemma send_each m os : ∀ s,
  for_each os (λ o, try_pass (port_send o m)) s
  = (Ok tt, set_ports (send_ports (broken s) m os)
              (set_calls (λ l, l ++ map (λ o, CSend o m) os) s)).
Proof.
  induction os as [|o os IH]; intros s.
  - destruct s. simpl. unfold mret, M_ret, set_ports, set_calls. simpl.
    by rewrite app_nil_r.
  - cbn [for_each]. rewrite (bind_ok _ _ _ _ _ (try_send o m s)), IH.
    destruct s. unfold set_ports, set_calls. simpl.
    by rewrite <- app_assoc.
Qed.

Lemma send_event_run e s : send_event e s = (Ok tt, send_state e s).
Proof.
  unfold send_event.
  rewrite (bind_ok _ _ _ (output_ports (io s)) s) by done.
  apply send_each.
Qed.

Lemma forward_run {Obs} (cb : option (Callback Obs)) e q s :
  forward cb e q s = (Ok (observe cb q e), send_state e s).
Proof.
  unfold forward, observe, guarded_callback.
  assert (try_pass (send_event e) s = (Ok tt, send_state e s)) as Hsend.
  { unfold try_pass, try_except. by rewrite send_event_run. }
  destruct cb as [f|].
  - destruct (f e q) as [[ex|] q']; simpl;
      erewrite (bind_ok _ _ _ q' s) by done;
      by rewrite (bind_ok _ _ _ _ _ Hsend).
  - erewrite (bind_ok _ _ _ q s) by done.
    by rewrite (bind_ok _ _ _ _ _ Hsend).
Qed.

Lemma forward_all_run {Obs} (cb : option (Callback Obs)) evs : ∀ q s,
  forward_all cb evs q s = (Ok (fold_left (observe cb) evs q), send_all evs s).
Proof.
  induction evs as [|e evs IH]; intros q s; [done|].
  cbn [forward_all]. by rewrite (bind_ok _ _ _ _ _ (forward_run cb e q s)), IH.
Qed.

(** One round of the loop: what was read is forwarded, and the loop
    goes on. *)
Lemma _run_round {Obs} (cb : option (Callback Obs)) n q s evs s1 :
  _running (eng s) = true →
  read_events false s = (Ok evs, s1) →
  _run (S n) cb q s = _run n cb (fold_left (observe cb) evs q) (send_all evs s1).
Proof.
  intros Hrun Hread. cbn [_run].
  rewrite (bind_ok _ _ _ (_running (eng s)) s) by done. rewrite Hrun.
  rewrite (bind_ok _ _ _ _ _ Hread).
  by rewrite (bind_ok _ _ _ _ _ (forward_all_run cb evs q s1)).
Qed.

Lemma send_all_each evs : ∀ s,
  for_each evs (λ e, try_pass (send_event e)) s = (Ok tt, send_all evs s).
Proof.
  induction evs as [|e evs IH]; intros s; [done|].
  cbn [for_each]. erewrite bind_ok; [apply IH|].
  unfold try_pass, try_except. by rewrite send_event_run.
Qed.

Lemma send_all_frame evs : ∀ s,
  io (send_all evs s) = io s ∧ broken (send_all evs s) = broken s ∧
  calls (send_all evs s)
    = calls s ++ flat_map (sends_of (output_ports (io s))) evs.
Proof.
  unfold send_all.
  induction evs as [|e evs IH]; intros s; simpl.
  - by rewrite app_nil_r.
  - destruct (IH (send_state e s)) as (-> & -> & ->).
    destruct s. simpl. by rewrite <- app_assoc.
Qed.

Lemma send_at_other bad m ps o k : o ≠ k → send_at bad m ps o !! k = ps !! k.
Proof.
  intros Hne. unfold send_at. repeat case_match; try done.
  by rewrite list_lookup_insert_ne.
Qed.

Lemma send_ports_other bad m os : ∀ ps k,
  k ∉ os → send_ports bad m os ps !! k = ps !! k.
Proof.
  unfold send_ports.
  induction os as [|o os IH]; intros ps k Hk; [done|].
  apply not_elem_of_cons in Hk as [Hne Hk]. simpl.
  rewrite IH by done. by apply send_at_other.
Qed.

(** A healthy open output that is held once receives the message. *)
Lemma send_ports_healthy bad m os : ∀ ps o p,
  NoDup os → o ∈ os → ps !! o = Some p →
  closed p = false → name p ∉ bad →
  send_ports bad m os ps !! o
  = Some (mkPort (name p) (dir p) false (queue p ++ [m])).
Proof.
  unfold send_ports.
  induction os as [|x os IH]; intros ps o p Hnd Ho Hp Hopen Hbad;
    [by apply elem_of_nil in Ho|].
  apply NoDup_cons in Hnd as [Hx Hnd]. simpl.
  destruct (decide (x = o)) as [->|Hne].
  - fold (send_ports bad m os (send_at bad m ps o)).
    rewrite send_ports_other by done.
    unfold send_at. rewrite Hp, Hopen, bool_decide_eq_false_2 by done.
    rewrite list_lookup_insert_eq; [done|by eapply lookup_lt_Some].
  - apply elem_of_cons in Ho as [->|Ho]; [done|].
    apply IH; try done. by rewrite send_at_other.
Qed.

Lemma send_all_healthy evs : ∀ s o p,
  NoDup (output_ports (io s)) → o ∈ output_ports (io s) →
  ports s !! o = Some p → closed p = false → name p ∉ broken s →
  ports (send_all evs s) !! o
  = Some (mkPort (name p) (dir p) false (queue p ++ map message evs)).
Proof.
  unfold send_all.
  induction evs as [|e evs IH]; intros s o p Hnd Ho Hp Hopen Hbad; simpl.
  - rewrite app_nil_r, Hp. destruct p. simpl in *. by subst.
  - rewrite (IH (send_state e s) o
               (mkPort (name p) (dir p) false (queue p ++ [message e]))).
    + cbn [name dir queue]. by rewrite <- app_assoc.
    + by destruct s.
    + by destruct s.
    + replace (ports (send_state e s))
        with (send_ports (broken s) (message e) (output_ports (io s)) (ports s))
        by (by destruct s).
      by apply send_ports_healthy.
    + done.
    + by destruct s.
Qed.

(** C3: for every batch of events, whatever the observer does, and also
    when it raises on every call, the loop does not stop: the state it
    leaves is the one that calling [send_event] on each event in arrival
    order leaves, the [send] calls are those of the events in order on
    every output held, and every healthy open output has received the
    batch in order. *)
Theorem engine_forwards_despite_observer {Obs} (cb : option (Callback Obs))
    evs q s :
  ∃ q' s',
    forward_all cb evs q s = (Ok q', s') ∧
    for_each evs (λ e, try_pass (send_event e)) s = (Ok tt, s') ∧
    calls s' = calls s ++ flat_map (sends_of (output_ports (io s))) evs ∧
    ∀ o p, NoDup (output_ports (io s)) → o ∈ output_ports (io s) →
           ports s !! o = Some p → closed p = false → name p ∉ broken s →
           queue_at (ports s') o = queue p ++ map message evs.
Proof.
  exists (fold_left (observe cb) evs q), (send_all evs s).
  split; [apply forward_all_run|]. split; [apply send_all_each|].
  split; [apply send_all_frame|].
  intros o p Hnd Ho Hp Hopen Hbad. unfold queue_at.
  by erewrite send_all_healthy.
Qed.

(** With the observer that always raises, the output of the sample
    still receives both events, in order. *)
Lemma engine_forwards_despite_observer_witness :
  ∃ q' s',
    forward_all (Some failing_observer)
      [mkMidiEvent 0 note_on None; mkMidiEvent 1 note_off (Some "B")] tt patched
      = (Ok q', s') ∧
    queue_at (ports s') 2 = [note_on; note_off].
Proof.
  destruct (engine_forwards_despite_observer (Some failing_observer)
              [mkMidiEvent 0 note_on None; mkMidiEvent 1 note_off (Some "B")]
              tt patched) as (q' & s' & E & _ & _ & Hq).
  exists q', s'. split; [exact E|].
  apply (Hq 2 (mkPort "O" Output false [])).
  - run_decide.
  - run_decide.
  - vm_compute. reflexivity.
  - reflexivity.
  - run_decide.
Defined.

(** ** main.py: the end of the program *)

Section extends.

Lemma extends_ret {A} (a : A) : extends (mret a).
Proof. intros s r s' E. inversion E. exists []. by rewrite app_nil_r. Qed.

Lemma extends_raise {A} e : extends (@raise A e).
Proof. intros s r s' E. inversion E. exists []. by rewrite app_nil_r. Qed.

Lemma extends_gets {A} (f : Sys → A) : extends (gets f).
Proof. intros s r s' E. inversion E. exists []. by rewrite app_nil_r. Qed.

Lemma extends_log c : extends (log c).
Proof. intros s r s' E. inversion E. by exists [c]. Qed.

Lemma extends_tick : extends tick.
Proof.
  intros s r s' E. unfold tick in E. exists [].
  destruct (crash_in s) as [[|n]|]; inversion E; by rewrite app_nil_r.
Qed.

Lemma extends_set_fs f : extends (modify (set_fs f)).
Proof. intros s r s' E. inversion E. exists []. simpl. by rewrite app_nil_r. Qed.

Lemma extends_bind {A B} (m : M A) (f : A → M B) :
  extends m → (∀ a, extends (f a)) → extends (m ≫= f).
Proof.
  intros Hm Hf s r s' E.
  destruct (bind_inv _ _ _ _ _ E) as [(a & s1 & E1 & E2)|[(e & E1 & _)|(h & E1 & _)]].
  - destruct (Hm _ _ _ E1) as [m1 H1]. destruct (Hf _ _ _ _ E2) as [m2 H2].
    exists (m1 ++ m2). by rewrite H2, H1, <- app_assoc.
  - eauto.
  - eauto.
Qed.

Lemma extends_try_except {A} (m : M A) (h : exn → M A) :
  extends m → (∀ e, extends (h e)) → extends (try_except m h).
Proof.
  intros Hm Hh s r s' E. unfold try_except in E.
  destruct (m s) as [[a|e|x] s1] eqn:E1.
  - inversion E; subst. eauto.
  - destruct (Hm _ _ _ E1) as [m1 H1]. destruct (Hh _ _ _ _ E) as [m2 H2].
    exists (m1 ++ m2). by rewrite H2, H1, <- app_assoc.
  - inversion E; subst. eauto.
Qed.

Lemma extends_if {A} (b : bool) (m1 m2 : M A) :
  extends m1 → extends m2 → extends (if b then m1 else m2).
Proof. by destruct b. Qed.

End extends.

Create HintDb extends discriminated.
#[local] Hint Resolve extends_ret extends_raise extends_gets extends_log
  extends_tick extends_set_fs extends_bind extends_try_except extends_if
  : extends.

Lemma extends_os_mkdir d : extends (os_mkdir d).
Proof. unfold os_mkdir. auto 10 with extends. Qed.

Lemma extends_mkdir_leaf b d : extends (mkdir_leaf b d).
Proof.
  unfold mkdir_leaf. apply extends_try_except; [apply extends_os_mkdir|].
  intros []; auto 6 with extends.
Qed.

Lemma extends_mkdir_rev b r : extends (mkdir_rev b r).
Proof.
  revert b. induction r as [|x r IH]; intros b; cbn [mkdir_rev];
    (apply extends_try_except; [apply extends_os_mkdir|]);
    intros []; auto 6 with extends.
  apply extends_bind; [apply IH|intros _; apply extends_mkdir_leaf].
Qed.

Lemma extends_write_from f rest : ∀ w, extends (write_from f w rest).
Proof.
  induction rest as [|c rest IH]; intros w; simpl; auto 8 with extends.
Qed.

Lemma extends_with_suffix p sfx : extends (with_suffix p sfx).
Proof.
  intros s r s' E. apply with_suffix_pure in E as [-> _].
  exists []. by rewrite app_nil_r.
Qed.

Lemma extends_write_text f data : extends (Path_write_text f data).
Proof.
  unfold Path_write_text, open_w.
  pose proof (extends_write_from f data ""). auto 12 with extends.
Qed.

Lemma extends_replace src dst : extends (Path_replace src dst).
Proof.
  unfold Path_replace.
  apply extends_bind; [apply extends_tick|intros _].
  apply extends_bind; [apply extends_log|intros _].
  apply extends_bind; [apply extends_gets|intros t].
  destruct (t !! src) as [[|c]|]; auto with extends.
  destruct (decide (src = dst)); auto with extends.
Qed.

Lemma Engine_stop_run s :
  Engine_stop s
  = (Ok tt, set_calls (λ l, l ++ join_calls s) (set_eng (set_running false) s)).
Proof.
  destruct s as [? [r t] ? ? ? ? ? ? ? ? ? ? ?].
  unfold Engine_stop, thread_join, join_calls.
  destruct t; msimpl; [done|]. by rewrite app_nil_r.
Qed.

Lemma MidiIO_close_run s :
  MidiIO_close s
  = (Ok tt,
     set_io (λ _, MidiIO_init)
       (set_ports (λ ps, close_ports (broken s) (output_ports (io s))
                           (close_ports (broken s) (input_ports (io s)) ps))
          (set_calls (λ l, l ++ map CClose (input_ports (io s))
                             ++ map CClose (output_ports (io s))) s))).
Proof.
  unfold MidiIO_close.
  rewrite (bind_ok _ _ _ _ _ (close_inputs_run s)), close_outputs_run.
  destruct s. sys_simpl. by rewrite <- app_assoc.
Qed.

Section shutdown.
Context `{YAML} `{Install}.

(** [save_config] starts by recording its [mkdir]. *)
Lemma save_config_calls cfg p s :
  ∃ more, calls (save_config cfg p s).2 = calls s ++ CMkdir (parent p) :: more.
Proof.
  assert (extends (mkdir_rev true (rev (parent p)) ;;
                   tmp ← with_suffix p ".tmp";
                   Path_write_text tmp (safe_dump (config_data cfg)) ;;
                   Path_replace tmp p)) as Hext.
  { apply extends_bind; [apply extends_mkdir_rev|intros _].
    apply extends_bind; [apply extends_with_suffix|intros tmp].
    apply extends_bind; [apply extends_write_text|intros _].
    apply extends_replace. }
  destruct (save_config cfg p s) as [r s'] eqn:E.
  unfold save_config, Path_mkdir in E.
  assert (∀ {A B C} (m1 : M A) (m2 : M B) (m3 : M C) t,
            ((m1 ;; m2) ;; m3) t = (m1 ;; (m2 ;; m3)) t) as Hassoc.
  { intros A B C m1 m2 m3 t. unfold mbind, M_bind.
    by destruct (m1 t) as [[?|?|?] ?]. }
  rewrite Hassoc in E.
  rewrite (bind_ok _ _ _ tt (set_calls (λ l, l ++ [CMkdir (parent p)]) s)) in E
    by done.
  destruct (Hext _ _ _ E) as [more Hmore]. exists more. simpl.
  rewrite Hmore. destruct s. simpl. by rewrite <- app_assoc.
Qed.

End shutdown.

(** With a thread running and the drivers of "A" and "O" failing on
    [close], the three steps still run, in order. *)
Example shutdown_with_failing_drivers :
  (@main_finally pyyaml_sample sample_install failing_drivers).1 = Ok tt ∧
  calls (@main_finally pyyaml_sample sample_install failing_drivers).2
  = [CJoin; CClose 0; CClose 1; CClose 2;
     CMkdir ["opt"; "midi_engine"];
     CWriteText ["opt"; "midi_engine"; "config.tmp"] sample_text;
     CReplace ["opt"; "midi_engine"; "config.tmp"]
              ["opt"; "midi_engine"; "config.yaml"]] ∧
  fs (@main_finally pyyaml_sample sample_install failing_drivers).2
    !! ["opt"; "midi_engine"; "config.yaml"] = Some (File sample_text) ∧
  is_open (ports (@main_finally pyyaml_sample sample_install failing_drivers).2) 0
    = true.
Proof. repeat split; vm_compute; reflexivity. Qed.

(** * Further properties *)

(** ** Strings and [with_suffix] *)

Lemma append_cons c a b :
  String.append (String c a) b = String c (String.append a b).
Proof. reflexivity. Qed.

Lemma string_length_append a b :
  String.length (String.append a b) = String.length a + String.length b.
Proof.
  induction a as [|c a IH]; [done|].
  rewrite append_cons. simpl. by rewrite IH.
Qed.

Lemma substring_0_all s : substring 0 (String.length s) s = s.
Proof. induction s as [|c s IH]; simpl; [done|by f_equal]. Qed.

Lemma substring_0_length s : ∀ i,
  (i ≤ String.length s)%nat → String.length (substring 0 i s) = i.
Proof.
  induction s as [|c s IH]; intros [|i] Hi; simpl in *; try done; try lia.
  f_equal. apply IH. lia.
Qed.

(** A string is its first [i] characters followed by the rest. *)
Lemma substring_split s : ∀ i,
  (i ≤ String.length s)%nat →
  String.append (substring 0 i s) (substring i (String.length s - i) s) = s.
Proof.
  induction s as [|c s IH]; intros [|i] Hi; simpl in Hi; try lia.
  - done.
  - change (String.append "" (substring 0 (S (String.length s)) (String c s))
            = String c s).
    change (String c (substring 0 (String.length s) s) = String c s).
    by rewrite substring_0_all.
  - change (String c (String.append (substring 0 i s)
                        (substring i (String.length s - i) s)) = String c s).
    f_equal. apply IH. lia.
Qed.

Lemma rfind_bound c s i : rfind c s = Some i → i < String.length s.
Proof.
  revert i. induction s as [|a s IH]; intros i; simpl; [done|].
  destruct (rfind c s) as [j|].
  - intros [= <-]. specialize (IH j eq_refl). lia.
  - destruct (Ascii.eqb a c); [|done]. intros [= <-]. lia.
Qed.

(** A name is what precedes its suffix followed by the suffix. *)
Lemma suffix_split nm :
  suffix nm ≠ "" →
  String.append
    (substring 0 (String.length nm - String.length (suffix nm)) nm) (suffix nm)
  = nm.
Proof.
  unfold suffix. destruct (rfind "." nm) as [i|] eqn:Hi; [|done].
  destruct ((0 <? i) && (i <? String.length nm - 1))%nat; [|done].
  intros _. apply rfind_bound in Hi.
  assert (String.length (substring i (String.length nm - i) nm)
          = String.length nm - i) as Hlen.
  { pose proof (substring_split nm i ltac:(lia)) as Hs.
    apply (f_equal String.length) in Hs.
    rewrite string_length_append, substring_0_length in Hs by lia. lia. }
  rewrite Hlen. replace (String.length nm - (String.length nm - i)) with i by lia.
  apply substring_split. lia.
Qed.

Lemma with_suffix_tmp_run p s :
  path_name p ≠ "" →
  ∃ nm', with_suffix p ".tmp" s = (Ok (removelast p ++ [nm']), s) ∧
         (nm' = path_name p → suffix (path_name p) = ".tmp").
Proof.
  intros Hnm. unfold with_suffix.
  change (contains_char "/" ".tmp") with false.
  change ((negb (".tmp" =? "")%string && negb (starts_with_dot ".tmp"))
          || (".tmp" =? ".")%string) with false.
  cbv beta iota zeta.
  apply String.eqb_neq in Hnm. rewrite Hnm.
  eexists. split; [reflexivity|].
  destruct (String.eqb (suffix (path_name p)) "") eqn:Hsfx.
  - intros E. apply (f_equal String.length) in E.
    rewrite string_length_append in E. simpl in E. lia.
  - apply String.eqb_neq in Hsfx. intros E.
    pose proof (eq_trans E (eq_sym (suffix_split _ Hsfx))) as E2.
    by apply String.app_inj in E2.
Qed.

(** The temporary path is the destination only for a name that ends in
    [.tmp] already. *)
Lemma with_suffix_same p s tmp s' :
  with_suffix p ".tmp" s = (Ok tmp, s') →
  tmp = p → suffix (path_name p) = ".tmp".
Proof.
  intros E Hsame.
  assert (path_name p ≠ "") as Hnm.
  { intros Hnm. unfold with_suffix in E. revert E.
    change (contains_char "/" ".tmp") with false.
    change ((negb (".tmp" =? "")%string && negb (starts_with_dot ".tmp"))
            || (".tmp" =? ".")%string) with false.
    cbv beta iota zeta. by rewrite Hnm. }
  destruct (with_suffix_tmp_run p s Hnm) as (nm' & E' & Hfix).
  rewrite E in E'. injection E' as -> _.
  apply Hfix.
  assert (p ≠ []) as Hp by (intros ->; done).
  pose proof (eq_trans Hsame (app_removelast_last "" Hp)) as Hlast.
  by apply app_inj_tail in Hlast as [_ ?].
Qed.

(** ** config.py: what a save does to the file tree *)

Lemma write_from_full f rest : ∀ w s,
  crash_in s = None →
  fs s !! f = Some (File w) →
  write_from f w rest s
  = (Ok tt, set_fs (<[f := File (String.append w rest)]>) s).
Proof.
  induction rest as [|c rest IH]; intros w s Hc Hf.
  - rewrite append_empty. destruct s. unfold set_fs. simpl in *.
    by rewrite insert_id.
  - set (w' := String.append w (String c EmptyString)).
    set (s1 := set_fs (<[f := File w']>) s).
    cbn [write_from]. rewrite (bind_ok _ _ _ _ _ (tick_run s Hc)).
    rewrite (bind_ok _ _ _ tt s1) by done.
    fold w'. rewrite (IH w' s1).
    + subst s1 w'. destruct s. unfold set_fs. simpl.
      by rewrite insert_insert_eq, append_snoc.
    + by destruct s.
    + subst s1. destruct s. simpl. by rewrite lookup_insert_eq.
Qed.

Lemma write_text_full f data s :
  crash_in s = None →
  fs_is_dir (fs s) f = false →
  fs_is_dir (fs s) (parent f) = true →
  Path_write_text f data s
  = (Ok tt, set_fs (<[f := File data]>)
              (set_calls (λ l, l ++ [CWriteText f data]) s)).
Proof.
  intros Hc Hf Hpar.
  set (s1 := set_calls (λ l, l ++ [CWriteText f data]) s).
  set (s2 := set_fs (<[f := File ""]>) s1).
  assert (crash_in s1 = None ∧ fs s1 = fs s) as [Hc1 Hfs1] by (by destruct s).
  assert (open_w f s1 = (Ok tt, s2)) as Hopen.
  { unfold open_w. rewrite (bind_ok _ _ _ _ _ (tick_run s1 Hc1)).
    rewrite (bind_ok _ _ _ (fs s1) s1) by done. by rewrite Hfs1, Hf, Hpar. }
  unfold Path_write_text. rewrite (bind_ok _ _ _ tt s1) by done.
  rewrite (bind_ok _ _ _ _ _ Hopen).
  rewrite (write_from_full f data "" s2).
  - subst s2 s1. destruct s. unfold set_fs, set_calls. simpl.
    by rewrite insert_insert_eq.
  - by destruct s.
  - subst s2 s1. destruct s. simpl. by rewrite lookup_insert_eq.
Qed.

Section config_runs.
Context `{YAML}.

(** A save that meets no obstacle: the three calls it makes and the
    tree it leaves. *)
Lemma save_config_run cfg p tmp s :
  crash_in s = None →
  with_suffix p ".tmp" s = (Ok tmp, s) →
  fs_is_dir (fs s) (parent p) = true →
  fs_is_dir (fs s) tmp = false →
  fs_is_dir (fs s) p = false →
  save_config cfg p s
  = (Ok tt,
     set_fs (λ t, <[p := File (safe_dump (config_data cfg))]> (delete tmp t))
       (set_calls (λ l, l ++ [CMkdir (parent p);
                              CWriteText tmp (safe_dump (config_data cfg));
                              CReplace tmp p]) s)).
Proof.
  intros Hc Htmp Hpar Htmpdir Hpdir.
  pose proof (with_suffix_parent _ _ _ _ _ Htmp) as Hparent.
  destruct (with_suffix_ok _ _ _ _ _ Htmp) as [Hne Htne].
  apply with_suffix_pure in Htmp as [_ Htmp].
  set (text := safe_dump (config_data cfg)).
  set (s1 := set_calls (λ l, l ++ [CMkdir (parent p)]) s).
  set (s2 := set_fs (<[tmp := File text]>)
               (set_calls (λ l, l ++ [CWriteText tmp text]) s1)).
  set (s3 := set_calls (λ l, l ++ [CReplace tmp p]) s2).
  assert (crash_in s1 = None ∧ fs s1 = fs s) as [Hc1 Hfs1] by (by destruct s).
  assert (crash_in s2 = None) as Hc2 by (by destruct s).
  assert (fs s3 = <[tmp := File text]> (fs s)) as Hfs3 by (by destruct s).
  assert (parent p ≠ tmp) as Hpt.
  { intros E. pose proof (parent_shorter p Hne) as Hlt.
    pose proof (parent_shorter tmp Htne) as Hlt'.
    rewrite Hparent, E in Hlt'. lia. }
  unfold save_config.
  rewrite (bind_ok _ _ _ _ _ (mkdir_existing (parent p) s Hc Hpar)).
  fold s1. rewrite (bind_ok _ _ _ _ _ (Htmp s1)).
  rewrite (bind_ok _ _ _ _ _ (write_text_full tmp text s1 Hc1
             ltac:(by rewrite Hfs1) ltac:(by rewrite Hfs1, Hparent))).
  fold s2. unfold Path_replace.
  rewrite (bind_ok _ _ _ _ _ (tick_run s2 Hc2)).
  rewrite (bind_ok _ _ _ tt s3) by done.
  rewrite (bind_ok _ _ _ (fs s3) s3) by done.
  rewrite Hfs3, lookup_insert_eq.
  destruct (decide (tmp = p)) as [->|Htp].
  - subst s3 s2 s1. destruct s. unfold mret, M_ret, set_fs, set_calls. simpl.
    by rewrite insert_delete_eq, <- !app_assoc.
  - rewrite (fs_is_dir_same (fs s) _ p), Hpdir
      by (by rewrite lookup_insert_ne).
    rewrite (fs_is_dir_same (fs s) _ (parent p)), Hpar
      by (by rewrite lookup_insert_ne).
    subst s3 s2 s1. destruct s. unfold modify, set_fs, set_calls. simpl.
    by rewrite delete_insert_eq, <- !app_assoc.
Qed.

(** A directory at the destination: the rename fails after the
    temporary file was written. *)
Lemma save_config_onto_directory cfg p tmp s :
  crash_in s = None →
  with_suffix p ".tmp" s = (Ok tmp, s) →
  fs_is_dir (fs s) (parent p) = true →
  fs_is_dir (fs s) tmp = false →
  fs s !! p = Some Dir →
  save_config cfg p s
  = (Raise IsADirectoryError,
     set_fs (<[tmp := File (safe_dump (config_data cfg))]>)
       (set_calls (λ l, l ++ [CMkdir (parent p);
                              CWriteText tmp (safe_dump (config_data cfg));
                              CReplace tmp p]) s)).
Proof.
  intros Hc Htmp Hpar Htmpdir Hpdir.
  pose proof (with_suffix_parent _ _ _ _ _ Htmp) as Hparent.
  destruct (with_suffix_ok _ _ _ _ _ Htmp) as [Hne Htne].
  apply with_suffix_pure in Htmp as [_ Htmp].
  assert (fs_is_dir (fs s) p = true) as Hpd.
  { unfold fs_is_dir. destruct p; [done|]. by rewrite Hpdir. }
  assert (tmp ≠ p) as Htp by (intros ->; congruence).
  set (text := safe_dump (config_data cfg)).
  set (s1 := set_calls (λ l, l ++ [CMkdir (parent p)]) s).
  set (s2 := set_fs (<[tmp := File text]>)
               (set_calls (λ l, l ++ [CWriteText tmp text]) s1)).
  set (s3 := set_calls (λ l, l ++ [CReplace tmp p]) s2).
  assert (crash_in s1 = None ∧ fs s1 = fs s) as [Hc1 Hfs1] by (by destruct s).
  assert (crash_in s2 = None) as Hc2 by (by destruct s).
  assert (fs s3 = <[tmp := File text]> (fs s)) as Hfs3 by (by destruct s).
  unfold save_config.
  rewrite (bind_ok _ _ _ _ _ (mkdir_existing (parent p) s Hc Hpar)).
  fold s1. rewrite (bind_ok _ _ _ _ _ (Htmp s1)).
  rewrite (bind_ok _ _ _ _ _ (write_text_full tmp text s1 Hc1
             ltac:(by rewrite Hfs1) ltac:(by rewrite Hfs1, Hparent))).
  fold s2. unfold Path_replace.
  rewrite (bind_ok _ _ _ _ _ (tick_run s2 Hc2)).
  rewrite (bind_ok _ _ _ tt s3) by done.
  rewrite (bind_ok _ _ _ (fs s3) s3) by done.
  rewrite Hfs3, lookup_insert_eq.
  rewrite decide_False by done.
  rewrite (fs_is_dir_same (fs s) _ p), Hpd by (by rewrite lookup_insert_ne).
  subst s3 s2 s1. destruct s. unfold raise, set_fs, set_calls. simpl.
  by rewrite <- !app_assoc.
Qed.
End config_runs.

Section config_properties.
Context `{YAML}.

(** X1: for every destination whose name does not already end in
    [.tmp], wherever [save_config] stops (power cut at any step, any
    error of the file system), the destination holds the complete new
    document when the call returned, and exactly what it held before
    when it did not. *)
Theorem save_config_atomic_unless_tmp cfg p s :
  suffix (path_name p) ≠ ".tmp" →
  ((save_config cfg p s).1 = Ok tt ∧
   fs (save_config cfg p s).2 !! p
     = Some (File (safe_dump (config_data cfg)))) ∨
  ((save_config cfg p s).1 ≠ Ok tt ∧
   fs (save_config cfg p s).2 !! p = fs s !! p).
Proof.
  intros Hsfx.
  destruct (save_config cfg p s) as [r s'] eqn:E. cbn [fst snd].
  destruct (decide (path_name p = "")) as [Hnm|Hnm].
  - right. unfold save_config in E.
    assert (∀ t, with_suffix p ".tmp" t = (Raise (ValueError "empty name"), t))
      as Hraise.
    { intros t. unfold with_suffix. by rewrite Hnm. }
    assert (keeps p (Path_mkdir (parent p) true true)) as Kmk.
    { destruct p as [|a p]; [|by apply keeps_Path_mkdir, parent_shorter].
      unfold Path_mkdir. apply keeps_bind; [apply keeps_log|intros _].
      apply keeps_try_except.
      - unfold os_mkdir. apply keeps_bind; [apply keeps_tick|intros _].
        apply keeps_bind; [apply keeps_gets|intros t]. apply keeps_raise.
      - intros e. destruct e; try apply keeps_raise;
          (apply keeps_bind; [apply keeps_gets|intros t];
           apply keeps_if; [apply keeps_ret|apply keeps_raise]). }
    apply bind_inv in E as [([] & s1 & E1 & E)|[(e & E1 & ->)|(h & E1 & ->)]];
      [|split; [done|by eapply Kmk]..].
    rewrite (bind_raise _ _ _ _ _ (Hraise s1)) in E. inversion E; subst.
    split; [done|by eapply Kmk].
  - destruct (with_suffix_tmp_run p s Hnm) as (nm' & Htmp & _).
    eapply save_config_atomic; [exact Htmp| |exact E].
    intros Hsame. apply Hsfx. by eapply with_suffix_same.
Qed.

(** X2: a save that meets no obstacle (no power cut, the directory of
    the destination exists, no directory stands at the destination or
    at the temporary path) makes three calls, [mkdir] of the parent,
    [write_text] of the serialised document to the temporary path and
    the rename, and changes the tree in exactly one way: the destination
    holds the document and the temporary file is gone. *)
Theorem save_config_effect cfg p tmp s :
  crash_in s = None →
  with_suffix p ".tmp" s = (Ok tmp, s) →
  fs_is_dir (fs s) (parent p) = true →
  fs_is_dir (fs s) tmp = false →
  fs_is_dir (fs s) p = false →
  (save_config cfg p s).1 = Ok tt ∧
  fs (save_config cfg p s).2
    = <[p := File (safe_dump (config_data cfg))]> (delete tmp (fs s)) ∧
  calls (save_config cfg p s).2
    = calls s ++ [CMkdir (parent p);
                  CWriteText tmp (safe_dump (config_data cfg));
                  CReplace tmp p].
Proof.
  intros Hc Htmp Hpar Htmpdir Hpdir.
  rewrite (save_config_run cfg p tmp s) by done.
  by destruct s.
Qed.

(** X3: when a directory stands at the destination, [save_config]
    raises [IsADirectoryError] from the rename, after the document was
    written: the temporary file stays behind, holding the document, and
    nothing else in the tree has changed. *)
Theorem save_config_directory_in_the_way cfg p tmp s :
  crash_in s = None →
  with_suffix p ".tmp" s = (Ok tmp, s) →
  fs_is_dir (fs s) (parent p) = true →
  fs_is_dir (fs s) tmp = false →
  fs s !! p = Some Dir →
  (save_config cfg p s).1 = Raise IsADirectoryError ∧
  fs (save_config cfg p s).2
    = <[tmp := File (safe_dump (config_data cfg))]> (fs s).
Proof.
  intros Hc Htmp Hpar Htmpdir Hpdir.
  rewrite (save_config_onto_directory cfg p tmp s) by done.
  by destruct s.
Qed.

Lemma load_config_reads p text s :
  p ≠ [] → fs s !! p = Some (File text) →
  load_config p s
  = (v ← yaml_safe_load text;
     m ← py_get (py_or v (PDict [])) "midi" (PDict []);
     i ← py_get m "inputs" (PList []);
     o ← py_get m "outputs" (PList []);
     mret (mkConfig (mkMidiConfig i o)))
      (set_calls (λ l, l ++ [CReadText p]) s).
Proof.
  intros Hne Hp.
  assert (fs_exists (fs s) p = true) as Hex.
  { unfold fs_exists. destruct p; [done|]. by rewrite Hp. }
  set (s1 := set_calls (λ l, l ++ [CReadText p]) s).
  assert (Path_read_text p s = (Ok text, s1)) as Hread.
  { unfold Path_read_text. rewrite (bind_ok _ _ _ tt s1) by done.
    rewrite (bind_ok _ _ _ (fs s1) s1) by done.
    replace (fs s1) with (fs s) by (by destruct s).
    destruct p; [done|]. by rewrite Hp. }
  unfold load_config.
  assert (Path_exists p s = (Ok true, s)) as Hexists.
  { unfold Path_exists. rewrite (bind_ok _ _ _ (fs s) s) by done.
    by rewrite Hex. }
  rewrite (bind_ok _ _ _ _ _ Hexists). cbn [negb].
  by rewrite (bind_ok _ _ _ _ _ Hread).
Qed.

(** X4: a configuration file whose document is falsy in Python (an
    empty file, which YAML reads as [None], but also an empty mapping,
    an empty sequence, [0], [false] or the empty string) is read as the
    zero-value configuration, and reading it changes nothing. *)
Theorem load_config_empty_document p text v s :
  p ≠ [] → fs s !! p = Some (File text) →
  safe_load text = inr v → py_truthy v = false →
  load_config p s
  = (Ok Config_default, set_calls (λ l, l ++ [CReadText p]) s).
Proof.
  intros Hne Hp Hv Hfalsy. rewrite (load_config_reads p text s) by done.
  rewrite (bind_ok _ _ _ v (set_calls (λ l, l ++ [CReadText p]) s))
    by (by unfold yaml_safe_load; rewrite Hv).
  unfold py_or. rewrite Hfalsy. reflexivity.
Qed.

(** X5: a document in which the key [midi] is present but holds
    something that is not a mapping (in YAML, [midi:] with nothing
    after it is [None]) makes [load_config] raise [AttributeError]: the
    default of [.get("midi", {})] applies only to a missing key. *)
Theorem load_config_midi_not_mapping p text d m s :
  p ≠ [] → fs s !! p = Some (File text) →
  safe_load text = inr (PDict d) →
  dict_lookup "midi" d = Some m →
  (∀ md, m ≠ PDict md) →
  load_config p s
  = (Raise AttributeError, set_calls (λ l, l ++ [CReadText p]) s).
Proof.
  intros Hne Hp Hv Hm Hnot. rewrite (load_config_reads p text s) by done.
  rewrite (bind_ok _ _ _ (PDict d) (set_calls (λ l, l ++ [CReadText p]) s))
    by (by unfold yaml_safe_load; rewrite Hv).
  destruct d as [|kv d]; [done|]. unfold py_or. cbn [py_truthy].
  rewrite (bind_ok _ _ _ m (set_calls (λ l, l ++ [CReadText p]) s))
    by (by unfold py_get; rewrite Hm).
  destruct m as [| | | | |md|]; try reflexivity. by destruct (Hnot md).
Qed.

(** X6: the two lists default independently: with a [midi] section
    that has no [inputs] key, the inputs are the empty list and the
    outputs are what the document gives; with no [midi] key at all in a
    document that is a non-empty mapping, both are empty. *)
Theorem load_config_missing_keys p text d s :
  p ≠ [] → fs s !! p = Some (File text) →
  safe_load text = inr (PDict d) →
  (dict_lookup "midi" d = None →
   (load_config p s).1 = Ok Config_default) ∧
  (∀ md o, dict_lookup "midi" d = Some (PDict md) →
     dict_lookup "inputs" md = None →
     dict_lookup "outputs" md = Some o →
     (load_config p s).1 = Ok (mkConfig (mkMidiConfig (PList []) o))) ∧
  (∀ md i, dict_lookup "midi" d = Some (PDict md) →
     dict_lookup "inputs" md = Some i →
     dict_lookup "outputs" md = None →
     (load_config p s).1 = Ok (mkConfig (mkMidiConfig i (PList [])))).
Proof.
  intros Hne Hp Hv. rewrite (load_config_reads p text s) by done.
  rewrite (bind_ok _ _ _ (PDict d) (set_calls (λ l, l ++ [CReadText p]) s))
    by (by unfold yaml_safe_load; rewrite Hv).
  destruct d as [|kv d].
  - split; [done|]. split; intros; done.
  - unfold py_or. cbn [py_truthy].
    set (s1 := set_calls (λ l, l ++ [CReadText p]) s).
    split; [|split].
    + intros Hm.
      rewrite (bind_ok _ _ _ (PDict []) s1)
        by (by unfold py_get; rewrite Hm).
      reflexivity.
    + intros md o Hm Hi Ho.
      rewrite (bind_ok _ _ _ (PDict md) s1)
        by (by unfold py_get; rewrite Hm).
      rewrite (bind_ok _ _ _ (PList []) s1)
        by (by unfold py_get; rewrite Hi).
      rewrite (bind_ok _ _ _ o s1) by (by unfold py_get; rewrite Ho).
      reflexivity.
    + intros md i Hm Hi Ho.
      rewrite (bind_ok _ _ _ (PDict md) s1)
        by (by unfold py_get; rewrite Hm).
      rewrite (bind_ok _ _ _ i s1) by (by unfold py_get; rewrite Hi).
      rewrite (bind_ok _ _ _ (PList []) s1)
        by (by unfold py_get; rewrite Ho).
      reflexivity.
Qed.
End config_properties.

(** The properties of [config.py] on the sample installation *)

Lemma save_config_atomic_unless_tmp_witness :
  ((@save_config pyyaml_sample sample_cfg
      ["opt"; "midi_engine"; "config.yaml"] power_cut).1 = Ok tt ∧
   fs (@save_config pyyaml_sample sample_cfg
         ["opt"; "midi_engine"; "config.yaml"] power_cut).2
     !! ["opt"; "midi_engine"; "config.yaml"]
     = Some (File (@safe_dump pyyaml_sample (config_data sample_cfg)))) ∨
  ((@save_config pyyaml_sample sample_cfg
      ["opt"; "midi_engine"; "config.yaml"] power_cut).1 ≠ Ok tt ∧
   fs (@save_config pyyaml_sample sample_cfg
         ["opt"; "midi_engine"; "config.yaml"] power_cut).2
     !! ["opt"; "midi_engine"; "config.yaml"]
     = fs power_cut !! ["opt"; "midi_engine"; "config.yaml"]).
Proof.
  apply (@save_config_atomic_unless_tmp pyyaml_sample sample_cfg
           ["opt"; "midi_engine"; "config.yaml"] power_cut).
  vm_compute. discriminate.
Defined.

Lemma save_config_effect_witness :
  (@save_config pyyaml_sample sample_cfg
     ["opt"; "midi_engine"; "config.yaml"] installed).1 = Ok tt ∧
  fs (@save_config pyyaml_sample sample_cfg
        ["opt"; "midi_engine"; "config.yaml"] installed).2
    = <[["opt"; "midi_engine"; "config.yaml"]
          := File (@safe_dump pyyaml_sample (config_data sample_cfg))]>
        (delete ["opt"; "midi_engine"; "config.tmp"] (fs installed)) ∧
  calls (@save_config pyyaml_sample sample_cfg
           ["opt"; "midi_engine"; "config.yaml"] installed).2
    = calls installed
      ++ [CMkdir (parent ["opt"; "midi_engine"; "config.yaml"]);
          CWriteText ["opt"; "midi_engine"; "config.tmp"]
            (@safe_dump pyyaml_sample (config_data sample_cfg));
          CReplace ["opt"; "midi_engine"; "config.tmp"]
            ["opt"; "midi_engine"; "config.yaml"]].
Proof.
  apply (@save_config_effect pyyaml_sample sample_cfg
           ["opt"; "midi_engine"; "config.yaml"]
           ["opt"; "midi_engine"; "config.tmp"] installed).
  - reflexivity.
  - vm_compute. reflexivity.
  - vm_compute. reflexivity.
  - vm_compute. reflexivity.
  - vm_compute. reflexivity.
Defined.

Lemma save_config_directory_in_the_way_witness :
  (@save_config pyyaml_sample sample_cfg
     ["opt"; "midi_engine"; "config.yaml"] installed_blocked).1
    = Raise IsADirectoryError ∧
  fs (@save_config pyyaml_sample sample_cfg
        ["opt"; "midi_engine"; "config.yaml"] installed_blocked).2
    = <[["opt"; "midi_engine"; "config.tmp"]
          := File (@safe_dump pyyaml_sample (config_data sample_cfg))]>
        (fs installed_blocked).
Proof.
  apply (@save_config_directory_in_the_way pyyaml_sample sample_cfg
           ["opt"; "midi_engine"; "config.yaml"]
           ["opt"; "midi_engine"; "config.tmp"] installed_blocked).
  - reflexivity.
  - vm_compute. reflexivity.
  - vm_compute. reflexivity.
  - vm_compute. reflexivity.
  - vm_compute. reflexivity.
Defined.

Lemma load_config_empty_document_witness :
  @load_config pyyaml_edge ["config.yaml"]
    (set_fs (<[["config.yaml"] := File ""]>) boot)
  = (Ok Config_default,
     set_calls (λ l, l ++ [CReadText ["config.yaml"]])
       (set_fs (<[["config.yaml"] := File ""]>) boot)).
Proof.
  apply (@load_config_empty_document pyyaml_edge ["config.yaml"] "" PNone
           (set_fs (<[["config.yaml"] := File ""]>) boot)).
  - discriminate.
  - vm_compute. reflexivity.
  - reflexivity.
  - reflexivity.
Defined.

Lemma load_config_midi_not_mapping_witness :
  @load_config pyyaml_edge ["config.yaml"]
    (set_fs (<[["config.yaml"] := File midi_null_text]>) boot)
  = (Raise AttributeError,
     set_calls (λ l, l ++ [CReadText ["config.yaml"]])
       (set_fs (<[["config.yaml"] := File midi_null_text]>) boot)).
Proof.
  apply (@load_config_midi_not_mapping pyyaml_edge ["config.yaml"]
           midi_null_text [(PStr "midi", PNone)] PNone
           (set_fs (<[["config.yaml"] := File midi_null_text]>) boot)).
  - discriminate.
  - vm_compute. reflexivity.
  - reflexivity.
  - reflexivity.
  - discriminate.
Defined.

Lemma load_config_missing_keys_witness :
  (@load_config pyyaml_edge ["config.yaml"]
     (set_fs (<[["config.yaml"] := File outputs_only_text]>) boot)).1
  = Ok (mkConfig (mkMidiConfig (PList []) (py_names ["O"]))).
Proof.
  destruct (@load_config_missing_keys pyyaml_edge ["config.yaml"]
              outputs_only_text
              [(PStr "midi", PDict [(PStr "outputs", py_names ["O"])])]
              (set_fs (<[["config.yaml"] := File outputs_only_text]>) boot))
    as (_ & Hout & _).
  - discriminate.
  - vm_compute. reflexivity.
  - reflexivity.
  - apply (Hout [(PStr "outputs", py_names ["O"])] (py_names ["O"]));
      reflexivity.
Defined.

(** ** midi_io.py: closing, opening and the non-blocking read *)

Lemma shut_shut bad p : shut bad (shut bad p) = shut bad p.
Proof. unfold shut. repeat (case_bool_decide; simpl in *); done. Qed.

Lemma close_at_lookup bad ps x k :
  close_at bad ps x !! k
  = if decide (x = k) then shut bad <$> ps !! k else ps !! k.
Proof.
  unfold close_at, shut. destruct (ps !! x) as [p|] eqn:Hx.
  - destruct (decide (x = k)) as [<-|Hne].
    + rewrite Hx. simpl. case_bool_decide; [done|].
      rewrite list_lookup_insert_eq; [done|by eapply lookup_lt_Some].
    + case_bool_decide; [done|]. by rewrite list_lookup_insert_ne.
  - destruct (decide (x = k)) as [<-|Hne]; [by rewrite Hx|done].
Qed.

(** Closing the ports [hs] closes exactly those of them whose driver
    works, and touches nothing else. *)
Lemma close_ports_lookup_gen bad hs : ∀ ps h,
  close_ports bad hs ps !! h
  = if bool_decide (h ∈ hs) then shut bad <$> ps !! h else ps !! h.
Proof.
  induction hs as [|x hs IH]; intros ps h; [done|].
  unfold close_ports in *. cbn [fold_left]. rewrite IH, close_at_lookup.
  destruct (decide (x = h)) as [<-|Hne].
  - rewrite (bool_decide_eq_true_2 (x ∈ x :: hs)) by left.
    case_bool_decide; [|done].
    destruct (ps !! x); simpl; [|done]. by rewrite shut_shut.
  - assert (bool_decide (h ∈ x :: hs) = bool_decide (h ∈ hs)) as ->; [|done].
    apply bool_decide_ext. rewrite elem_of_cons.
    split; [intros [->|?]; [by destruct Hne|done]|by right].
Qed.

Lemma close_ports_app bad a b ps :
  close_ports bad (a ++ b) ps = close_ports bad b (close_ports bad a ps).
Proof. unfold close_ports. apply fold_left_app. Qed.

(** X7: [MidiIO.close] hands back every port the object holds.  It
    returns whatever the drivers do, leaves the object holding nothing,
    closes every port it held whose driver works, leaves a port whose
    driver fails on [close] as it was (still open in the host, and no
    longer held), and touches no other port. *)
Theorem MidiIO_close_releases s :
  (MidiIO_close s).1 = Ok tt ∧
  io (MidiIO_close s).2 = MidiIO_init ∧
  (∀ h p, h ∈ input_ports (io s) ++ output_ports (io s) →
          ports s !! h = Some p →
          ports (MidiIO_close s).2 !! h
          = Some (if bool_decide (name p ∈ broken s) then p
                  else mkPort (name p) (dir p) true (queue p))) ∧
  (∀ h, h ∉ input_ports (io s) ++ output_ports (io s) →
        ports (MidiIO_close s).2 !! h = ports s !! h).
Proof.
  rewrite MidiIO_close_run. cbn [fst snd].
  assert (∀ h, ports (set_io (λ _, MidiIO_init)
       (set_ports (λ ps, close_ports (broken s) (output_ports (io s))
                           (close_ports (broken s) (input_ports (io s)) ps))
          (set_calls (λ l, l ++ map CClose (input_ports (io s))
                             ++ map CClose (output_ports (io s))) s))) !! h
     = if bool_decide (h ∈ input_ports (io s) ++ output_ports (io s))
       then shut (broken s) <$> ports s !! h else ports s !! h) as Hlook.
  { intros h. rewrite <- close_ports_lookup_gen, close_ports_app.
    by destruct s. }
  split; [done|]. split; [by destruct s|]. split.
  - intros h p Hh Hp. by rewrite Hlook, bool_decide_eq_true_2, Hp.
  - intros h Hh. by rewrite Hlook, bool_decide_eq_false_2.
Qed.

(** X8: closing twice is closing once: the second [MidiIO.close] finds
    nothing held, makes no call to a port and changes nothing. *)
Theorem MidiIO_close_twice s :
  (MidiIO_close ;; MidiIO_close) s = MidiIO_close s.
Proof.
  rewrite (bind_ok _ _ _ _ _ (MidiIO_close_run s)).
  rewrite !MidiIO_close_run. destruct s. sys_simpl.
  cbn [map close_ports fold_left]. by rewrite !app_nil_r.
Qed.

Lemma open_outputs_fails_run pre n post s :
  Forall (λ x, x ∈ host_outputs s) pre →
  n ∉ host_outputs s →
  open_outputs (pre ++ n :: post) s
  = (Raise (OSError "unknown port"),
     set_io (λ o, mkMidiIO (input_ports o) [] (multi_in o))
       (set_ports (λ ps, close_ports (broken s) (output_ports (io s)) ps
                         ++ map (λ x, mkPort x Output false []) pre)
          (set_calls (λ l, l ++ map CClose (output_ports (io s))
                             ++ map COpenOutput (pre ++ [n])) s))).
Proof.
  intros Hall Hn. unfold open_outputs.
  rewrite (bind_ok _ _ _ _ _ (close_outputs_run s)).
  unfold mido_open_output. erewrite bind_raise; cycle 1.
  { apply open_all_fails; by destruct s. }
  destruct s. sys_simpl. unfold open_call. by rewrite <- app_assoc.
Qed.

Lemma open_inputs_fails_run pre n post s :
  Forall (λ x, x ∈ host_inputs s) pre →
  n ∉ host_inputs s →
  open_inputs (pre ++ n :: post) s
  = (Raise (OSError "unknown port"),
     set_io (λ o, mkMidiIO [] (output_ports o) None)
       (set_ports (λ ps, close_ports (broken s) (input_ports (io s)) ps
                         ++ map (λ x, mkPort x Input false []) pre)
          (set_calls (λ l, l ++ map CClose (input_ports (io s))
                             ++ map COpenInput (pre ++ [n])) s))).
Proof.
  intros Hall Hn. unfold open_inputs.
  rewrite (bind_ok _ _ _ _ _ (close_inputs_run s)).
  unfold mido_open_input. erewrite bind_raise; cycle 1.
  { apply open_all_fails; by destruct s. }
  destruct s. sys_simpl. unfold open_call. by rewrite <- app_assoc.
Qed.

(** X9: [open_outputs] stops at the first name that does not open: the
    exception of [mido.open_output] reaches the caller, the names after
    it are not tried, the outputs held before were closed and none is
    held now, and the ports opened for the names before it stay open in
    the host without being held.  The inputs are as before. *)
Theorem open_outputs_stops_at_failure pre n post s :
  Forall (λ x, x ∈ host_outputs s) pre →
  n ∉ host_outputs s →
  ∃ s', open_outputs (pre ++ n :: post) s
          = (Raise (OSError "unknown port"), s') ∧
        calls s' = calls s ++ map CClose (output_ports (io s))
                     ++ map COpenOutput (pre ++ [n]) ∧
        output_ports (io s') = [] ∧
        input_ports (io s') = input_ports (io s) ∧
        multi_in (io s') = multi_in (io s) ∧
        ports s' = close_ports (broken s) (output_ports (io s)) (ports s)
                   ++ map (λ x, mkPort x Output false []) pre.
Proof.
  intros Hall Hn. eexists. split; [by apply open_outputs_fails_run|].
  by destruct s.
Qed.

(** X10: asking for no port is closing: [open_inputs([])] does what
    [close_inputs()] does, and [open_outputs([])] what [close_outputs()]
    does. *)
Theorem open_nothing_is_close s :
  open_inputs [] s = close_inputs s ∧ open_outputs [] s = close_outputs s.
Proof.
  split.
  - rewrite open_inputs_ok by constructor. rewrite close_inputs_run.
    destruct s. sys_simpl. cbn [map length seq]. by rewrite !app_nil_r.
  - rewrite open_outputs_ok by constructor. rewrite close_outputs_run.
    destruct s. sys_simpl. cbn [map length seq]. by rewrite !app_nil_r.
Qed.

Lemma first_unavailable (avail names : list string) :
  Forall (λ n, n ∈ avail) names ∨
  ∃ pre n post, names = pre ++ n :: post ∧
                Forall (λ x, x ∈ avail) pre ∧ n ∉ avail.
Proof.
  induction names as [|x names IH]; [by left|].
  destruct (decide (x ∈ avail)) as [Hx|Hx].
  - destruct IH as [Hall|(pre & n & post & -> & Hpre & Hn)].
    + left. by constructor.
    + right. exists (x :: pre), n, post. split; [done|].
      split; [by constructor|done].
  - right. exists [], x, names. split; [done|]. split; [constructor|done].
Qed.

(** X11: a call of [open_inputs], whether it returns or raises, leaves
    the outputs alone: the list of outputs the object holds is the same,
    and every port of the host that is not one of the inputs held before
    the call is as it was. *)
Theorem open_inputs_spares_other_ports names s h :
  h ∉ input_ports (io s) → h < length (ports s) →
  ports (open_inputs names s).2 !! h = ports s !! h ∧
  output_ports (io (open_inputs names s).2) = output_ports (io s).
Proof.
  intros Hh Hlen.
  assert (∀ more, (close_ports (broken s) (input_ports (io s)) (ports s)
                   ++ more) !! h = ports s !! h) as Hlook.
  { intros more. rewrite lookup_app_l by (by rewrite close_ports_length).
    by rewrite close_ports_lookup_gen, bool_decide_eq_false_2. }
  destruct (first_unavailable (host_inputs s) names)
    as [Hall|(pre & n & post & -> & Hpre & Hn)].
  - rewrite open_inputs_ok by done. cbn [snd]. split; [|by destruct s].
    rewrite <- (Hlook (map (λ n, mkPort n Input false []) names)).
    by destruct s.
  - rewrite open_inputs_fails_run by done. cbn [snd]. split; [|by destruct s].
    rewrite <- (Hlook (map (λ n, mkPort n Input false []) pre)).
    by destruct s.
Qed.

Lemma stamped_tags t pn msgs :
  map tag_of (stamped t pn msgs) = map (λ m, (m, pn)) msgs.
Proof. revert t. induction msgs; intros t; simpl; [done|by f_equal]. Qed.

Lemma name_at_drain ps h k : name_at (drain_at ps h) k = name_at ps k.
Proof.
  unfold name_at, drain_at. destruct (ps !! h) as [p|] eqn:Hp; [|done].
  destruct (decide (h = k)) as [<-|Hne].
  - rewrite list_lookup_insert_eq; [by rewrite Hp|by eapply lookup_lt_Some].
  - by rewrite list_lookup_insert_ne.
Qed.

Lemma tagged_on_drain_notin ps h hs :
  h ∉ hs → tagged_on (drain_at ps h) hs = tagged_on ps hs.
Proof.
  intros Hh. unfold tagged_on.
  induction hs as [|k hs IH]; [done|].
  apply not_elem_of_cons in Hh as [Hne Hh]. cbn [flat_map].
  by rewrite IH, name_at_drain, queue_at_drain_ne.
Qed.

(** Draining the ports [ins]: each message comes back with the name of
    the port it was pending on, port by port. *)
Lemma collect_pending_tagged ins : ∀ events s,
  NoDup ins →
  (∀ h, h ∈ ins → h < length (ports s)) →
  ∃ evs,
    collect_pending ins events s
    = (Ok (events ++ evs),
       set_clock (λ c, length evs + c) (set_ports (drain_ports ins) s)) ∧
    map tag_of evs = tagged_on (ports s) ins.
Proof.
  induction ins as [|h ins IH]; intros events s Hnd Hval.
  - exists []. destruct s. simpl. unfold mret, M_ret. by rewrite app_nil_r.
  - apply NoDup_cons in Hnd as [Hh Hnd].
    destruct (lookup_lt_is_Some_2 (ports s) h) as [p Hp].
    { apply Hval. by left. }
    destruct (IH (events ++ stamped (clock s) (Some (name p)) (queue p))
                 (set_clock (λ c, length (queue p) + c)
                    (set_ports (λ ps, drain_at ps h) s)) Hnd)
      as (evs & E & Htags).
    { intros k Hk. destruct s. simpl. rewrite drain_at_length.
      apply Hval. by right. }
    exists (stamped (clock s) (Some (name p)) (queue p) ++ evs).
    split.
    + assert (port_getattr_name h (set_ports (λ ps, drain_at ps h) s)
              = (Ok (Some (name p)), set_ports (λ ps, drain_at ps h) s))
        as Hname.
      { unfold port_getattr_name. destruct s. msimpl. simpl in Hp.
        unfold drain_at. rewrite Hp.
        rewrite list_lookup_insert_eq; [done|by eapply lookup_lt_Some]. }
      cbn [collect_pending].
      rewrite (bind_ok _ _ _ _ _ (iter_pending_run h p s Hp)).
      rewrite (bind_ok _ _ _ _ _ Hname).
      rewrite (bind_ok _ _ _ _ _ (stamp_run _ _ _ _)).
      replace (clock (set_ports (λ ps, drain_at ps h) s)) with (clock s)
        by (by destruct s).
      rewrite E.
      assert (length (stamped (clock s) (Some (name p)) (queue p))
              = length (queue p)) as Hlen.
      { by rewrite <- (length_map message), stamped_message. }
      destruct s. sys_simpl. rewrite <- app_assoc, length_app.
      cbn [clock] in Hlen. rewrite Hlen.
      f_equal; f_equal; first [reflexivity|lia].
    + rewrite map_app, stamped_tags, Htags.
      replace (ports (set_clock _ (set_ports _ s))) with (drain_at (ports s) h)
        by (by destruct s).
      rewrite tagged_on_drain_notin by done.
      unfold tagged_on. cbn [flat_map]. unfold name_at at 2, queue_at at 2.
      by rewrite Hp.
Qed.

(** X12: the non-blocking read never waits and loses nothing: it
    returns every message pending on the inputs held, port by port in
    the order of the list, each event carrying the name of the port its
    message was pending on; it leaves the queues of the inputs empty,
    and does not call [receive]. *)
Theorem read_events_non_blocking_drains s :
  NoDup (input_ports (io s)) →
  (∀ h, h ∈ input_ports (io s) → h < length (ports s)) →
  ∃ evs s',
    read_events true s = (Ok evs, s') ∧
    map tag_of evs = tagged_on (ports s) (input_ports (io s)) ∧
    ports s' = drain_ports (input_ports (io s)) (ports s) ∧
    (∀ h, h ∈ input_ports (io s) → queue_at (ports s') h = []) ∧
    incoming s' = incoming s ∧
    calls s' = calls s ∧
    io s' = io s.
Proof.
  intros Hnd Hval. unfold read_events.
  rewrite (bind_ok _ _ _ (input_ports (io s)) s) by done.
  destruct (input_ports (io s)) as [|h ins] eqn:Hins.
  - exists [], s. repeat split; try done. intros h Hh. by apply elem_of_nil in Hh.
  - destruct (collect_pending_tagged (h :: ins) [] s Hnd Hval)
      as (evs & E & Htags).
    eexists evs, _. split; [exact E|]. split; [done|].
    split; [by destruct s|]. split; [|by destruct s].
    intros k Hk.
    replace (ports (set_clock _ (set_ports _ s)))
      with (drain_ports (h :: ins) (ports s)) by (by destruct s).
    by apply drain_ports_empty.
Qed.

Lemma open_outputs_stops_at_failure_witness :
  ∃ s', open_outputs (["O"] ++ "X" :: ["O"]) patched
          = (Raise (OSError "unknown port"), s') ∧
        calls s' = calls patched ++ map CClose (output_ports (io patched))
                     ++ map COpenOutput (["O"] ++ ["X"]) ∧
        output_ports (io s') = [] ∧
        input_ports (io s') = input_ports (io patched) ∧
        multi_in (io s') = multi_in (io patched) ∧
        ports s' = close_ports (broken patched) (output_ports (io patched))
                     (ports patched)
                   ++ map (λ x, mkPort x Output false []) ["O"].
Proof.
  apply (open_outputs_stops_at_failure ["O"] "X" ["O"] patched).
  - run_decide.
  - run_decide.
Defined.

Lemma open_inputs_spares_other_ports_witness :
  ports (open_inputs ["A"; "X"] patched).2 !! 2 = ports patched !! 2 ∧
  output_ports (io (open_inputs ["A"; "X"] patched).2)
    = output_ports (io patched).
Proof.
  apply (open_inputs_spares_other_ports ["A"; "X"] patched 2).
  - run_decide.
  - run_decide.
Defined.

Lemma read_events_non_blocking_drains_witness :
  ∃ evs s',
    read_events true (set_ports (λ _, burst_table) patched) = (Ok evs, s') ∧
    map tag_of evs
      = tagged_on (ports (set_ports (λ _, burst_table) patched))
          (input_ports (io (set_ports (λ _, burst_table) patched))) ∧
    ports s'
      = drain_ports (input_ports (io (set_ports (λ _, burst_table) patched)))
          (ports (set_ports (λ _, burst_table) patched)) ∧
    (∀ h, h ∈ input_ports (io (set_ports (λ _, burst_table) patched)) →
          queue_at (ports s') h = []) ∧
    incoming s' = incoming (set_ports (λ _, burst_table) patched) ∧
    calls s' = calls (set_ports (λ _, burst_table) patched) ∧
    io s' = io (set_ports (λ _, burst_table) patched).
Proof.
  apply (read_events_non_blocking_drains (set_ports (λ _, burst_table) patched)).
  - run_decide.
  - apply Forall_forall. run_decide.
Defined.

(** ** engine.py: the thread and the loop *)

(** X13: starting an engine that runs does nothing: a second
    [Engine.start] starts no second thread. *)
Theorem Engine_start_twice s :
  (Engine_start ;; Engine_start) s = Engine_start s.
Proof.
  destruct s as [? [[] ?] ? ? ? ? ? ? ? ? ? ? ?]; reflexivity.
Qed.

Lemma read_events_no_inputs b s :
  input_ports (io s) = [] → read_events b s = (Ok [], s).
Proof.
  intros Hins. unfold read_events.
  rewrite (bind_ok _ _ _ (input_ports (io s)) s) by done.
  by rewrite Hins.
Qed.

Lemma _run_stopped {Obs} (cb : option (Callback Obs)) n q s :
  _running (eng s) = false → _run n cb q s = (Ok q, s).
Proof.
  intros Hr. destruct n; [done|]. cbn [_run].
  rewrite (bind_ok _ _ _ (_running (eng s)) s) by done.
  by rewrite Hr.
Qed.

(** X14: with no input held, a round of the loop reads nothing, sends
    nothing and does not wait: however many rounds the loop makes, the
    observer, the ports and the log of calls are as before. *)
Theorem _run_without_inputs {Obs} (cb : option (Callback Obs)) n q s :
  input_ports (io s) = [] → _run n cb q s = (Ok q, s).
Proof.
  intros Hins. induction n as [|n IH]; [done|].
  destruct (_running (eng s)) eqn:Hr; [|by apply _run_stopped].
  rewrite (_run_round cb n q s [] s Hr (read_events_no_inputs false s Hins)).
  exact IH.
Qed.

(** X15: the loop has no timeout of its own: while it runs with inputs
    held, and no message is pending or ever arrives, the round it is in
    never ends. *)
Theorem _run_waits_for_a_message {Obs} (cb : option (Callback Obs)) n q s :
  _running (eng s) = true →
  input_ports (io s) ≠ [] →
  multi_in (io s) = Some (input_ports (io s)) →
  wait_any (input_ports (io s)) (incoming s) (ports s) = None →
  (_run (S n) cb q s).1 = Halt Blocked.
Proof.
  intros Hr Hne Hmulti _.
  pose proof (read_events_blocking_halts s _ Hne Hmulti) as Er.
  cbn [_run]. rewrite (bind_ok _ _ _ (_running (eng s)) s) by done.
  rewrite Hr. by rewrite (bind_halt _ _ _ _ _ Er).
Qed.

Lemma read_events_no_multi s :
  multi_in (io s) = None → read_events false s = (Ok [], s).
Proof.
  intros Hm. unfold read_events.
  rewrite (bind_ok _ _ _ (input_ports (io s)) s) by done.
  destruct (input_ports (io s)); [done|].
  rewrite (bind_ok _ _ _ (multi_in (io s)) s) by done. by rewrite Hm.
Qed.

(** X16: the engine forwards nothing.  For every state, every observer
    and every number of rounds, the loop either changes nothing at all
    and returns the observer as it was given (the engine is stopped, or
    no input is held, or there is no multiplexed handle), or it stays
    for ever in the [receive] of its first read: the only call it has
    made is that [receive], so the observer was never called and no
    message was sent to an output, while the messages that arrive are
    taken off the ports of the multiplexed handle. *)
Theorem engine_never_forwards {Obs} (cb : option (Callback Obs)) n q s :
  _run n cb q s = (Ok q, s) ∨
  ((_run n cb q s).1 = Halt Blocked ∧
   calls (_run n cb q s).2 = calls s ++ [CReceive] ∧
   ∃ hs, multi_in (io s) = Some hs ∧
         ports (_run n cb q s).2
         = sweep hs (deliver_all (incoming s) (ports s))).
Proof.
  induction n as [|n IH]; [by left|].
  destruct (_running (eng s)) eqn:Hr; [|left; by apply _run_stopped].
  destruct (decide (input_ports (io s) = [])) as [Hins|Hne].
  { rewrite (_run_round cb n q s [] s Hr (read_events_no_inputs false s Hins)).
    exact IH. }
  destruct (multi_in (io s)) as [hs|] eqn:Hm.
  - right. pose proof (read_events_blocking_halts s hs Hne Hm) as Er.
    assert (_run (S n) cb q s = (Halt Blocked, blocked_in hs s)) as ->.
    { cbn [_run]. rewrite (bind_ok _ _ _ (_running (eng s)) s) by done.
      rewrite Hr. by rewrite (bind_halt _ _ _ _ _ Er). }
    cbn [fst snd]. split; [done|]. split; [by destruct s|].
    exists hs. split; [done|by destruct s].
  - rewrite (_run_round cb n q s [] s Hr (read_events_no_multi s Hm)).
    exact IH.
Qed.

Lemma _run_without_inputs_witness :
  _run 5 (Some on_event) [] (set_eng (set_running true) boot)
  = (Ok [], set_eng (set_running true) boot).
Proof.
  apply (_run_without_inputs (Some on_event) 5 []
           (set_eng (set_running true) boot)).
  reflexivity.
Defined.

Lemma _run_waits_for_a_message_witness :
  (_run 1 (Some on_event) [] (set_eng (set_running true) patched)).1
  = Halt Blocked.
Proof.
  apply (_run_waits_for_a_message (Some on_event) 0 []
           (set_eng (set_running true) patched)).
  - reflexivity.
  - vm_compute. discriminate.
  - vm_compute. reflexivity.
  - vm_compute. reflexivity.
Defined.

(** ** main.py and tui.py: start, port selection and shutdown *)

Lemma try_pass_raise m s e s' :
  m s = (Raise e, s') → try_pass m s = (Ok tt, s').
Proof. intros E. unfold try_pass, try_except. by rewrite E. Qed.

Lemma try_pass_ok m s s' : m s = (Ok tt, s') → try_pass m s = (Ok tt, s').
Proof. intros E. unfold try_pass, try_except. by rewrite E. Qed.

Lemma try_finally_exit {A} (m : M A) f s c s1 s2 :
  m s = (Halt (SystemExit c), s1) → f s1 = (Ok tt, s2) →
  try_finally m f s = (Halt (SystemExit c), s2).
Proof. intros E1 E2. unfold try_finally. by rewrite E1, E2. Qed.

Lemma fs_is_dir_not (t : gmap (list string) node) p :
  p ≠ [] → t !! p ≠ Some Dir → fs_is_dir t p = false.
Proof.
  intros Hne Hp. unfold fs_is_dir. destruct p; [done|].
  by destruct (t !! _) as [[]|].
Qed.

Lemma as_strs_names l : as_strs (map PStr l) = Some l.
Proof. induction l as [|x l IH]; [done|]. simpl. by rewrite IH. Qed.

Lemma as_names_run l s : as_names (py_names l) s = (Ok l, s).
Proof. unfold as_names, py_names. by rewrite as_strs_names. Qed.

Section program.
Context `{YAML} `{Install}.

Lemma parent_default : parent DEFAULT_PATH = module_dir.
Proof. unfold parent, DEFAULT_PATH. apply removelast_last. Qed.

Lemma default_path_ne : DEFAULT_PATH ≠ [].
Proof. unfold DEFAULT_PATH. intros E. by apply app_eq_nil in E as [_ ?]. Qed.

Lemma shutdown_prefix {B} (k : Config → M B) s :
  ((Engine_stop ;; MidiIO_close ;; cfg ← gets conf; k cfg) : M B) s
  = k (conf s) (closed_down s).
Proof.
  rewrite (bind_ok _ _ _ _ _ (Engine_stop_run s)).
  rewrite (bind_ok _ _ _ _ _ (MidiIO_close_run _)).
  erewrite (bind_ok (gets conf) _ _ (conf s)) by (by destruct s).
  f_equal. unfold closed_down. destruct s. sys_simpl.
  by rewrite <- !app_assoc.
Qed.

(** A save at the default path that meets no obstacle. *)
Lemma save_config_default_run cfg s :
  crash_in s = None →
  fs_is_dir (fs s) module_dir = true →
  fs_is_dir (fs s) (module_dir ++ ["config.tmp"]) = false →
  fs_is_dir (fs s) DEFAULT_PATH = false →
  save_config cfg DEFAULT_PATH s
  = (Ok tt,
     set_fs (λ t, <[DEFAULT_PATH := File (safe_dump (config_data cfg))]>
                    (delete (module_dir ++ ["config.tmp"]) t))
       (set_calls (λ l, l ++ [CMkdir module_dir;
                              CWriteText (module_dir ++ ["config.tmp"])
                                (safe_dump (config_data cfg));
                              CReplace (module_dir ++ ["config.tmp"])
                                DEFAULT_PATH]) s)).
Proof.
  intros Hc Hdir Htmp Hp.
  rewrite (save_config_run cfg DEFAULT_PATH (module_dir ++ ["config.tmp"]) s)
    by (rewrite ?parent_default; first [done|apply with_suffix_default]).
  by rewrite parent_default.
Qed.

(** X17: the shutdown never leaves a broken configuration file.
    Wherever the [finally] block of [main] stops (power cut, error of
    the file system), the file at the default path holds the complete
    document of the configuration when the block ended normally, and
    exactly what it held before when it did not; the signal handler
    never returns to its caller, and leaves the file holding the new
    document or what it held before. *)
Theorem shutdown_keeps_config_whole s :
  (((main_finally s).1 = Ok tt ∧
    fs (main_finally s).2 !! DEFAULT_PATH
      = Some (File (safe_dump (config_data (conf s))))) ∨
   ((main_finally s).1 ≠ Ok tt ∧
    fs (main_finally s).2 !! DEFAULT_PATH = fs s !! DEFAULT_PATH)) ∧
  (_shutdown s).1 ≠ Ok tt ∧
  (fs (_shutdown s).2 !! DEFAULT_PATH
     = Some (File (safe_dump (config_data (conf s)))) ∨
   fs (_shutdown s).2 !! DEFAULT_PATH = fs s !! DEFAULT_PATH).
Proof.
  assert (fs (closed_down s) = fs s) as Hfs by (by destruct s).
  destruct (save_config (conf s) DEFAULT_PATH (closed_down s)) as [r s1] eqn:E.
  pose proof (save_config_default_atomic _ _ _ _ E) as Hat. rewrite Hfs in Hat.
  split.
  - unfold main_finally.
    rewrite (shutdown_prefix (λ cfg, save_config cfg DEFAULT_PATH) s).
    by rewrite E.
  - unfold _shutdown.
    rewrite (shutdown_prefix (λ cfg, save_config cfg DEFAULT_PATH ;; sys_exit 0) s).
    destruct r as [[]|e|h].
    + rewrite (bind_ok _ _ _ _ _ E). split; [done|]. left.
      destruct Hat as [[_ Hnew]|[? _]]; [|done]. by destruct s1.
    + rewrite (bind_raise _ _ _ _ _ E). split; [done|]. right.
      destruct Hat as [[? _]|[_ Hold]]; done.
    + rewrite (bind_halt _ _ _ _ _ E). split; [done|]. right.
      destruct Hat as [[? _]|[_ Hold]]; done.
Qed.

Lemma main_start_run tui s :
  fs_exists (fs s) DEFAULT_PATH = false →
  main tui s = try_finally tui main_finally (started s).
Proof.
  intros Hp.
  assert (load_config DEFAULT_PATH s = (Ok Config_default, s)) as Hload.
  { unfold load_config, Path_exists. mrun. by rewrite Hp. }
  unfold main. rewrite (bind_ok _ _ _ _ _ Hload).
  unfold started. destruct s. reflexivity.
Qed.

(** X18: with no configuration file, [main] opens no port and starts
    the engine with the zero-value configuration, then runs the
    terminal interface inside [try ... finally]. *)
Theorem main_without_config tui s :
  fs_exists (fs s) DEFAULT_PATH = false →
  main tui s = try_finally tui main_finally (started s).
Proof. apply main_start_run. Qed.

(** X19: a signal while the terminal interface runs shuts down twice.
    With no configuration file at the start, the handler stops the
    engine, saves and exits with code 0; the [SystemExit] then passes
    through the [finally] block of [main], which joins the thread and
    saves once more.  The program ends with exit code 0 and the file
    holds the document of the configuration. *)
Theorem signal_shuts_down_twice s :
  crash_in s = None →
  fs_is_dir (fs s) module_dir = true →
  fs_is_dir (fs s) (module_dir ++ ["config.tmp"]) = false →
  fs_exists (fs s) DEFAULT_PATH = false →
  (main _shutdown s).1 = Halt (SystemExit 0) ∧
  calls (main _shutdown s).2
    = calls s
      ++ [CThreadStart; CJoin; CMkdir module_dir;
          CWriteText (module_dir ++ ["config.tmp"])
            (safe_dump (config_data Config_default));
          CReplace (module_dir ++ ["config.tmp"]) DEFAULT_PATH;
          CExit 0;
          CJoin; CMkdir module_dir;
          CWriteText (module_dir ++ ["config.tmp"])
            (safe_dump (config_data Config_default));
          CReplace (module_dir ++ ["config.tmp"]) DEFAULT_PATH] ∧
  fs (main _shutdown s).2 !! DEFAULT_PATH
    = Some (File (safe_dump (config_data Config_default))).
Proof.
  intros Hc Hdir Htmp Hp.
  assert (fs_is_dir (fs s) DEFAULT_PATH = false) as Hpd.
  { revert Hp. unfold fs_exists, fs_is_dir.
    destruct DEFAULT_PATH; [done|]. by destruct (fs s !! _). }
  assert (module_dir ≠ DEFAULT_PATH) as Hne1.
  { unfold DEFAULT_PATH. intros E. apply (f_equal length) in E.
    rewrite length_app in E. simpl in E. lia. }
  assert (module_dir ≠ module_dir ++ ["config.tmp"]) as Hne2.
  { intros E. apply (f_equal length) in E.
    rewrite length_app in E. simpl in E. lia. }
  assert (module_dir ++ ["config.tmp"] ≠ DEFAULT_PATH) as Hne3.
  { unfold DEFAULT_PATH. intros E. by apply app_inv_head in E. }
  set (text := safe_dump (config_data Config_default)).
  set (F := λ t : gmap (list string) node,
              <[DEFAULT_PATH := File text]>
                (delete (module_dir ++ ["config.tmp"]) t)).
  set (W := [CMkdir module_dir;
             CWriteText (module_dir ++ ["config.tmp"]) text;
             CReplace (module_dir ++ ["config.tmp"]) DEFAULT_PATH]).
  rewrite (main_start_run _shutdown s Hp).
  set (c1 := closed_down (started s)).
  set (c2 := set_fs F (set_calls (λ l, l ++ W) c1)).
  set (c3 := set_calls (λ l, l ++ [CExit 0]) c2).
  set (c4 := closed_down c3).
  set (c5 := set_fs F (set_calls (λ l, l ++ W) c4)).
  assert (_shutdown (started s) = (Halt (SystemExit 0), c3)) as E1.
  { unfold _shutdown.
    rewrite (shutdown_prefix (λ cfg, save_config cfg DEFAULT_PATH ;; sys_exit 0)).
    replace (conf (started s)) with Config_default by (by destruct s).
    fold c1.
    rewrite (bind_ok _ _ _ _ _ (save_config_default_run Config_default c1
               ltac:(by destruct s) ltac:(by destruct s)
               ltac:(by destruct s) ltac:(by destruct s))).
    reflexivity. }
  assert (fs c4 = F (fs s)) as Hfs4 by (by destruct s).
  assert (main_finally c3 = (Ok tt, c5)) as E2.
  { unfold main_finally.
    rewrite (shutdown_prefix (λ cfg, save_config cfg DEFAULT_PATH)).
    replace (conf c3) with Config_default by (by destruct s).
    fold c4. apply save_config_default_run.
    - by destruct s.
    - rewrite Hfs4, (fs_is_dir_same (fs s)); [done|]. unfold F.
      by rewrite lookup_insert_ne, lookup_delete_ne.
    - rewrite Hfs4. apply fs_is_dir_not.
      + intros E. by apply app_eq_nil in E as [_ ?].
      + unfold F. by rewrite lookup_insert_ne, lookup_delete_eq.
    - rewrite Hfs4. apply fs_is_dir_not; [apply default_path_ne|].
      unfold F. by rewrite lookup_insert_eq. }
  rewrite (try_finally_exit _ _ _ _ _ _ E1 E2). cbn [fst snd].
  split; [done|]. split.
  - subst c5 c4 c3 c2 c1 W. unfold closed_down, started, join_calls.
    destruct s. sys_simpl. cbn [map app]. by rewrite <- !app_assoc.
  - replace (fs c5) with (F (F (fs s))) by (by destruct s).
    unfold F. by rewrite lookup_insert_eq.
Qed.
End program.

Section selection.
Context `{YAML} `{Install}.

Lemma py_names_truthy pre (n : string) post :
  py_truthy (py_names (pre ++ n :: post)) = true.
Proof. by destruct pre. Qed.

Lemma load_config_document cfg text s :
  fs s !! DEFAULT_PATH = Some (File text) →
  safe_load text = inr (config_data cfg) →
  load_config DEFAULT_PATH s
  = (Ok cfg, set_calls (λ l, l ++ [CReadText DEFAULT_PATH]) s).
Proof.
  intros Hp Hv.
  rewrite (load_config_reads DEFAULT_PATH text s)
    by (first [apply default_path_ne|done]).
  rewrite (bind_ok _ _ _ (config_data cfg)
             (set_calls (λ l, l ++ [CReadText DEFAULT_PATH]) s))
    by (by unfold yaml_safe_load; rewrite Hv).
  by destruct cfg as [[i o]].
Qed.

(** [main] on a configuration whose inputs cannot all be opened. *)
Lemma main_stale_run tui text cfg pre n post s :
  fs s !! DEFAULT_PATH = Some (File text) →
  safe_load text = inr (config_data cfg) →
  inputs (midi cfg) = py_names (pre ++ n :: post) →
  Forall (λ x, x ∈ host_inputs s) pre →
  n ∉ host_inputs s →
  main tui s
  = (Raise (OSError "unknown port"),
     set_ports (λ ps, ps ++ map (λ x, mkPort x Input false []) pre)
       (set_calls (λ l, l ++ CReadText DEFAULT_PATH
                          :: map COpenInput (pre ++ [n]))
          (set_io (λ _, MidiIO_init) (set_conf (λ _, cfg) s)))).
Proof.
  intros Hp Hv Hin Hall Hn.
  set (s1 := set_calls (λ l, l ++ [CReadText DEFAULT_PATH]) s).
  set (s2 := set_io (λ _, MidiIO_init) (set_conf (λ _, cfg) s1)).
  assert ((names ← as_names (py_names (pre ++ n :: post)); open_inputs names) s2
          = open_inputs (pre ++ n :: post) s2) as Hnames.
  { by rewrite (bind_ok _ _ _ _ _ (as_names_run _ s2)). }
  unfold main. rewrite (bind_ok _ _ _ _ _ (load_config_document cfg text s Hp Hv)).
  fold s1. rewrite (bind_ok _ _ _ tt (set_conf (λ _, cfg) s1)) by done.
  rewrite (bind_ok _ _ _ tt s2) by done.
  rewrite Hin, py_names_truthy.
  erewrite bind_raise; cycle 1.
  { rewrite Hnames. apply open_inputs_fails_run; by destruct s. }
  subst s2 s1. destruct s. sys_simpl.
  cbn [map app close_ports fold_left]. by rewrite <- app_assoc.
Qed.

(** X20: a configuration file that names an input the host no longer
    offers stops the program at start: [main] raises the exception of
    [mido.open_input], having tried the names up to that one; the
    engine is not started, the terminal interface is not shown, the
    [finally] block is not reached and the file is not touched. *)
Theorem main_stale_input tui text pre n post outs s :
  fs s !! DEFAULT_PATH = Some (File text) →
  safe_load text = inr (config_data (names_config (pre ++ n :: post) outs)) →
  Forall (λ x, x ∈ host_inputs s) pre →
  n ∉ host_inputs s →
  (main tui s).1 = Raise (OSError "unknown port") ∧
  calls (main tui s).2
    = calls s ++ CReadText DEFAULT_PATH :: map COpenInput (pre ++ [n]) ∧
  fs (main tui s).2 = fs s ∧
  eng (main tui s).2 = eng s.
Proof.
  intros Hp Hv Hall Hn.
  rewrite (main_stale_run tui text _ pre n post s Hp Hv eq_refl Hall Hn).
  by destruct s.
Qed.

Lemma on_message_unavailable_run cb pre n post save s :
  Forall (λ x, x ∈ host_inputs s) pre →
  n ∉ host_inputs s →
  on_message cb (PortSelected "inputs" (pre ++ n :: post) save) s
  = (Ok tt,
     set_io (λ o, mkMidiIO [] (output_ports o) None)
       (set_ports (λ ps, close_ports (broken s) (input_ports (io s)) ps
                         ++ map (λ x, mkPort x Input false []) pre)
          (set_calls (λ l, l ++ map CClose (input_ports (io s))
                             ++ map COpenInput (pre ++ [n]))
             (set_conf (assign_inputs (py_names (pre ++ n :: post))) s)))).
Proof.
  intros Hall Hn. unfold on_message.
  change ("inputs" =? "inputs")%string with true. cbv iota.
  set (s1 := set_conf (assign_inputs (py_names (pre ++ n :: post))) s).
  apply try_pass_raise with (e := OSError "unknown port").
  apply bind_raise. rewrite (bind_ok _ _ _ tt s1) by done.
  rewrite (open_inputs_fails_run pre n post s1) by (by destruct s).
  by destruct s.
Qed.

(** X21: selecting an input the host does not offer.  The handler of
    the selection returns as if nothing had happened, with any save
    callback and whether or not a save was asked for: the configuration
    in memory holds the whole selection, the inputs held before were
    closed and no input is held now, and nothing was saved. *)
Theorem on_message_unavailable_input cb pre n post save s :
  Forall (λ x, x ∈ host_inputs s) pre →
  n ∉ host_inputs s →
  ∃ s',
    on_message cb (PortSelected "inputs" (pre ++ n :: post) save) s
      = (Ok tt, s') ∧
    conf s' = assign_inputs (py_names (pre ++ n :: post)) (conf s) ∧
    input_ports (io s') = [] ∧
    multi_in (io s') = None ∧
    fs s' = fs s ∧
    calls s' = calls s ++ map CClose (input_ports (io s))
                 ++ map COpenInput (pre ++ [n]).
Proof.
  intros Hall Hn. eexists.
  split; [by apply on_message_unavailable_run|]. by destruct s.
Qed.

(** X22: selecting inputs the host offers, with a save asked for and
    the callback [main] passes.  When nothing stands in the way of the
    save, the handler returns, the configuration in memory holds the
    selection, the inputs held are ports with the selected names in the
    selected order, and the file at the default path holds the document
    of the new configuration. *)
Theorem on_message_selects_and_saves selected s :
  Forall (λ x, x ∈ host_inputs s) selected →
  crash_in s = None →
  fs_is_dir (fs s) module_dir = true →
  fs_is_dir (fs s) (module_dir ++ ["config.tmp"]) = false →
  fs_is_dir (fs s) DEFAULT_PATH = false →
  ∃ s',
    on_message save_default (PortSelected "inputs" selected true) s
      = (Ok tt, s') ∧
    conf s' = assign_inputs (py_names selected) (conf s) ∧
    map (name_at (ports s')) (input_ports (io s')) = map Some selected ∧
    fs s' !! DEFAULT_PATH = Some (File (safe_dump (config_data (conf s')))).
Proof.
  intros Hall Hc Hdir Htmp Hp. unfold on_message, save_default.
  change ("inputs" =? "inputs")%string with true. cbv iota.
  set (cfg := assign_inputs (py_names selected) (conf s)).
  set (s1 := set_conf (assign_inputs (py_names selected)) s).
  assert (Forall (λ x, x ∈ host_inputs s1) selected) as Hall1 by (by destruct s).
  pose proof (open_inputs_ok selected s1 Hall1) as Hopen.
  match type of Hopen with _ = (_, ?t) => set (s2 := t) in * end.
  assert (conf s2 = cfg) as Hconf by (by destruct s).
  pose proof (save_config_default_run cfg s2
                ltac:(by destruct s) ltac:(by destruct s)
                ltac:(by destruct s) ltac:(by destruct s)) as Hsave.
  match type of Hsave with _ = (_, ?t) => set (s3 := t) in * end.
  exists s3. split; [|split; [by destruct s|split]].
  - apply try_pass_ok.
    rewrite (bind_ok _ _ _ tt s2)
      by (by rewrite (bind_ok _ _ _ tt s1)).
    rewrite (bind_ok _ _ _ cfg s2) by (by rewrite <- Hconf).
    by apply try_pass_ok.
  - replace (ports s3)
      with (close_ports (broken s) (input_ports (io s)) (ports s)
            ++ map (λ n, mkPort n Input false []) selected)
      by (by destruct s).
    replace (input_ports (io s3))
      with (seq (length (close_ports (broken s) (input_ports (io s)) (ports s)))
              (length selected))
      by (rewrite close_ports_length; by destruct s).
    apply names_of_fresh.
  - replace (conf s3) with cfg by (by destruct s).
    replace (fs s3)
      with (<[DEFAULT_PATH := File (safe_dump (config_data cfg))]>
              (delete (module_dir ++ ["config.tmp"]) (fs s)))
      by (by destruct s).
    by rewrite lookup_insert_eq.
Qed.


(** X24: the selection of an unavailable input outlives the session.
    After the handler has swallowed the failure, the [finally] block of
    [main] saves the configuration that names the unavailable port
    (given a YAML library that reads back what it printed), and the next
    start of the program fails on it before the engine is started. *)
Theorem unavailable_selection_breaks_next_start cb pre n post save tui s :
  Forall (λ x, x ∈ host_inputs s) pre →
  n ∉ host_inputs s →
  crash_in s = None →
  fs_is_dir (fs s) module_dir = true →
  fs_is_dir (fs s) (module_dir ++ ["config.tmp"]) = false →
  fs_is_dir (fs s) DEFAULT_PATH = false →
  safe_load (safe_dump (config_data
               (assign_inputs (py_names (pre ++ n :: post)) (conf s))))
    = inr (config_data (assign_inputs (py_names (pre ++ n :: post)) (conf s))) →
  ∃ s1 s2,
    on_message cb (PortSelected "inputs" (pre ++ n :: post) save) s
      = (Ok tt, s1) ∧
    main_finally s1 = (Ok tt, s2) ∧
    (main tui s2).1 = Raise (OSError "unknown port").
Proof.
  intros Hall Hn Hc Hdir Htmp Hp Hback.
  set (cfg := assign_inputs (py_names (pre ++ n :: post)) (conf s)) in *.
  eexists. eexists.
  split; [by apply on_message_unavailable_run|].
  match goal with |- main_finally ?t = _ ∧ _ => set (s1 := t) end.
  assert (conf s1 = cfg) as Hconf by (by destruct s).
  pose proof (save_config_default_run cfg (closed_down s1)
                ltac:(by destruct s) ltac:(by destruct s)
                ltac:(by destruct s) ltac:(by destruct s)) as Hsave.
  split.
  - unfold main_finally.
    rewrite (shutdown_prefix (λ c, save_config c DEFAULT_PATH) s1), Hconf.
    exact Hsave.
  - erewrite (main_stale_run tui (safe_dump (config_data cfg)) cfg pre n post);
      [done| |exact Hback|done|by destruct s|by destruct s].
    replace (fs _) with (<[DEFAULT_PATH := File (safe_dump (config_data cfg))]>
                           (delete (module_dir ++ ["config.tmp"]) (fs s)))
      by (by destruct s).
    by rewrite lookup_insert_eq.
Qed.

Lemma open_if_inputs ins s :
  input_ports (io s) = [] → multi_in (io s) = None →
  (if py_truthy (py_names ins)
   then names ← as_names (py_names ins); open_inputs names
   else mret tt) s
  = open_inputs ins s.
Proof.
  intros Hi Hm. destruct ins as [|x ins].
  - rewrite open_inputs_ok by constructor.
    destruct s as [[] ? ? ? ? ? ? ? ? ? ? ? ?]. simpl in Hi, Hm. subst.
    cbn [py_names map py_truthy]. unfold mret, M_ret. sys_simpl.
    cbn [map length seq close_ports fold_left]. by rewrite !app_nil_r.
  - change (py_truthy (py_names (x :: ins))) with true. cbv iota.
    by rewrite (bind_ok _ _ _ _ _ (as_names_run _ s)).
Qed.

Lemma open_if_outputs outs s :
  output_ports (io s) = [] →
  (if py_truthy (py_names outs)
   then names ← as_names (py_names outs); open_outputs names
   else mret tt) s
  = open_outputs outs s.
Proof.
  intros Ho. destruct outs as [|x outs].
  - rewrite open_outputs_ok by constructor.
    destruct s as [[] ? ? ? ? ? ? ? ? ? ? ? ?]. simpl in Ho. subst.
    cbn [py_names map py_truthy]. unfold mret, M_ret. sys_simpl.
    cbn [map length seq close_ports fold_left]. by rewrite !app_nil_r.
  - change (py_truthy (py_names (x :: outs))) with true. cbv iota.
    by rewrite (bind_ok _ _ _ _ _ (as_names_run _ s)).
Qed.

Lemma Engine_start_init s :
  Engine_start (set_eng (λ _, Engine_init) s)
  = (Ok tt, set_calls (λ l, l ++ [CThreadStart])
              (set_eng (λ _, mkEngine true true) s)).
Proof. by destruct s. Qed.

Lemma name_at_app_l (l more : list Port) h :
  h < length l → name_at (l ++ more) h = name_at l h.
Proof. intros Hh. unfold name_at. by rewrite lookup_app_l. Qed.

(** X25: [main] restores the ports of the configuration file.  When
    the file at the default path holds a document with two lists of
    names the host offers, [main] opens the inputs in the order of the
    file, then the outputs in the order of the file, starts the engine,
    and only then runs the terminal interface inside [try ... finally]:
    the object then holds ports with exactly these names. *)
Theorem main_opens_configured_ports tui text ins outs s :
  fs s !! DEFAULT_PATH = Some (File text) →
  safe_load text = inr (config_data (names_config ins outs)) →
  Forall (λ x, x ∈ host_inputs s) ins →
  Forall (λ x, x ∈ host_outputs s) outs →
  ∃ s1,
    main tui s = try_finally tui main_finally s1 ∧
    conf s1 = names_config ins outs ∧
    map (name_at (ports s1)) (input_ports (io s1)) = map Some ins ∧
    map (name_at (ports s1)) (output_ports (io s1)) = map Some outs ∧
    eng s1 = mkEngine true true ∧
    calls s1 = calls s ++ CReadText DEFAULT_PATH
                 :: map COpenInput ins ++ map COpenOutput outs
                 ++ [CThreadStart].
Proof.
  intros Hp Hv Hins Houts.
  set (cfg := names_config ins outs).
  set (s1 := set_calls (λ l, l ++ [CReadText DEFAULT_PATH]) s).
  set (s2 := set_io (λ _, MidiIO_init) (set_conf (λ _, cfg) s1)).
  assert (Forall (λ x, x ∈ host_inputs s2) ins) as Hins2 by (by destruct s).
  pose proof (open_inputs_ok ins s2 Hins2) as Hopen.
  match type of Hopen with _ = (_, ?t) => set (s3 := t) in * end.
  assert (Forall (λ x, x ∈ host_outputs s3) outs) as Houts3 by (by destruct s).
  pose proof (open_outputs_ok outs s3 Houts3) as Hopen'.
  match type of Hopen' with _ = (_, ?t) => set (s4 := t) in * end.
  set (s5 := set_calls (λ l, l ++ [CThreadStart])
               (set_eng (λ _, mkEngine true true) s4)).
  exists s5. split; [|split; [by destruct s|split; [|split; [|split]]]].
  - unfold main.
    rewrite (bind_ok _ _ _ _ _ (load_config_document cfg text s Hp Hv)).
    fold s1. rewrite (bind_ok _ _ _ tt (set_conf (λ _, cfg) s1)) by done.
    rewrite (bind_ok _ _ _ tt s2) by done.
    change (inputs (midi cfg)) with (py_names ins).
    change (outputs (midi cfg)) with (py_names outs).
    rewrite (bind_ok _ _ _ tt s3)
      by (rewrite open_if_inputs by (by destruct s); exact Hopen).
    rewrite (bind_ok _ _ _ tt s4)
      by (rewrite open_if_outputs by (by destruct s); exact Hopen').
    rewrite (bind_ok _ _ _ tt (set_eng (λ _, Engine_init) s4)) by done.
    rewrite (bind_ok _ _ _ tt s5) by apply Engine_start_init.
    reflexivity.
  - replace (ports s5)
      with ((ports s ++ map (λ n, mkPort n Input false []) ins)
            ++ map (λ n, mkPort n Output false []) outs) by (by destruct s).
    replace (input_ports (io s5)) with (seq (length (ports s)) (length ins))
      by (by destruct s).
    rewrite <- (names_of_fresh Input ins (ports s)).
    apply map_ext_in. intros h Hh%in_seq. apply name_at_app_l.
    rewrite length_app, length_map. lia.
  - replace (ports s5)
      with ((ports s ++ map (λ n, mkPort n Input false []) ins)
            ++ map (λ n, mkPort n Output false []) outs) by (by destruct s).
    replace (output_ports (io s5))
      with (seq (length (ports s ++ map (λ n, mkPort n Input false []) ins))
              (length outs)) by (by destruct s).
    apply names_of_fresh.
  - by destruct s.
  - subst s5 s4 s3 s2 s1. destruct s. sys_simpl.
    cbn [map app]. by rewrite <- !app_assoc.
Qed.

(** X26: a selection for any kind other than ["inputs"] is a selection
    of outputs.  With names the host offers and no save asked for, the
    handler returns, the configuration in memory holds the selection as
    its outputs, the outputs held are ports with the selected names in
    the selected order, and the inputs, the file tree and the inputs of
    the configuration are as before. *)
Theorem on_message_selects_outputs cb kind selected s :
  kind ≠ "inputs" →
  Forall (λ x, x ∈ host_outputs s) selected →
  ∃ s',
    on_message cb (PortSelected kind selected false) s = (Ok tt, s') ∧
    conf s' = assign_outputs (py_names selected) (conf s) ∧
    map (name_at (ports s')) (output_ports (io s')) = map Some selected ∧
    input_ports (io s') = input_ports (io s) ∧
    multi_in (io s') = multi_in (io s) ∧
    fs s' = fs s.
Proof.
  intros Hk Hall. unfold on_message.
  rewrite (proj2 (String.eqb_neq kind "inputs") Hk).
  set (s1 := set_conf (assign_outputs (py_names selected)) s).
  assert (Forall (λ x, x ∈ host_outputs s1) selected) as Hall1 by (by destruct s).
  pose proof (open_outputs_ok selected s1 Hall1) as Hopen.
  match type of Hopen with _ = (_, ?t) => set (s2 := t) in * end.
  exists s2. split; [|split; [by destruct s|split; [|by destruct s]]].
  - apply try_pass_ok.
    rewrite (bind_ok _ _ _ tt s2)
      by (by rewrite (bind_ok _ _ _ tt s1)).
    reflexivity.
  - replace (ports s2)
      with (close_ports (broken s) (output_ports (io s)) (ports s)
            ++ map (λ n, mkPort n Output false []) selected)
      by (by destruct s).
    replace (output_ports (io s2))
      with (seq (length (close_ports (broken s) (output_ports (io s)) (ports s)))
              (length selected))
      by (rewrite close_ports_length; by destruct s).
    apply names_of_fresh.
Qed.
End selection.

(** The program on the sample installation *)

Lemma main_without_config_witness :
  @main pyyaml_sample sample_install (mret tt) installed
  = try_finally (mret tt) (@main_finally pyyaml_sample sample_install)
      (started installed).
Proof.
  apply (@main_without_config pyyaml_sample sample_install (mret tt) installed).
  vm_compute. reflexivity.
Defined.

Lemma signal_shuts_down_twice_witness :
  (@main pyyaml_edge sample_install
     (@_shutdown pyyaml_edge sample_install) installed).1
    = Halt (SystemExit 0) ∧
  calls (@main pyyaml_edge sample_install
           (@_shutdown pyyaml_edge sample_install) installed).2
    = calls installed
      ++ [CThreadStart; CJoin; CMkdir (@module_dir sample_install);
          CWriteText (@module_dir sample_install ++ ["config.tmp"])
            (@safe_dump pyyaml_edge (config_data Config_default));
          CReplace (@module_dir sample_install ++ ["config.tmp"])
            (@DEFAULT_PATH sample_install);
          CExit 0;
          CJoin; CMkdir (@module_dir sample_install);
          CWriteText (@module_dir sample_install ++ ["config.tmp"])
            (@safe_dump pyyaml_edge (config_data Config_default));
          CReplace (@module_dir sample_install ++ ["config.tmp"])
            (@DEFAULT_PATH sample_install)] ∧
  fs (@main pyyaml_edge sample_install
        (@_shutdown pyyaml_edge sample_install) installed).2
    !! @DEFAULT_PATH sample_install
    = Some (File (@safe_dump pyyaml_edge (config_data Config_default))).
Proof.
  apply (@signal_shuts_down_twice pyyaml_edge sample_install installed).
  - reflexivity.
  - vm_compute. reflexivity.
  - vm_compute. reflexivity.
  - vm_compute. reflexivity.
Defined.

Lemma main_stale_input_witness :
  (@main pyyaml_stale sample_install (mret tt) installed_stale).1
    = Raise (OSError "unknown port") ∧
  calls (@main pyyaml_stale sample_install (mret tt) installed_stale).2
    = calls installed_stale
      ++ CReadText (@DEFAULT_PATH sample_install)
         :: map COpenInput (["A"] ++ ["X"]) ∧
  fs (@main pyyaml_stale sample_install (mret tt) installed_stale).2
    = fs installed_stale ∧
  eng (@main pyyaml_stale sample_install (mret tt) installed_stale).2
    = eng installed_stale.
Proof.
  apply (@main_stale_input pyyaml_stale sample_install (mret tt) stale_text
           ["A"] "X" [] ["O"] installed_stale).
  - vm_compute. reflexivity.
  - vm_compute. reflexivity.
  - run_decide.
  - run_decide.
Defined.

Lemma on_message_unavailable_input_witness :
  ∃ s',
    on_message None (PortSelected "inputs" (["A"] ++ "X" :: ["B"]) true) patched
      = (Ok tt, s') ∧
    conf s' = assign_inputs (py_names (["A"] ++ "X" :: ["B"])) (conf patched) ∧
    input_ports (io s') = [] ∧
    multi_in (io s') = None ∧
    fs s' = fs patched ∧
    calls s' = calls patched ++ map CClose (input_ports (io patched))
                 ++ map COpenInput (["A"] ++ ["X"]).
Proof.
  apply (on_message_unavailable_input None ["A"] "X" ["B"] true patched).
  - run_decide.
  - run_decide.
Defined.

Lemma on_message_selects_and_saves_witness :
  ∃ s',
    on_message (@save_default pyyaml_sample sample_install)
      (PortSelected "inputs" ["A"; "B"] true) installed_chosen
      = (Ok tt, s') ∧
    conf s' = assign_inputs (py_names ["A"; "B"]) (conf installed_chosen) ∧
    map (name_at (ports s')) (input_ports (io s')) = map Some ["A"; "B"] ∧
    fs s' !! @DEFAULT_PATH sample_install
      = Some (File (@safe_dump pyyaml_sample (config_data (conf s')))).
Proof.
  apply (@on_message_selects_and_saves pyyaml_sample sample_install
           ["A"; "B"] installed_chosen).
  - run_decide.
  - reflexivity.
  - vm_compute. reflexivity.
  - vm_compute. reflexivity.
  - vm_compute. reflexivity.
Defined.

Lemma unavailable_selection_breaks_next_start_witness :
  ∃ s1 s2,
    on_message None (PortSelected "inputs" (["A"] ++ "X" :: []) false)
      installed_chosen = (Ok tt, s1) ∧
    @main_finally pyyaml_stale sample_install s1 = (Ok tt, s2) ∧
    (@main pyyaml_stale sample_install (mret tt) s2).1
      = Raise (OSError "unknown port").
Proof.
  apply (@unavailable_selection_breaks_next_start pyyaml_stale sample_install
           None ["A"] "X" [] false (mret tt) installed_chosen).
  - run_decide.
  - run_decide.
  - reflexivity.
  - vm_compute. reflexivity.
  - vm_compute. reflexivity.
  - vm_compute. reflexivity.
  - vm_compute. reflexivity.
Defined.

Lemma main_opens_configured_ports_witness :
  ∃ s1,
    @main pyyaml_sample sample_install (mret tt) installed_saved
      = try_finally (mret tt) (@main_finally pyyaml_sample sample_install) s1 ∧
    conf s1 = names_config ["A"; "B"] ["O"] ∧
    map (name_at (ports s1)) (input_ports (io s1)) = map Some ["A"; "B"] ∧
    map (name_at (ports s1)) (output_ports (io s1)) = map Some ["O"] ∧
    eng s1 = mkEngine true true ∧
    calls s1 = calls installed_saved
                 ++ CReadText (@DEFAULT_PATH sample_install)
                 :: map COpenInput ["A"; "B"] ++ map COpenOutput ["O"]
                 ++ [CThreadStart].
Proof.
  apply (@main_opens_configured_ports pyyaml_sample sample_install (mret tt)
           sample_text ["A"; "B"] ["O"] installed_saved).
  - vm_compute. reflexivity.
  - vm_compute. reflexivity.
  - run_decide.
  - run_decide.
Defined.

Lemma on_message_selects_outputs_witness :
  ∃ s',
    on_message None (PortSelected "outputs" ["O"] false) patched = (Ok tt, s') ∧
    conf s' = assign_outputs (py_names ["O"]) (conf patched) ∧
    map (name_at (ports s')) (output_ports (io s')) = map Some ["O"] ∧
    input_ports (io s') = input_ports (io patched) ∧
    multi_in (io s') = multi_in (io patched) ∧
    fs s' = fs patched.
Proof.
  apply (on_message_selects_outputs None "outputs" ["O"] patched).
  - discriminate.
  - run_decide.
Defined.

(** ** config.py: the directories of the destination *)

Lemma fs_exists_cases (t : gmap (list string) node) p :
  p ≠ [] → fs_exists t p = match t !! p with Some _ => true | None => false end.
Proof. by destruct p. Qed.

Lemma fs_is_dir_cases (t : gmap (list string) node) p :
  p ≠ [] →
  fs_is_dir t p = match t !! p with Some Dir => true | _ => false end.
Proof. by destruct p. Qed.

Lemma os_mkdir_run d s :
  crash_in s = None →
  os_mkdir d s
  = (if fs_exists (fs s) d then raise FileExistsError
     else if fs_is_dir (fs s) (parent d) then modify (set_fs (<[d := Dir]>))
     else if fs_exists (fs s) (parent d) then raise NotADirectoryError
     else raise FileNotFoundError) s.
Proof.
  intros Hc. unfold os_mkdir. rewrite (bind_ok _ _ _ _ _ (tick_run s Hc)).
  by rewrite (bind_ok _ _ _ (fs s) s).
Qed.

(** [mkdir(parents=True, exist_ok=True)] where no file stands on the
    way: the directory is there afterwards, and nothing deeper in the
    tree than the directory has changed. *)
Lemma mkdir_rev_makes r : ∀ s,
  crash_in s = None →
  (∀ r' c, r' `suffix_of` r → fs s !! rev r' ≠ Some (File c)) →
  ∃ t', mkdir_rev true r s = (Ok tt, set_fs (λ _, t') s) ∧
        fs_is_dir t' (rev r) = true ∧
        ∀ k, length r < length k → t' !! k = fs s !! k.
Proof.
  induction r as [|x r IH]; intros s Hc Hclear.
  - exists (fs s). split; [|done].
    cbn [mkdir_rev]. unfold try_except. rewrite os_mkdir_run by done.
    cbn [rev fs_exists]. unfold raise.
    rewrite (bind_ok _ _ _ (fs s) s) by done. cbn [andb fs_is_dir].
    by destruct s.
  - set (d := rev (x :: r)).
    assert (d ≠ []) as Hd.
    { subst d. simpl. intros E. by apply app_eq_nil in E as [_ ?]. }
    assert (parent d = rev r) as Hpar.
    { subst d. unfold parent. simpl. apply removelast_last. }
    assert (∀ c, fs s !! d ≠ Some (File c)) as Hfile.
    { intros c. by apply Hclear. }
    assert (∀ c, fs s !! rev r ≠ Some (File c)) as Hfile'.
    { intros c. apply Hclear. by apply suffix_cons_r. }
    cbn [mkdir_rev]. fold d. unfold try_except at 1.
    rewrite os_mkdir_run by done. rewrite Hpar.
    rewrite (fs_exists_cases _ d Hd).
    destruct (fs s !! d) as [[|c]|] eqn:Ed; [|by destruct (Hfile c)|].
    + exists (fs s). split; [|split; [|done]].
      * unfold raise. rewrite (bind_ok _ _ _ (fs s) s) by done.
        rewrite (fs_is_dir_cases _ d Hd), Ed. by destruct s.
      * by rewrite (fs_is_dir_cases _ d Hd), Ed.
    + destruct (fs_is_dir (fs s) (rev r)) eqn:Edir.
      * exists (<[d := Dir]> (fs s)). split; [by destruct s|]. split.
        -- by rewrite (fs_is_dir_cases _ d Hd), lookup_insert_eq.
        -- intros k Hk. rewrite lookup_insert_ne; [done|].
           intros <-. subst d. rewrite length_rev in Hk. lia.
      * assert (fs_exists (fs s) (rev r) = false) as Eex.
        { destruct (decide (rev r = [])) as [E0|Hne]; [by rewrite E0 in Edir|].
          rewrite (fs_exists_cases _ _ Hne).
          rewrite (fs_is_dir_cases _ _ Hne) in Edir.
          destruct (fs s !! rev r) as [[|c]|] eqn:Er; [done| |done].
          by destruct (Hfile' c). }
        rewrite Eex. unfold raise.
        destruct (IH s Hc) as (t1 & E1 & Hdir1 & Hframe1).
        { intros r' c Hr'. apply Hclear. by apply suffix_cons_r. }
        set (s1 := set_fs (λ _, t1) s).
        assert (crash_in s1 = None ∧ fs s1 = t1) as [Hc1 Hfs1] by (by destruct s).
        assert (t1 !! d = None) as Ed1.
        { rewrite Hframe1, Ed; [done|]. subst d. rewrite length_rev. simpl. lia. }
        exists (<[d := Dir]> t1). split; [|split].
        -- rewrite (bind_ok _ _ _ _ _ E1). fold s1.
           unfold mkdir_leaf, try_except. rewrite os_mkdir_run by done.
           rewrite Hpar, Hfs1, (fs_exists_cases _ d Hd), Ed1, Hdir1.
           by destruct s.
        -- by rewrite (fs_is_dir_cases _ d Hd), lookup_insert_eq.
        -- intros k Hk. rewrite lookup_insert_ne.
           ++ apply Hframe1. simpl in Hk. lia.
           ++ intros <-. subst d. rewrite length_rev in Hk. lia.
Qed.

Section config_directories.
Context `{YAML}.

(** X27: [save_config] makes the directories it needs.  When no file
    stands where a directory of the destination should be (and no
    directory at the destination or at the temporary path), a save
    without power cut returns, creating what is missing of the
    directories: afterwards the directory of the destination exists and
    the destination holds the document. *)
Theorem save_config_makes_directories cfg p tmp s :
  crash_in s = None →
  with_suffix p ".tmp" s = (Ok tmp, s) →
  (∀ k c, k `prefix_of` parent p → fs s !! k ≠ Some (File c)) →
  fs_is_dir (fs s) tmp = false →
  fs_is_dir (fs s) p = false →
  (save_config cfg p s).1 = Ok tt ∧
  fs_is_dir (fs (save_config cfg p s).2) (parent p) = true ∧
  fs (save_config cfg p s).2 !! p = Some (File (safe_dump (config_data cfg))).
Proof.
  intros Hc Htmp Hclear Htd Hpd.
  pose proof (with_suffix_parent _ _ _ _ _ Htmp) as Hparent.
  destruct (with_suffix_ok _ _ _ _ _ Htmp) as [Hne Htne].
  pose proof (parent_shorter p Hne) as Hlen.
  pose proof (parent_shorter tmp Htne) as Hlen'. rewrite Hparent in Hlen'.
  set (s0 := set_calls (λ l, l ++ [CMkdir (parent p)]) s).
  destruct (mkdir_rev_makes (rev (parent p)) s0) as (t' & Emk & Hdir & Hframe).
  { by destruct s. }
  { intros r' c [k Hk]. replace (fs s0) with (fs s) by (by destruct s).
    apply Hclear. exists (rev k).
    by rewrite <- (rev_involutive (parent p)), Hk, rev_app_distr. }
  rewrite rev_involutive in Hdir. rewrite length_rev in Hframe.
  replace (fs s0) with (fs s) in Hframe by (by destruct s).
  set (s1 := set_fs (λ _, t') s).
  assert (crash_in s1 = None ∧ fs s1 = t') as [Hc1 Hfs1] by (by destruct s).
  assert (save_config cfg p s = save_config cfg p s1) as ->.
  { unfold save_config, Path_mkdir at 1.
    rewrite (bind_ok _ _ _ tt (set_fs (λ _, t') s0))
      by (by rewrite (bind_ok _ _ _ tt s0)).
    rewrite (bind_ok _ _ _ _ _ (mkdir_existing (parent p) s1 Hc1
               ltac:(by rewrite Hfs1))).
    by replace (set_calls (λ l, l ++ [CMkdir (parent p)]) s1)
      with (set_fs (λ _, t') s0) by (by destruct s). }
  apply with_suffix_pure in Htmp as [_ Htmp].
  rewrite (save_config_run cfg p tmp s1 Hc1 (Htmp s1)
             ltac:(by rewrite Hfs1)
             ltac:(by rewrite Hfs1, (fs_is_dir_same (fs s)), Htd
                     by (by apply Hframe))
             ltac:(by rewrite Hfs1, (fs_is_dir_same (fs s)), Hpd
                     by (by apply Hframe))).
  cbn [fst snd]. split; [done|].
  assert (parent p ≠ p) as Hpp by (intros E; rewrite E in Hlen; lia).
  assert (parent p ≠ tmp) as Hpt by (intros E; rewrite E in Hlen'; lia).
  replace (fs (set_fs _ (set_calls _ s1)))
    with (<[p := File (safe_dump (config_data cfg))]> (delete tmp t'))
    by (by destruct s).
  split.
  - rewrite (fs_is_dir_same t'); [done|].
    by rewrite lookup_insert_ne, lookup_delete_ne.
  - by rewrite lookup_insert_eq.
Qed.
End config_directories.

Lemma save_config_makes_directories_witness :
  (@save_config pyyaml_sample sample_cfg ["etc"; "midi"; "config.yaml"] boot).1
    = Ok tt ∧
  fs_is_dir
    (fs (@save_config pyyaml_sample sample_cfg ["etc"; "midi"; "config.yaml"]
           boot).2)
    (parent ["etc"; "midi"; "config.yaml"]) = true ∧
  fs (@save_config pyyaml_sample sample_cfg ["etc"; "midi"; "config.yaml"]
        boot).2 !! ["etc"; "midi"; "config.yaml"]
    = Some (File (@safe_dump pyyaml_sample (config_data sample_cfg))).
Proof.
  apply (@save_config_makes_directories pyyaml_sample sample_cfg
           ["etc"; "midi"; "config.yaml"] ["etc"; "midi"; "config.tmp"] boot).
  - reflexivity.
  - vm_compute. reflexivity.
  - intros k c _. vm_compute. discriminate.
  - vm_compute. reflexivity.
  - vm_compute. reflexivity.
Defined.
